(** * KRL batched distance engine: a shallow embedding and its properties

    The development follows [third_party/krl/src/L2distance_simd.cpp] and
    [third_party/krl/src/IPdistance_simd.cpp] together with the headers
    [platform_macros.h], [safe_memory.h] and [krl_internal.h].

    - scalars: the kernels are written once over an abstract scalar type
      with the four operations the C code uses on [float]; they are run on
      [Z] and on IEEE binary32 ([SpecFloat]) for the concrete scenarios, and
      value theorems are stated for any scalar type whose operations form a
      commutative ring, i.e. up to the reassociation that
      [KRL_IMPRECISE_FUNCTION_BEGIN] licenses;
    - memory: [const float *] arguments are a block plus an offset, the
      output buffer is a store of cells that also records, for every kernel
      invocation, the range of slots the invocation owns;
    - sizes: [size_t] values are integers in [0, 2^64) with the wrap-around
      written out where the code multiplies or subtracts unvalidated values. *)

From Stdlib Require Import ZArith Lia Ring Bool.
From Stdlib Require Import Floats.SpecFloat.
From stdpp Require Import base list.

(** * Part I: the embedding *)

(** ** platform_macros.h *)

Definition SUCCESS : Z := 0.
Definition INVALPOINTER : Z := -1.
Definition INVALPARAM : Z := -3.
Definition UNSAFEMEM : Z := -5.

(** [size_t] is 64 bits wide on the aarch64 target of the NEON kernels. *)
Definition size_max : Z := 2 ^ 64.
Definition wrap64 (z : Z) : Z := (z mod size_max)%Z.
Definition sizeof_float : Z := 4.

(** ** Scalars *)

Class Scalar (F : Type) := {
  f0 : F;
  fadd : F -> F -> F;
  fsub : F -> F -> F;
  fmul : F -> F -> F
}.

#[export] Instance Z_scalar : Scalar Z :=
  {| f0 := 0%Z; fadd := Z.add; fsub := Z.sub; fmul := Z.mul |}.

(** IEEE-754 binary32: 24 bits of precision, maximal exponent 128. *)
Definition float32 : Type := spec_float.
Definition f32_of_Z (z : Z) : float32 := binary_normalize 24 128 z 0 false.

#[export] Instance f32_scalar : Scalar float32 :=
  {| f0 := S754_zero false;
     fadd := SFadd 24 128;
     fsub := SFsub 24 128;
     fmul := SFmul 24 128 |}.

(** ** Loops

    [for (i = a; cond(i); i += step) body] with the loop state threaded
    through; the result is the final value of [i] and the final state.  The
    fuel is an upper bound on the number of iterations; [for_loop_exit]
    below shows that the bounds used in this file are never exhausted. *)

Fixpoint for_loop {St : Type} (fuel : nat) (cond : nat -> bool) (step : nat)
    (body : nat -> St -> St) (i : nat) (s : St) : nat * St :=
  match fuel with
  | O => (i, s)
  | S fuel' =>
      if cond i then for_loop fuel' cond step body (i + step) (body i s)
      else (i, s)
  end.

Section Memory.
Context {F : Type} `{Scalar F}.

(** *** Read-only blocks: [const float *] *)

Record fptr := FPtr { blk : list F; off : nat }.

Definition ptr_add (p : fptr) (k : nat) : fptr :=
  {| blk := blk p; off := off p + k |}.

(** [p[i]]; a read outside the block is undefined in C and yields zero
    here. *)
Definition ld (p : fptr) (i : nat) : F := default f0 (blk p !! (off p + i)).

(** *** NEON intrinsics on [float32x4_t] *)

Inductive float32x4_t := V4 (a b c d : F).

Definition vld1q_f32 (p : fptr) : float32x4_t :=
  V4 (ld p 0) (ld p 1) (ld p 2) (ld p 3).
Definition vdupq_n_f32 (a : F) : float32x4_t := V4 a a a a.
Definition vlift2 (op : F -> F -> F) (u v : float32x4_t) : float32x4_t :=
  match u, v with
  | V4 a b c d, V4 a' b' c' d' => V4 (op a a') (op b b') (op c c') (op d d')
  end.
Definition vaddq_f32 := vlift2 fadd.
Definition vsubq_f32 := vlift2 fsub.
Definition vmulq_f32 := vlift2 fmul.
(** [vmlaq_f32 a b c] is [a + b * c] lane by lane. *)
Definition vmlaq_f32 (a b c : float32x4_t) : float32x4_t :=
  vaddq_f32 a (vmulq_f32 b c).
(** Add across the vector: pairwise, as FADDP does. *)
Definition vaddvq_f32 (v : float32x4_t) : F :=
  match v with V4 a b c d => fadd (fadd a b) (fadd c d) end.
(** [vst1q_f32]: the four lanes in memory order. *)
Definition vst1q_f32 (v : float32x4_t) : list F :=
  match v with V4 a b c d => [a; b; c; d] end.

(** *** The output buffer

    [cells] is the memory [float *dis] points into; [calls] records one
    entry [(first slot, number of slots)] per invocation of a kernel (or
    of the bounded copy of the handle path) on the buffer. *)

Record store := Store { cells : list F; calls : list (nat * nat) }.

Fixpoint poke_list (o : nat) (vals : list F) (c : list F) : list F :=
  match vals with
  | [] => c
  | v :: vs => poke_list (S o) vs (<[o := v]> c)
  end.

(** A kernel invoked with output pointer [dis] writes its results to
    [dis[0 .. length vals)].  The kernels take [x] and [y] as [const] and
    [__restrict], so the values can be computed before they are stored. *)
Definition run_kernel (dis : nat) (vals : list F) (st : store) : store :=
  {| cells := poke_list dis vals (cells st);
     calls := calls st ++ [(dis, length vals)] |}.

(** The database row pointers used by the dense kernels: [y + k * d]. *)
Definition rows (y : fptr) (d : nat) (w : nat) : list fptr :=
  map (fun k => ptr_add y (k * d)) (seq 0 w).

End Memory.

Arguments fptr F : clear implicits.
Arguments float32x4_t F : clear implicits.
Arguments store F : clear implicits.

Infix "+&" := ptr_add (at level 50, left associativity).

(** ** Fixed-width distance kernels *)

Section Kernels.
Context {F : Type} `{Scalar F}.

Local Abbreviation vec := (float32x4_t F).
Local Abbreviation ptr := (fptr F).

(** *** The two metrics

    The squared difference is [vsubq_f32] followed by [vmulq_f32] or
    [vmlaq_f32] of the difference with itself; the product is [vmulq_f32]
    or [vmlaq_f32] of the two operands.  [l2_first u v] is the code
    [q = vsubq_f32(u, v); r = vmulq_f32(q, q)] and [l2_next r u v] is
    [q = vsubq_f32(u, v); r = vmlaq_f32(r, q, q)]. *)

Definition l2_first (u v : vec) : vec :=
  let q := vsubq_f32 u v in vmulq_f32 q q.
Definition l2_next (r u v : vec) : vec :=
  let q := vsubq_f32 u v in vmlaq_f32 r q q.
Definition l2_sfirst (a b : F) : F := let q := fsub a b in fmul q q.
Definition l2_snext (acc a b : F) : F :=
  let q := fsub a b in fadd acc (fmul q q).

Definition ip_first (u v : vec) : vec := vmulq_f32 u v.
Definition ip_next (r u v : vec) : vec := vmlaq_f32 r u v.
Definition ip_sfirst (a b : F) : F := fmul a b.
Definition ip_snext (acc a b : F) : F := fadd acc (fmul a b).

(** The L2 and inner-product files repeat the same kernel bodies with one
    of the two sets of operations; [metric] selects the set. *)
Record metric := Metric {
  vfirst : vec -> vec -> vec;
  vnext : vec -> vec -> vec -> vec;
  sfirst : F -> F -> F;
  snext : F -> F -> F -> F
}.

Definition L2 : metric :=
  {| vfirst := l2_first; vnext := l2_next;
     sfirst := l2_sfirst; snext := l2_snext |}.
Definition IP : metric :=
  {| vfirst := ip_first; vnext := ip_next;
     sfirst := ip_sfirst; snext := ip_snext |}.

(** *** Single pair: the computation of [res] in [krl_L2sqr]
    (L2distance_simd.cpp, lines 39-117) *)

Definition L2sqr_res (x y : ptr) (d : nat) : F :=
  let '(i, res) :=
    if 16 <=? d then
      let d8_0 := l2_first (vld1q_f32 x) (vld1q_f32 y) in
      let d8_1 := l2_first (vld1q_f32 (x +& 4)) (vld1q_f32 (y +& 4)) in
      let d8_2 := l2_first (vld1q_f32 (x +& 8)) (vld1q_f32 (y +& 8)) in
      let d8_3 := l2_first (vld1q_f32 (x +& 12)) (vld1q_f32 (y +& 12)) in
      let '(i, acc) :=
        for_loop d (fun i => i <=? d - 16) 16
          (fun i '(d8_0, d8_1, d8_2, d8_3) =>
             (l2_next d8_0 (vld1q_f32 (x +& i)) (vld1q_f32 (y +& i)),
              l2_next d8_1 (vld1q_f32 (x +& (i + 4))) (vld1q_f32 (y +& (i + 4))),
              l2_next d8_2 (vld1q_f32 (x +& (i + 8))) (vld1q_f32 (y +& (i + 8))),
              l2_next d8_3 (vld1q_f32 (x +& (i + 12))) (vld1q_f32 (y +& (i + 12)))))
          16 (d8_0, d8_1, d8_2, d8_3) in
      let '(i, acc) :=
        for_loop d (fun i => i <=? d - 4) 4
          (fun i '(d8_0, d8_1, d8_2, d8_3) =>
             (l2_next d8_0 (vld1q_f32 (x +& i)) (vld1q_f32 (y +& i)),
              d8_1, d8_2, d8_3))
          i acc in
      let '(d8_0, d8_1, d8_2, d8_3) := acc in
      let d8_0 := vaddq_f32 d8_0 d8_1 in
      let d8_2 := vaddq_f32 d8_2 d8_3 in
      let d8_0 := vaddq_f32 d8_0 d8_2 in
      (i, vaddvq_f32 d8_0)
    else if 4 <=? d then
      let d8_0 := l2_first (vld1q_f32 x) (vld1q_f32 y) in
      let '(i, d8_0) :=
        for_loop d (fun i => i <=? d - 4) 4
          (fun i d8_0 => l2_next d8_0 (vld1q_f32 (x +& i)) (vld1q_f32 (y +& i)))
          4 d8_0 in
      (i, vaddvq_f32 d8_0)
    else (0, f0) in
  snd (for_loop d (fun i => i <? d) 1
         (fun i res => l2_snext res (ld x i) (ld y i)) i res).

(** The computation of [res] in [krl_ipdis] (IPdistance_simd.cpp, lines
    38-84). *)

Definition ipdis_res (x y : ptr) (d : nat) : F :=
  let '(i, res) :=
    if 16 <=? d then
      let d8_0 := ip_first (vld1q_f32 x) (vld1q_f32 y) in
      let d8_1 := ip_first (vld1q_f32 (x +& 4)) (vld1q_f32 (y +& 4)) in
      let d8_2 := ip_first (vld1q_f32 (x +& 8)) (vld1q_f32 (y +& 8)) in
      let d8_3 := ip_first (vld1q_f32 (x +& 12)) (vld1q_f32 (y +& 12)) in
      let '(i, acc) :=
        for_loop d (fun i => i <=? d - 16) 16
          (fun i '(d8_0, d8_1, d8_2, d8_3) =>
             (ip_next d8_0 (vld1q_f32 (x +& i)) (vld1q_f32 (y +& i)),
              ip_next d8_1 (vld1q_f32 (x +& (i + 4))) (vld1q_f32 (y +& (i + 4))),
              ip_next d8_2 (vld1q_f32 (x +& (i + 8))) (vld1q_f32 (y +& (i + 8))),
              ip_next d8_3 (vld1q_f32 (x +& (i + 12))) (vld1q_f32 (y +& (i + 12)))))
          16 (d8_0, d8_1, d8_2, d8_3) in
      let '(d8_0, d8_1, d8_2, d8_3) := acc in
      let d8_0 := vaddq_f32 d8_0 d8_1 in
      let d8_2 := vaddq_f32 d8_2 d8_3 in
      let d8_0 := vaddq_f32 d8_0 d8_2 in
      (i, vaddvq_f32 d8_0)
    else (0, f0) in
  snd (for_loop d (fun i => i <? d) 1
         (fun i res => ip_snext res (ld x i) (ld y i)) i res).

End Kernels.

Section BatchKernels.
Context {F : Type} `{Scalar F}.

Local Abbreviation vec := (float32x4_t F).
Local Abbreviation ptr := (fptr F).

(** *** Batches of two with two accumulators per vector

    [krl_L2sqr_batch2], [krl_inner_product_batch2] and
    [krl_inner_product_idx_batch2]: eight dimensions per round in two
    registers, then a scalar loop that adds onto [dis[0]] and [dis[1]]. *)

Definition batch2_kernel (mt : metric) (x y0 y1 : ptr) (d : nat) : list F :=
  let '(i, dis0, dis1) :=
    if 8 <=? d then
      let x_0 := vld1q_f32 x in
      let x_1 := vld1q_f32 (x +& 4) in
      let y0_0 := vld1q_f32 y0 in
      let y0_1 := vld1q_f32 (y0 +& 4) in
      let y1_0 := vld1q_f32 y1 in
      let y1_1 := vld1q_f32 (y1 +& 4) in
      let d0_0 := vfirst mt x_0 y0_0 in
      let d0_1 := vfirst mt x_1 y0_1 in
      let d1_0 := vfirst mt x_0 y1_0 in
      let d1_1 := vfirst mt x_1 y1_1 in
      let '(i, acc) :=
        for_loop d (fun i => i <=? d - 8) 8
          (fun i '(d0_0, d0_1, d1_0, d1_1) =>
             let x_0 := vld1q_f32 (x +& i) in
             let y0_0 := vld1q_f32 (y0 +& i) in
             let y1_0 := vld1q_f32 (y1 +& i) in
             let d0_0 := vnext mt d0_0 x_0 y0_0 in
             let d1_0 := vnext mt d1_0 x_0 y1_0 in
             let x_1 := vld1q_f32 (x +& (i + 4)) in
             let y0_1 := vld1q_f32 (y0 +& (i + 4)) in
             let y1_1 := vld1q_f32 (y1 +& (i + 4)) in
             let d0_1 := vnext mt d0_1 x_1 y0_1 in
             let d1_1 := vnext mt d1_1 x_1 y1_1 in
             (d0_0, d0_1, d1_0, d1_1))
          8 (d0_0, d0_1, d1_0, d1_1) in
      let '(d0_0, d0_1, d1_0, d1_1) := acc in
      let d0_0 := vaddq_f32 d0_0 d0_1 in
      let d1_0 := vaddq_f32 d1_0 d1_1 in
      (i, vaddvq_f32 d0_0, vaddvq_f32 d1_0)
    else (0, f0, f0) in
  let '(dis0, dis1) :=
    snd (for_loop d (fun i => i <? d) 1
           (fun i '(dis0, dis1) =>
              (snext mt dis0 (ld x i) (ld y0 i),
               snext mt dis1 (ld x i) (ld y1 i)))
           i (dis0, dis1)) in
  [dis0; dis1].

(** [krl_L2sqr_idx_batch2] (lines 131-221) has a third branch for
    [4 <= d < 8]; the loop of that branch reloads [x], [y0] and [y1]
    without adding [i], as the source does. *)

Definition krl_L2sqr_idx_batch2 (x y0 y1 : ptr) (d : nat) : list F :=
  let '(i, dis0, dis1) :=
    if 8 <=? d then
      let x_0 := vld1q_f32 x in
      let x_1 := vld1q_f32 (x +& 4) in
      let y0_0 := vld1q_f32 y0 in
      let y0_1 := vld1q_f32 (y0 +& 4) in
      let y1_0 := vld1q_f32 y1 in
      let y1_1 := vld1q_f32 (y1 +& 4) in
      let d0_0 := l2_first x_0 y0_0 in
      let d0_1 := l2_first x_1 y0_1 in
      let d1_0 := l2_first x_0 y1_0 in
      let d1_1 := l2_first x_1 y1_1 in
      let '(i, acc) :=
        for_loop d (fun i => i <=? d - 8) 8
          (fun i '(d0_0, d0_1, d1_0, d1_1) =>
             let x_0 := vld1q_f32 (x +& i) in
             let y0_0 := vld1q_f32 (y0 +& i) in
             let y1_0 := vld1q_f32 (y1 +& i) in
             let d0_0 := l2_next d0_0 x_0 y0_0 in
             let d1_0 := l2_next d1_0 x_0 y1_0 in
             let x_1 := vld1q_f32 (x +& (i + 4)) in
             let y0_1 := vld1q_f32 (y0 +& (i + 4)) in
             let y1_1 := vld1q_f32 (y1 +& (i + 4)) in
             let d0_1 := l2_next d0_1 x_1 y0_1 in
             let d1_1 := l2_next d1_1 x_1 y1_1 in
             (d0_0, d0_1, d1_0, d1_1))
          8 (d0_0, d0_1, d1_0, d1_1) in
      let '(i, acc) :=
        for_loop d (fun i => i <=? d - 4) 4
          (fun i '(d0_0, d0_1, d1_0, d1_1) =>
             let x_0 := vld1q_f32 (x +& i) in
             let y0_0 := vld1q_f32 (y0 +& i) in
             let y1_0 := vld1q_f32 (y1 +& i) in
             (l2_next d0_0 x_0 y0_0, d0_1, l2_next d1_0 x_0 y1_0, d1_1))
          i acc in
      let '(d0_0, d0_1, d1_0, d1_1) := acc in
      let d0_0 := vaddq_f32 d0_0 d0_1 in
      let d1_0 := vaddq_f32 d1_0 d1_1 in
      (i, vaddvq_f32 d0_0, vaddvq_f32 d1_0)
    else if 4 <=? d then
      let x8_0 := vld1q_f32 x in
      let y8_0 := vld1q_f32 y0 in
      let y8_1 := vld1q_f32 y1 in
      let d8_0 := l2_first x8_0 y8_0 in
      let d8_1 := l2_first x8_0 y8_1 in
      let '(i, acc) :=
        for_loop d (fun i => i <=? d - 4) 4
          (fun i '(d8_0, d8_1) =>
             let x8_0 := vld1q_f32 x in
             let y8_0 := vld1q_f32 y0 in
             let y8_1 := vld1q_f32 y1 in
             (l2_next d8_0 x8_0 y8_0, l2_next d8_1 x8_0 y8_1))
          4 (d8_0, d8_1) in
      let '(d8_0, d8_1) := acc in
      (i, vaddvq_f32 d8_0, vaddvq_f32 d8_1)
    else (0, f0, f0) in
  let '(dis0, dis1) :=
    snd (for_loop d (fun i => i <? d) 1
           (fun i '(dis0, dis1) =>
              (l2_snext dis0 (ld x i) (ld y0 i),
               l2_snext dis1 (ld x i) (ld y1 i)))
           i (dis0, dis1)) in
  [dis0; dis1].

(** *** Batches of [length y] vectors with one accumulator per vector

    The branch for [d >= 4]: the first four dimensions with [vmulq_f32],
    the following groups of four with [vmlaq_f32], then [vaddvq_f32] into
    [dis[k]]. *)

Definition simd4_block (mt : metric) (x : ptr) (y : list ptr) (d : nat)
    : nat * list F :=
  let neon_query := vld1q_f32 x in
  let neon_res := map (fun yk => vfirst mt (vld1q_f32 yk) neon_query) y in
  let '(i, neon_res) :=
    for_loop d (fun i => i <=? d - 4) 4
      (fun i neon_res =>
         let neon_query := vld1q_f32 (x +& i) in
         zip_with (fun r yk => vnext mt r (vld1q_f32 (yk +& i)) neon_query)
           neon_res y)
      4 neon_res in
  (i, map vaddvq_f32 neon_res).

(** [for (int i = 0; i < W; i++) dis[i] = 0.0f; i = 0;] *)
Definition zero_block (y : list ptr) : nat * list F :=
  (0, map (fun _ => f0) y).

(** [if (i < d) { d_k = ...; for (i++; i < d; ++i) d_k += ...;
    dis[k] += d_k; }] *)
Definition scalar_tail (mt : metric) (x : ptr) (y : list ptr) (d : nat)
    (i : nat) (dis : list F) : list F :=
  if i <? d then
    let ds := map (fun yk => sfirst mt (ld x i) (ld yk i)) y in
    let '(_, ds) :=
      for_loop d (fun i => i <? d) 1
        (fun i ds => zip_with (fun dk yk => snext mt dk (ld x i) (ld yk i)) ds y)
        (i + 1) ds in
    zip_with fadd dis ds
  else dis.

(** [krl_L2sqr_batch4/8/16/24], [krl_L2sqr_idx_batch4],
    [krl_inner_product_batch4/8/16] and [krl_inner_product_idx_batch4/8]. *)
Definition batch_kernel (mt : metric) (x : ptr) (y : list ptr) (d : nat)
    : list F :=
  let '(i, dis) :=
    if 4 <=? d then simd4_block mt x y d else zero_block y in
  scalar_tail mt x y d i dis.

(** [krl_L2sqr_idx_prefetch_batch8] and [krl_L2sqr_idx_prefetch_batch16]
    (lines 317-524 and 535-922): for [d >= 16] the accumulators start at
    zero and sixteen dimensions are consumed per outer round. *)
Definition L2sqr_idx_prefetch_kernel (x : ptr) (y : list ptr) (d : nat)
    : list F :=
  let '(i, dis) :=
    if 16 <=? d then
      let neon_res := map (fun _ => vdupq_n_f32 f0) y in
      let '(i, neon_res) :=
        for_loop d (fun i => i <? d - 16) 16
          (fun i neon_res =>
             snd (for_loop 16 (fun j => j <? 16) 4
                    (fun j neon_res =>
                       let neon_query := vld1q_f32 (x +& (i + j)) in
                       zip_with
                         (fun r yk =>
                            l2_next r (vld1q_f32 (yk +& (i + j))) neon_query)
                         neon_res y)
                    0 neon_res))
          0 neon_res in
      let '(i, neon_res) :=
        for_loop d (fun i => i <=? d - 4) 4
          (fun i neon_res =>
             let neon_query := vld1q_f32 (x +& i) in
             zip_with (fun r yk => l2_next r (vld1q_f32 (yk +& i)) neon_query)
               neon_res y)
          i neon_res in
      (i, map vaddvq_f32 neon_res)
    else if 4 <=? d then simd4_block L2 x y d
    else zero_block y in
  scalar_tail L2 x y d i dis.

(** [krl_L2sqr_idx_prefetch_batch24] (lines 933-1654): for [d >= 16] the
    first sixteen dimensions are peeled, then sixteen per outer round. *)
Definition krl_L2sqr_idx_prefetch_batch24 (x : ptr) (y : list ptr) (d : nat)
    : list F :=
  let '(i, dis) :=
    if 16 <=? d then
      let neon_res :=
        let neon_query := vld1q_f32 x in
        map (fun yk => l2_first (vld1q_f32 yk) neon_query) y in
      let '(i, neon_res) :=
        for_loop d (fun i => i <? 16) 4
          (fun i neon_res =>
             let neon_query := vld1q_f32 (x +& i) in
             zip_with (fun r yk => l2_next r (vld1q_f32 (yk +& i)) neon_query)
               neon_res y)
          4 neon_res in
      let '(i, neon_res) :=
        for_loop d (fun i => i <? d - 16) 16
          (fun i neon_res =>
             snd (for_loop 16 (fun j => j <? i + 16) 4
                    (fun j neon_res =>
                       let neon_query := vld1q_f32 (x +& j) in
                       zip_with
                         (fun r yk => l2_next r (vld1q_f32 (yk +& j)) neon_query)
                         neon_res y)
                    i neon_res))
          i neon_res in
      let '(i, neon_res) :=
        for_loop d (fun i => i <=? d - 4) 4
          (fun i neon_res =>
             let neon_query := vld1q_f32 (x +& i) in
             zip_with (fun r yk => l2_next r (vld1q_f32 (yk +& i)) neon_query)
               neon_res y)
          i neon_res in
      (i, map vaddvq_f32 neon_res)
    else if 4 <=? d then simd4_block L2 x y d
    else zero_block y in
  scalar_tail L2 x y d i dis.

(** [krl_inner_product_idx_prefetch_batch16] (IPdistance_simd.cpp, lines
    732-1096): the same peeling with rounds of thirty-two dimensions. *)
Definition krl_inner_product_idx_prefetch_batch16 (x : ptr) (y : list ptr)
    (d : nat) : list F :=
  let '(i, dis) :=
    if 32 <=? d then
      let neon_res :=
        let neon_query := vld1q_f32 x in
        map (fun yk => ip_first (vld1q_f32 yk) neon_query) y in
      let '(i, neon_res) :=
        for_loop d (fun i => i <? 32) 4
          (fun i neon_res =>
             let neon_query := vld1q_f32 (x +& i) in
             zip_with (fun r yk => ip_next r (vld1q_f32 (yk +& i)) neon_query)
               neon_res y)
          4 neon_res in
      let '(i, neon_res) :=
        for_loop d (fun i => i <? d - 32) 32
          (fun i neon_res =>
             snd (for_loop 32 (fun j => j <? 32) 4
                    (fun j neon_res =>
                       let neon_query := vld1q_f32 (x +& (i + j)) in
                       zip_with
                         (fun r yk =>
                            ip_next r (vld1q_f32 (yk +& (i + j))) neon_query)
                         neon_res y)
                    0 neon_res))
          i neon_res in
      let '(i, neon_res) :=
        for_loop d (fun i => i <=? d - 4) 4
          (fun i neon_res =>
             let neon_query := vld1q_f32 (x +& i) in
             zip_with (fun r yk => ip_next r (vld1q_f32 (yk +& i)) neon_query)
               neon_res y)
          i neon_res in
      (i, map vaddvq_f32 neon_res)
    else if 4 <=? d then simd4_block IP x y d
    else zero_block y in
  scalar_tail IP x y d i dis.

End BatchKernels.

Section TransposedKernels.
Context {F : Type} `{Scalar F}.

Local Abbreviation vec := (float32x4_t F).
Local Abbreviation ptr := (fptr F).

(** *** Kernels over the block-transposed layout

    A block of [B] vectors stores component [i] of its vectors at
    [y[B * i .. B * i + B)].  [B / 4] registers hold the [B] running
    results; register [g] is stored to [dis + 4 * g].

    [krl_L2sqr_continuous_transpose_large_kernel] and the three
    [krl_inner_product_continuous_transpose_*_kernel]s: the first component
    with [vmulq_f32], then a loop from [i = 1]. *)

Definition transpose_kernel (mt : metric) (B : nat) (x y : ptr) (d : nat)
    : list F :=
  let regs := seq 0 (B / 4) in
  let single_query := vdupq_n_f32 (ld x 0) in
  let neon_res :=
    map (fun g => vfirst mt (vld1q_f32 (y +& 4 * g)) single_query) regs in
  let '(_, neon_res) :=
    for_loop d (fun i => i <? d) 1
      (fun i neon_res =>
         let single_query := vdupq_n_f32 (ld x i) in
         zip_with
           (fun r g => vnext mt r (vld1q_f32 (y +& (B * i + 4 * g))) single_query)
           neon_res regs)
      1 neon_res in
  concat (map vst1q_f32 neon_res).

(** [krl_L2sqr_continuous_transpose_mini_kernel] (lines 2782-2843) and
    [krl_L2sqr_continuous_transpose_medium_kernel] (lines 2661-2771) are
    software-pipelined: component [i] is loaded while the difference of
    component [i - 1] is accumulated, with [d == 1] treated apart. *)

Definition L2sqr_transpose_pipelined_kernel (B : nat) (x y : ptr) (d : nat)
    : list F :=
  let regs := seq 0 (B / 4) in
  let single_query := vdupq_n_f32 (ld x 0) in
  let neon_base := map (fun g => vld1q_f32 (y +& 4 * g)) regs in
  let neon_diff := map (fun b => vsubq_f32 b single_query) neon_base in
  let neon_res :=
    if d =? 1 then map (fun df => vmulq_f32 df df) neon_diff
    else
      let single_query := vdupq_n_f32 (ld x 1) in
      let neon_base := map (fun g => vld1q_f32 (y +& (B + 4 * g))) regs in
      let neon_res := map (fun df => vmulq_f32 df df) neon_diff in
      let '(_, (single_query, neon_base, neon_res)) :=
        for_loop d (fun i => i <? d) 1
          (fun i '(single_query, neon_base, neon_res) =>
             let neon_diff := map (fun b => vsubq_f32 b single_query) neon_base in
             let single_query := vdupq_n_f32 (ld x i) in
             let neon_base :=
               map (fun g => vld1q_f32 (y +& (B * i + 4 * g))) regs in
             let neon_res :=
               zip_with (fun r df => vmlaq_f32 r df df) neon_res neon_diff in
             (single_query, neon_base, neon_res))
          2 (single_query, neon_base, neon_res) in
      let neon_diff := map (fun b => vsubq_f32 b single_query) neon_base in
      zip_with (fun r df => vmlaq_f32 r df df) neon_res neon_diff in
  concat (map vst1q_f32 neon_res).

(** *** The kernels by their names in the source *)

Definition krl_L2sqr_batch2 (x y : ptr) (d : nat) : list F :=
  batch2_kernel L2 x y (y +& d) d.
Definition krl_L2sqr_batch4 (x y : ptr) (d : nat) : list F :=
  batch_kernel L2 x (rows y d 4) d.
Definition krl_L2sqr_batch8 (x y : ptr) (d : nat) : list F :=
  batch_kernel L2 x (rows y d 8) d.
Definition krl_L2sqr_batch16 (x y : ptr) (d : nat) : list F :=
  batch_kernel L2 x (rows y d 16) d.
Definition krl_L2sqr_batch24 (x y : ptr) (d : nat) : list F :=
  batch_kernel L2 x (rows y d 24) d.

(** The [idx] kernels receive [listy], the array of row pointers. *)
Definition krl_L2sqr_idx_batch4 (x : ptr) (y : list ptr) (d : nat) : list F :=
  batch_kernel L2 x y d.
Definition krl_L2sqr_idx_prefetch_batch8 (x : ptr) (y : list ptr) (d : nat)
    : list F := L2sqr_idx_prefetch_kernel x y d.
Definition krl_L2sqr_idx_prefetch_batch16 (x : ptr) (y : list ptr) (d : nat)
    : list F := L2sqr_idx_prefetch_kernel x y d.

Definition krl_L2sqr_continuous_transpose_mini_kernel (x y : ptr) (d : nat)
    : list F := L2sqr_transpose_pipelined_kernel 16 x y d.
Definition krl_L2sqr_continuous_transpose_medium_kernel (x y : ptr) (d : nat)
    : list F := L2sqr_transpose_pipelined_kernel 32 x y d.
Definition krl_L2sqr_continuous_transpose_large_kernel (x y : ptr) (d : nat)
    : list F := transpose_kernel L2 64 x y d.

Definition krl_inner_product_batch2 (x y : ptr) (d : nat) : list F :=
  batch2_kernel IP x y (y +& d) d.
Definition krl_inner_product_batch4 (x y : ptr) (d : nat) : list F :=
  batch_kernel IP x (rows y d 4) d.
Definition krl_inner_product_batch8 (x y : ptr) (d : nat) : list F :=
  batch_kernel IP x (rows y d 8) d.
Definition krl_inner_product_batch16 (x y : ptr) (d : nat) : list F :=
  batch_kernel IP x (rows y d 16) d.

Definition krl_inner_product_idx_batch2 (x y0 y1 : ptr) (d : nat) : list F :=
  batch2_kernel IP x y0 y1 d.
Definition krl_inner_product_idx_batch4 (x : ptr) (y : list ptr) (d : nat)
    : list F := batch_kernel IP x y d.
Definition krl_inner_product_idx_batch8 (x : ptr) (y : list ptr) (d : nat)
    : list F := batch_kernel IP x y d.

Definition krl_inner_product_continuous_transpose_mini_kernel (x y : ptr)
    (d : nat) : list F := transpose_kernel IP 16 x y d.
Definition krl_inner_product_continuous_transpose_medium_kernel (x y : ptr)
    (d : nat) : list F := transpose_kernel IP 32 x y d.
Definition krl_inner_product_continuous_transpose_large_kernel (x y : ptr)
    (d : nat) : list F := transpose_kernel IP 64 x y d.

End TransposedKernels.

(** ** krl_internal.h: the distance handle *)

Module Handle.
Section Fields.
Context {F : Type}.

Record t := {
  metric_type : Z;
  quanted_scale : F;
  quanted_bias : F;
  data_bits : Z;
  full_data_bits : Z;
  M : Z;
  blocksize : Z;
  d : Z;
  ny : Z;
  ceil_ny : Z;
  quanted_bytes : Z;
  transposed_bytes : Z;
  quanted_codes : option (list Z);
  transposed_codes : option (fptr F)
}.

End Fields.
Arguments t F : clear implicits.
End Handle.

(** ** Entry points *)

Section EntryPoints.
Context {F : Type} `{Scalar F}.

Local Abbreviation ptr := (fptr F).
Local Abbreviation status := (Z * store F)%type.

(** *** Single pair *)

Definition krl_L2sqr (x y : option ptr) (d : Z) (dis : option nat)
    (dis_size : Z) (st : store F) : status :=
  if (d <? 1)%Z || (d >? 65535)%Z then (INVALPARAM, st)
  else
    match x, y, dis with
    | Some x, Some y, Some dis =>
        if (dis_size <? 1)%Z then (INVALPOINTER, st)
        else (SUCCESS, run_kernel dis [L2sqr_res x y (Z.to_nat d)] st)
    | _, _, _ => (INVALPOINTER, st)
    end.

Definition krl_ipdis (x y : option ptr) (d : Z) (dis : option nat)
    (dis_size : Z) (st : store F) : status :=
  if (d <? 1)%Z || (d >? 65535)%Z then (INVALPARAM, st)
  else
    match x, y, dis with
    | Some x, Some y, Some dis =>
        if (dis_size <? 1)%Z then (INVALPOINTER, st)
        else (SUCCESS, run_kernel dis [ipdis_res x y (Z.to_nat d)] st)
    | _, _, _ => (INVALPOINTER, st)
    end.

(** *** Dense batches *)

Definition krl_L2sqr_ny (dis : option nat) (x y : option ptr) (ny d : Z)
    (dis_size : Z) (st : store F) : status :=
  if (d <? 1)%Z || (d >? 65535)%Z || (ny <? 1)%Z || (ny >? 2 ^ 30)%Z
  then (INVALPARAM, st)
  else
    match x, y, dis with
    | Some x, Some y, Some dis =>
        if (dis_size <? ny)%Z then (INVALPOINTER, st)
        else
          let n := Z.to_nat ny in
          let dn := Z.to_nat d in
          let '(i, st) :=
            for_loop n (fun i => i + 24 <=? n) 24
              (fun i st =>
                 run_kernel (dis + i) (krl_L2sqr_batch24 x (y +& i * dn) dn) st)
              0 st in
          let '(i, st) :=
            if i + 16 <=? n then
              (i + 16,
               run_kernel (dis + i) (krl_L2sqr_batch16 x (y +& i * dn) dn) st)
            else if i + 8 <=? n then
              (i + 8,
               run_kernel (dis + i) (krl_L2sqr_batch8 x (y +& i * dn) dn) st)
            else (i, st) in
          let '(i, st) :=
            if negb (Z.land ny 4 =? 0)%Z then
              (i + 4,
               run_kernel (dis + i) (krl_L2sqr_batch4 x (y +& i * dn) dn) st)
            else (i, st) in
          let st :=
            if negb (Z.land ny 2 =? 0)%Z then
              run_kernel (dis + i) (krl_L2sqr_batch2 x (y +& i * dn) dn) st
            else st in
          let st :=
            if negb (Z.land ny 1 =? 0)%Z then
              let y0 := y +& (n - 1) * dn in
              snd (krl_L2sqr (Some x) (Some y0) d (Some (dis + (n - 1))) 1 st)
            else st in
          (SUCCESS, st)
    | _, _, _ => (INVALPOINTER, st)
    end.

Definition krl_inner_product_ny (dis : option nat) (x y : option ptr)
    (ny d : Z) (dis_size : Z) (st : store F) : status :=
  if (d <? 1)%Z || (d >? 65535)%Z || (ny <? 1)%Z || (ny >? 2 ^ 30)%Z
  then (INVALPARAM, st)
  else
    match x, y, dis with
    | Some x, Some y, Some dis =>
        if (dis_size <? ny)%Z then (INVALPOINTER, st)
        else
          let n := Z.to_nat ny in
          let dn := Z.to_nat d in
          let '(i, st) :=
            for_loop n (fun i => i + 16 <=? n) 16
              (fun i st =>
                 run_kernel (dis + i)
                   (krl_inner_product_batch16 x (y +& i * dn) dn) st)
              0 st in
          let '(i, st) :=
            if negb (Z.land ny 8 =? 0)%Z then
              (i + 8,
               run_kernel (dis + i)
                 (krl_inner_product_batch8 x (y +& i * dn) dn) st)
            else (i, st) in
          let '(i, st) :=
            if negb (Z.land ny 4 =? 0)%Z then
              (i + 4,
               run_kernel (dis + i)
                 (krl_inner_product_batch4 x (y +& i * dn) dn) st)
            else (i, st) in
          let st :=
            if negb (Z.land ny 2 =? 0)%Z then
              run_kernel (dis + i)
                (krl_inner_product_batch2 x (y +& i * dn) dn) st
            else st in
          let st :=
            if negb (Z.land ny 1 =? 0)%Z then
              snd (krl_ipdis (Some x) (Some (y +& (n - 1) * dn)) d
                     (Some (dis + (n - 1))) 1 st)
            else st in
          (SUCCESS, st)
    | _, _, _ => (INVALPOINTER, st)
    end.

(** *** Sparse batches

    [y + *(ids + i) * d]: the row pointer of entry [i] of the index array.
    The source does not check the index values; an entry that is negative
    or missing is outside the contract. *)

Definition row_ptr (y : ptr) (ids : list Z) (d : nat) (i : nat) : ptr :=
  y +& Z.to_nat (default 0%Z (ids !! i) * Z.of_nat d).

(** [listy[0 .. w)] as filled from [ids + i]. *)
Definition listy (y : ptr) (ids : list Z) (d : nat) (i w : nat) : list ptr :=
  map (fun k => row_ptr y ids d (i + k)) (seq 0 w).

Definition krl_L2sqr_by_idx (dis : option nat) (x y : option ptr)
    (ids : option (list Z)) (d ny : Z) (dis_size : Z) (st : store F)
    : status :=
  if (d <? 1)%Z || (d >? 65535)%Z || (ny <? 1)%Z || (ny >? 2 ^ 30)%Z
  then (INVALPARAM, st)
  else
    match x, y, ids, dis with
    | Some x, Some y, Some ids, Some dis =>
        if (dis_size <? ny)%Z then (INVALPOINTER, st)
        else
          let n := Z.to_nat ny in
          let dn := Z.to_nat d in
          let '(i, st) :=
            for_loop n (fun i => i + 24 <=? n) 24
              (fun i st =>
                 run_kernel (dis + i)
                   (krl_L2sqr_idx_prefetch_batch24 x (listy y ids dn i 24) dn)
                   st)
              0 st in
          let '(i, st) :=
            if i + 16 <=? n then
              (i + 16,
               run_kernel (dis + i)
                 (krl_L2sqr_idx_prefetch_batch16 x (listy y ids dn i 16) dn) st)
            else if i + 8 <=? n then
              (i + 8,
               run_kernel (dis + i)
                 (krl_L2sqr_idx_prefetch_batch8 x (listy y ids dn i 8) dn) st)
            else (i, st) in
          let '(i, st) :=
            if negb (Z.land ny 4 =? 0)%Z then
              (i + 4,
               run_kernel (dis + i)
                 (krl_L2sqr_idx_batch4 x (listy y ids dn i 4) dn) st)
            else (i, st) in
          let '(i, st) :=
            if negb (Z.land ny 2 =? 0)%Z then
              let y0 := row_ptr y ids dn i in
              let y1 := row_ptr y ids dn (i + 1) in
              (i + 2, run_kernel (dis + i) (krl_L2sqr_idx_batch2 x y0 y1 dn) st)
            else (i, st) in
          let st :=
            if negb (Z.land ny 1 =? 0)%Z then
              snd (krl_L2sqr (Some x) (Some (row_ptr y ids dn i)) d
                     (Some (dis + i)) 1 st)
            else st in
          (SUCCESS, st)
    | _, _, _, _ => (INVALPOINTER, st)
    end.

Definition krl_inner_product_by_idx (dis : option nat) (x y : option ptr)
    (ids : option (list Z)) (d ny : Z) (dis_size : Z) (st : store F)
    : status :=
  if (d <? 1)%Z || (d >? 65535)%Z || (ny <? 1)%Z || (ny >? 2 ^ 30)%Z
  then (INVALPARAM, st)
  else
    match x, y, ids, dis with
    | Some x, Some y, Some ids, Some dis =>
        if (dis_size <? ny)%Z then (INVALPOINTER, st)
        else
          let n := Z.to_nat ny in
          let dn := Z.to_nat d in
          let '(i, st) :=
            for_loop n (fun i => i + 16 <=? n) 16
              (fun i st =>
                 run_kernel (dis + i)
                   (krl_inner_product_idx_prefetch_batch16 x
                      (listy y ids dn i 16) dn) st)
              0 st in
          let '(i, st) :=
            if negb (Z.land ny 8 =? 0)%Z then
              (i + 8,
               run_kernel (dis + i)
                 (krl_inner_product_idx_batch8 x (listy y ids dn i 8) dn) st)
            else (i, st) in
          let '(i, st) :=
            if negb (Z.land ny 4 =? 0)%Z then
              (i + 4,
               run_kernel (dis + i)
                 (krl_inner_product_idx_batch4 x (listy y ids dn i 4) dn) st)
            else (i, st) in
          let '(i, st) :=
            if negb (Z.land ny 2 =? 0)%Z then
              let y0 := row_ptr y ids dn i in
              let y1 := row_ptr y ids dn (i + 1) in
              (i + 2,
               run_kernel (dis + i) (krl_inner_product_idx_batch2 x y0 y1 dn) st)
            else (i, st) in
          let st :=
            if negb (Z.land ny 1 =? 0)%Z then
              snd (krl_ipdis (Some x) (Some (row_ptr y ids dn i)) d
                     (Some (dis + i)) 1 st)
            else st in
          (SUCCESS, st)
    | _, _, _, _ => (INVALPOINTER, st)
    end.

End EntryPoints.

(** ** safe_memory.h *)

Section SafeMemory.
Context {F : Type} `{Scalar F}.

(** [SafeMemory::CheckAndMemcpy(dest, destBufferSize, src, srcBufferSize)]
    with the sizes in bytes; [memcpy] moves [srcBufferSize / sizeof(float)]
    cells. *)
Definition CheckAndMemcpy (dest : option nat) (destBufferSize : Z)
    (src : option (list F)) (srcBufferSize : Z) (st : store F)
    : Z * store F :=
  if (srcBufferSize >? destBufferSize)%Z then ((-1)%Z, st)
  else
    match dest, src with
    | Some dest, Some src =>
        (0%Z,
         run_kernel dest (take (Z.to_nat (srcBufferSize / sizeof_float)) src) st)
    | _, _ => ((-1)%Z, st)
    end.

End SafeMemory.

(** ** Transposed-block engine *)

Section HandleEntryPoints.
Context {F : Type} `{Scalar F}.

Local Abbreviation ptr := (fptr F).
Local Abbreviation status := (Z * store F)%type.

(** The cast of [kdh->transposed_codes] to a pointer to [float]; the source
    does not test the field, and a null field is read as an empty block. *)
Definition codes_ptr (kdh : Handle.t F) : ptr :=
  default (FPtr [] 0) (Handle.transposed_codes kdh).

(** The body of one [case] of the [switch] over [kdh->blocksize]:
    [B] is the case label and [kernel] the kernel of that size class.

    [remainder_rounds] is the loop over [m] of the branch [if (left)]; it
    runs [rounds] more queries starting with query [m]. *)

Fixpoint remainder_rounds (B : nat) (kernel : ptr -> ptr -> nat -> list F)
    (ny dim ceil_ny left dis_size : Z) (rounds : nat) (m : nat) (dis : nat)
    (x y : ptr) (st : store F) : status :=
  match rounds with
  | O => (SUCCESS, st)
  | S rounds' =>
      let n := Z.to_nat ny in
      let dn := Z.to_nat dim in
      let '(i, st) :=
        for_loop n (fun i => i + B <=? n) B
          (fun i st => run_kernel (dis + i) (kernel x (y +& i * dn) dn) st)
          0 st in
      let distance_tmp_buffer := kernel x (y +& i * dn) dn in
      let remaining_dis_size :=
        wrap64 (dis_size - wrap64 (Z.of_nat m * ny + Z.of_nat i)) in
      if (remaining_dis_size <? left)%Z then (UNSAFEMEM, st)
      else
        let '(ret, st) :=
          CheckAndMemcpy (Some (dis + i))
            (wrap64 (remaining_dis_size * sizeof_float))
            (Some distance_tmp_buffer) (left * sizeof_float) st in
        if negb (ret =? 0)%Z then (UNSAFEMEM, st)
        else
          remainder_rounds B kernel ny dim ceil_ny left dis_size rounds'
            (m + 1) (dis + n) (x +& dn) (y +& Z.to_nat ceil_ny * dn) st
  end.

(** The loop over [m] of the branch [else]: full blocks only. *)
Definition full_rounds (B : nat) (kernel : ptr -> ptr -> nat -> list F)
    (ny dim ceil_ny M : Z) (dis : nat) (x y : ptr) (st : store F)
    : store F :=
  let n := Z.to_nat ny in
  let dn := Z.to_nat dim in
  let '(_, (_, _, _, st)) :=
    for_loop (Z.to_nat M) (fun m => (Z.of_nat m <? M)%Z) 1
      (fun m '(dis, x, y, st) =>
         let '(_, st) :=
           for_loop n (fun i => i <? n) B
             (fun i st => run_kernel (dis + i) (kernel x (y +& i * dn) dn) st)
             0 st in
         (dis + n, x +& dn, y +& Z.to_nat ceil_ny * dn, st))
      0 (dis, x, y, st) in
  st.

Definition transposed_case (B : nat) (kernel : ptr -> ptr -> nat -> list F)
    (ny dim ceil_ny M left dis_size : Z) (dis : nat) (x y : ptr)
    (st : store F) : status :=
  if negb (left =? 0)%Z then
    remainder_rounds B kernel ny dim ceil_ny left dis_size (Z.to_nat M) 0
      dis x y st
  else (SUCCESS, full_rounds B kernel ny dim ceil_ny M dis x y st).

Definition krl_L2sqr_ny_with_handle (kdh : option (Handle.t F))
    (dis : option nat) (x : option ptr) (dis_size x_size : Z) (st : store F)
    : status :=
  match kdh, dis, x with
  | Some kdh, Some dis, Some x =>
      let ny := Handle.ny kdh in
      let dim := Handle.d kdh in
      let M := Handle.M kdh in
      if (dis_size <? wrap64 (M * ny))%Z || (x_size <? wrap64 (dim * M))%Z
      then (INVALPARAM, st)
      else if (Handle.data_bits kdh =? 32)%Z then
        let y := codes_ptr kdh in
        let ceil_ny := Handle.ceil_ny kdh in
        let left := Z.land ny (wrap64 (Handle.blocksize kdh - 1)) in
        if (Handle.blocksize kdh =? 16)%Z then
          transposed_case 16 krl_L2sqr_continuous_transpose_mini_kernel
            ny dim ceil_ny M left dis_size dis x y st
        else if (Handle.blocksize kdh =? 32)%Z then
          transposed_case 32 krl_L2sqr_continuous_transpose_medium_kernel
            ny dim ceil_ny M left dis_size dis x y st
        else if (Handle.blocksize kdh =? 64)%Z then
          transposed_case 64 krl_L2sqr_continuous_transpose_large_kernel
            ny dim ceil_ny M left dis_size dis x y st
        else (SUCCESS, st)
      else if (Handle.data_bits kdh =? 16)%Z then (INVALPARAM, st)
      else (INVALPARAM, st)
  | _, _, _ => (INVALPOINTER, st)
  end.

Definition krl_inner_product_ny_with_handle (kdh : option (Handle.t F))
    (dis : option nat) (x : option ptr) (dis_size x_size : Z) (st : store F)
    : status :=
  match kdh, dis, x with
  | Some kdh, Some dis, Some x =>
      let ny := Handle.ny kdh in
      let dim := Handle.d kdh in
      let M := Handle.M kdh in
      if (dis_size <? wrap64 (M * ny))%Z || (x_size <? wrap64 (dim * M))%Z
      then (INVALPARAM, st)
      else if (Handle.data_bits kdh =? 32)%Z then
        let ceil_ny := Handle.ceil_ny kdh in
        let y := codes_ptr kdh in
        let left := Z.land ny (wrap64 (Handle.blocksize kdh - 1)) in
        if (Handle.blocksize kdh =? 16)%Z then
          transposed_case 16 krl_inner_product_continuous_transpose_mini_kernel
            ny dim ceil_ny M left dis_size dis x y st
        else if (Handle.blocksize kdh =? 32)%Z then
          transposed_case 32 krl_inner_product_continuous_transpose_medium_kernel
            ny dim ceil_ny M left dis_size dis x y st
        else if (Handle.blocksize kdh =? 64)%Z then
          transposed_case 64 krl_inner_product_continuous_transpose_large_kernel
            ny dim ceil_ny M left dis_size dis x y st
        else (SUCCESS, st)
      else if (Handle.data_bits kdh =? 16)%Z then (INVALPARAM, st)
      else (INVALPARAM, st)
  | _, _, _ => (INVALPOINTER, st)
  end.

End HandleEntryPoints.

(** ** Reference values and bookkeeping used by the statements *)

Section Reference.
Context {F : Type} `{Scalar F}.

Local Abbreviation ptr := (fptr F).

(** The straightforward scalar loop [res = 0; for (i = 0; i < n; i++)
    res += t(i)]. *)
Fixpoint sum_terms (t : nat -> F) (n : nat) : F :=
  match n with
  | O => f0
  | S n' => fadd (sum_terms t n') (t n')
  end.

(** Sum of squared differences and sum of products of [x[0 .. d)] and
    [y[0 .. d)]. *)
Definition L2sqr_ref (x y : ptr) (d : nat) : F :=
  sum_terms (fun i => fmul (fsub (ld x i) (ld y i)) (fsub (ld x i) (ld y i))) d.
Definition ipdis_ref (x y : ptr) (d : nat) : F :=
  sum_terms (fun i => fmul (ld x i) (ld y i)) d.

(** The reference attached to a metric: the term of dimension [j] and the
    sum of the terms of dimensions [0 .. d). *)
Definition term (mt : metric) (x y : ptr) (j : nat) : F :=
  sfirst mt (ld x j) (ld y j).
Definition metric_ref (mt : metric) (x y : ptr) (d : nat) : F :=
  sum_terms (term mt x y) d.

(** The same for lane [v] of a block of [B] transposed vectors. *)
Definition transposed_term (mt : metric) (B : nat) (x y : ptr) (v j : nat)
    : F :=
  sfirst mt (ld x j) (ld y (B * j + v)).
Definition transposed_ref (mt : metric) (B : nat) (x y : ptr) (d v : nat)
    : F :=
  sum_terms (transposed_term mt B x y v) d.

(** Four consecutive terms, as one vector register accumulates them. *)
Definition chunk4 (t : nat -> F) (i : nat) : F :=
  fadd (fadd (t i) (t (i + 1))) (fadd (t (i + 2)) (t (i + 3))).

(** What the proofs use of a metric: the vector operations are the scalar
    term lane by lane, and the term is symmetric. *)
Record metric_ok (mt : metric) : Prop := {
  vfirst_ok : forall u v, vfirst mt u v = vlift2 (sfirst mt) u v;
  vnext_ok :
    forall r u v, vnext mt r u v = vaddq_f32 r (vlift2 (sfirst mt) u v);
  snext_ok : forall acc a b, snext mt acc a b = fadd acc (sfirst mt a b);
  sfirst_sym : forall a b, sfirst mt a b = sfirst mt b a
}.

(** Number of recorded invocations that own slot [j]. *)
Definition owns (c : nat * nat) (j : nat) : bool :=
  (fst c <=? j) && (j <? fst c + snd c).
Fixpoint write_count (log : list (nat * nat)) (j : nat) : nat :=
  match log with
  | [] => 0
  | c :: log' => (if owns c j then 1 else 0) + write_count log' j
  end.

(** Number of invocations recorded between two states of the buffer that
    own slot [j]. *)
Definition writes_since (st st' : store F) (j : nat) : nat :=
  write_count (calls st') j - write_count (calls st) j.

(** The recorded invocations tile [[a, b)]: each one starts where the
    previous one stopped. *)
Fixpoint tiles (log : list (nat * nat)) (a b : nat) : Prop :=
  match log with
  | [] => a = b
  | c :: log' => fst c = a /\ tiles log' (a + snd c) b
  end.

(** Modelled from the spec: [krl_matrix_block_transpose] is declared in
    [krl_internal.h] and its definition is not part of these sources.  The
    layout is the block-transposed one of the specification of the
    transposed-block engine: within the block of [B] vectors that holds
    vector [v], component [j] of the [B] vectors is contiguous, so that
    component [j] of vector [v] of query [m] sits at
    [m * ceil_ny * d + (v / B) * B * d + j * B + v mod B]; the vectors of
    query [m] are rows [m * ny .. m * ny + ny) of the untransposed set. *)
Definition transposed_index (B d ceil_ny : nat) (m v j : nat) : nat :=
  m * (ceil_ny * d) + (v / B) * B * d + j * B + v mod B.

Definition block_transposed (eqb : F -> F -> bool) (B d ny ceil_ny M : nat)
    (src codes : ptr) : bool :=
  forallb (fun m =>
    forallb (fun v =>
      forallb (fun j =>
        eqb (ld codes (transposed_index B d ceil_ny m v j))
            (ld src ((m * ny + v) * d + j)))
        (seq 0 d))
      (seq 0 ny))
    (seq 0 M).

(** The transposed block built from the rows, padded with zeros. *)
Definition block_transpose (B d ny ceil_ny M : nat) (src : ptr) : list F :=
  flat_map (fun m =>
    flat_map (fun b =>
      flat_map (fun j =>
        map (fun l =>
               if b * B + l <? ny then ld src ((m * ny + b * B + l) * d + j)
               else f0)
          (seq 0 B))
        (seq 0 d))
      (seq 0 (ceil_ny / B)))
    (seq 0 M).

(** *** Loop invariants used in the proofs *)

(** The accumulator [r] of the lane reading row [yk] holds, across its four
    slots, the sum of the first [i] terms. *)
Definition lane_sum (mt : metric) (x : ptr) (i : nat) (r : float32x4_t F)
    (yk : ptr) : Prop :=
  vaddvq_f32 r = sum_terms (term mt x yk) i.

(** The result [v] of the lane reading row [yk] is the sum of the first [i]
    terms. *)
Definition lane_val (mt : metric) (x : ptr) (i : nat) (v : F) (yk : ptr)
    : Prop :=
  v = sum_terms (term mt x yk) i.

(** The scalar accumulator [dk] extends the sum of the first [i] terms to
    the sum of the first [i'] terms. *)
Definition lane_tail (mt : metric) (x : ptr) (i i' : nat) (dk : F) (yk : ptr)
    : Prop :=
  fadd (sum_terms (term mt x yk) i) dk = sum_terms (term mt x yk) i'.

(** Register [g] of a transposed kernel after [i] dimensions: lanes
    [4 * g .. 4 * g + 3] of the block. *)
Definition reg_ref (mt : metric) (B : nat) (x y : ptr) (i g : nat)
    : float32x4_t F :=
  V4 (transposed_ref mt B x y i (4 * g))
     (transposed_ref mt B x y i (4 * g + 1))
     (transposed_ref mt B x y i (4 * g + 2))
     (transposed_ref mt B x y i (4 * g + 3)).

(** *** What the batch entry points leave in the buffer *)

(** The value of slot [k] of a dense and of a sparse batch. *)
Definition dense_row (ref : ptr -> ptr -> nat -> F) (x y : ptr) (d : nat)
    (k : nat) : F :=
  ref x (y +& k * d) d.
Definition sparse_row (ref : ptr -> ptr -> nat -> F) (x y : ptr)
    (ids : list Z) (d : nat) (k : nat) : F :=
  ref x (row_ptr y ids d k) d.

(** The value of slot [k] of a handle call over [M] queries: vector
    [k mod ny] of query [k / ny], which is row [k] of the untransposed
    set. *)
Definition handle_row (ref : ptr -> ptr -> nat -> F) (x src : ptr)
    (d ny : nat) (k : nat) : F :=
  ref (x +& (k / ny) * d) (src +& k * d) d.

(** The hypotheses shared by the two entry points: a 32-bit handle with a
    tail, whose block holds the rows of [src] in the transposed layout, and
    a declared capacity that covers the [M * ny] slots. *)
Definition handle_ready (eqb : F -> F -> bool) (kdh : Handle.t F)
    (src codes : ptr) (dis_size x_size : Z) : Prop :=
  Handle.data_bits kdh = 32%Z /\
  (Handle.blocksize kdh = 16%Z \/ Handle.blocksize kdh = 32%Z \/
   Handle.blocksize kdh = 64%Z) /\
  (1 <= Handle.d kdh)%Z /\ (0 <= Handle.ny kdh)%Z /\ (0 <= Handle.M kdh)%Z /\
  (Handle.ny kdh mod Handle.blocksize kdh <> 0)%Z /\
  (Handle.M kdh * Handle.ny kdh <= dis_size)%Z /\ (dis_size < 2 ^ 62)%Z /\
  (wrap64 (Handle.d kdh * Handle.M kdh) <= x_size)%Z /\
  Handle.transposed_codes kdh = Some codes /\
  block_transposed eqb (Z.to_nat (Handle.blocksize kdh))
    (Z.to_nat (Handle.d kdh)) (Z.to_nat (Handle.ny kdh))
    (Z.to_nat (Handle.ceil_ny kdh)) (Z.to_nat (Handle.M kdh)) src codes = true.

(** Starting from [st0], the slots [dis .. dis + i) hold the values
    [row 0 .. row (i - 1)], the other cells are those of [st0], and the
    invocations recorded since [st0] tile [dis .. dis + i). *)
Definition filled (row : nat -> F) (dis : nat) (st0 : store F) (i : nat)
    (st : store F) : Prop :=
  cells st = poke_list dis (map row (seq 0 i)) (cells st0) /\
  exists log, calls st = calls st0 ++ log /\ tiles log dis (dis + i).

(** *** What the statements say of a call

    [res] is a successful call that started in [st]: every slot of
    [dis .. dis + n) is owned by exactly one recorded invocation and holds
    its row, and nothing else changed. *)
Definition slots_written_once (row : nat -> F) (dis n : nat) (st : store F)
    (res : Z * store F) : Prop :=
  exists st',
    res = (SUCCESS, st') /\
    (forall j,
       writes_since st st' j = if (dis <=? j) && (j <? dis + n) then 1 else 0) /\
    (forall k, k < n -> cells st' !! (dis + k) = Some (row k)) /\
    (forall j, j < dis \/ dis + n <= j -> cells st' !! j = cells st !! j).

(** [res] is a call that failed with [code] and left the buffer as it
    was. *)
Definition rejected (code : Z) (st : store F) (res : Z * store F) : Prop :=
  res = (code, st).

(** The three size classes of each metric: the [case] labels of the
    [switch] with the kernels called under them. *)
Definition transposed_kernels : list (nat * (ptr -> ptr -> nat -> list F)) :=
  [ (16, krl_L2sqr_continuous_transpose_mini_kernel);
    (32, krl_L2sqr_continuous_transpose_medium_kernel);
    (64, krl_L2sqr_continuous_transpose_large_kernel);
    (16, krl_inner_product_continuous_transpose_mini_kernel);
    (32, krl_inner_product_continuous_transpose_medium_kernel);
    (64, krl_inner_product_continuous_transpose_large_kernel) ].

End Reference.

(** ** Concrete calls

    Blocks, buffers and handles over integer scalars, and the binary32
    value of an integer, for the examples. *)

Definition floats (l : list Z) : fptr Z := FPtr l 0.

Definition fresh_buffer (n : nat) : store Z := Store (replicate n 0%Z) [].

Definition handle_of (bits B d ny M : Z) (codes : list Z) : Handle.t Z :=
  {| Handle.metric_type := 0;
     Handle.quanted_scale := 0%Z;
     Handle.quanted_bias := 0%Z;
     Handle.data_bits := bits;
     Handle.full_data_bits := 32;
     Handle.M := M;
     Handle.blocksize := B;
     Handle.d := d;
     Handle.ny := ny;
     Handle.ceil_ny := B * ((ny + B - 1) / B);
     Handle.quanted_bytes := 0;
     Handle.transposed_bytes := sizeof_float * Z.of_nat (length codes);
     Handle.quanted_codes := None;
     Handle.transposed_codes := Some (floats codes) |}.

Definition floats32 (l : list Z) : fptr float32 := FPtr (map f32_of_Z l) 0.

(** ** safe_memory.h: the second helper

    [SafeMemory::CheckAndMemset(dest, destBufferSize, memsetValue, setSize)]:
    the sizes are in bytes and [memset] stores [setSize] times the value
    converted to [unsigned char].  The memory is a list of bytes and [dest]
    an offset into it. *)
Definition CheckAndMemset (dest : option nat) (destBufferSize : Z)
    (memsetValue : Z) (setSize : Z) (mem : list Z) : Z * list Z :=
  if (setSize >? destBufferSize)%Z then ((-1)%Z, mem)
  else
    match dest with
    | Some dest =>
        (0%Z,
         poke_list dest (replicate (Z.to_nat setSize) (memsetValue mod 256)%Z)
           mem)
    | None => ((-1)%Z, mem)
    end.

(** ** More bookkeeping for the statements *)

Section MoreReference.
Context {F : Type} `{Scalar F}.

Local Abbreviation ptr := (fptr F).

(** A 32-bit handle of block size 16, 32 or 64, with or without a tail,
    whose block holds the rows of [src] in the transposed layout, and a
    declared capacity that covers the [M * ny] slots. *)
Definition handle_fits (eqb : F -> F -> bool) (kdh : Handle.t F)
    (src codes : ptr) (dis_size x_size : Z) : Prop :=
  Handle.data_bits kdh = 32%Z /\
  (Handle.blocksize kdh = 16%Z \/ Handle.blocksize kdh = 32%Z \/
   Handle.blocksize kdh = 64%Z) /\
  (1 <= Handle.d kdh)%Z /\ (0 <= Handle.ny kdh)%Z /\ (0 <= Handle.M kdh)%Z /\
  (Handle.M kdh * Handle.ny kdh <= dis_size)%Z /\ (dis_size < 2 ^ 62)%Z /\
  (wrap64 (Handle.d kdh * Handle.M kdh) <= x_size)%Z /\
  Handle.transposed_codes kdh = Some codes /\
  block_transposed eqb (Z.to_nat (Handle.blocksize kdh))
    (Z.to_nat (Handle.d kdh)) (Z.to_nat (Handle.ny kdh))
    (Z.to_nat (Handle.ceil_ny kdh)) (Z.to_nat (Handle.M kdh)) src codes = true.

(** The status codes of the two families of entry points. *)
Definition batch_codes : list Z := [SUCCESS; INVALPARAM; INVALPOINTER].
Definition handle_codes : list Z :=
  [SUCCESS; INVALPARAM; INVALPOINTER; UNSAFEMEM].

End MoreReference.
(** * Part II: lemmas on the embedding *)

(** ** Loops *)

Lemma for_loop_rule {St : Type} (Inv : nat -> St -> Prop) cond step
    (body : nat -> St -> St) :
  (forall i s, Inv i s -> cond i = true -> Inv (i + step) (body i s)) ->
  forall fuel i s, Inv i s ->
    Inv (fst (for_loop fuel cond step body i s))
        (snd (for_loop fuel cond step body i s)).
Proof.
  intros Hstep fuel; induction fuel as [|fuel IH]; intros i s Hi; simpl.
  - exact Hi.
  - destruct (cond i) eqn:Hc; simpl.
    + apply IH. apply Hstep; assumption.
    + exact Hi.
Qed.

(** The loop stops because its condition fails, not because the fuel runs
    out, as soon as the fuel covers the distance to a bound of the
    condition. *)
Lemma for_loop_exit {St : Type} cond step (body : nat -> St -> St) bound :
  (forall j, cond j = true -> j < bound) -> 0 < step ->
  forall fuel i s, bound - i <= fuel ->
    cond (fst (for_loop fuel cond step body i s)) = false.
Proof.
  intros Hb Hs fuel; induction fuel as [|fuel IH]; intros i s Hf; simpl.
  - destruct (cond i) eqn:Hc; [apply Hb in Hc; lia | reflexivity].
  - destruct (cond i) eqn:Hc; simpl.
    + apply IH. apply Hb in Hc. lia.
    + exact Hc.
Qed.

Lemma for_loop_spec {St : Type} (Inv : nat -> St -> Prop) cond step
    (body : nat -> St -> St) bound fuel i s :
  (forall i s, Inv i s -> cond i = true -> Inv (i + step) (body i s)) ->
  (forall j, cond j = true -> j < bound) -> 0 < step -> bound - i <= fuel ->
  Inv i s ->
  exists i' s', for_loop fuel cond step body i s = (i', s') /\
                Inv i' s' /\ cond i' = false.
Proof.
  intros Hstep Hb Hs Hf Hi.
  pose proof (for_loop_rule Inv cond step body Hstep fuel i s Hi) as HI.
  pose proof (for_loop_exit cond step body bound Hb Hs fuel i s Hf) as HE.
  destruct (for_loop fuel cond step body i s) as [i' s']; eauto.
Qed.

(** ** Lists of lanes *)

Lemma Forall2_map_left {A B C} (P : C -> B -> Prop) (f : A -> C) l k :
  Forall2 (fun a b => P (f a) b) l k -> Forall2 P (map f l) k.
Proof. induction 1; simpl; constructor; auto. Qed.

Lemma Forall2_map_self {A C} (P : C -> A -> Prop) (f : A -> C) l :
  (forall a, P (f a) a) -> Forall2 P (map f l) l.
Proof. intros Hf; induction l; simpl; constructor; auto. Qed.

Lemma Forall2_zip_with_left {A B} (P Q : A -> B -> Prop) (g : A -> B -> A)
    (l : list A) (k : list B) :
  (forall a b, P a b -> Q (g a b) b) ->
  Forall2 P l k -> Forall2 Q (zip_with g l k) k.
Proof. intros Hg; induction 1; simpl; constructor; auto. Qed.

Lemma Forall2_zip_with_both {A B} (P Q R : A -> B -> Prop)
    (g : A -> A -> A) (l l' : list A) (k : list B) :
  (forall a a' b, P a b -> Q a' b -> R (g a a') b) ->
  Forall2 P l k -> Forall2 Q l' k -> Forall2 R (zip_with g l l') k.
Proof.
  intros Hg HP; revert l'.
  induction HP as [|a b l k Hab HP IH]; intros m HQ; inversion HQ; subst;
    simpl; constructor; eauto.
Qed.

Lemma Forall2_eq_map {A B} (f : B -> A) l k :
  Forall2 (fun a b => a = f b) l k -> l = map f k.
Proof. induction 1; simpl; congruence. Qed.

Lemma Forall2_weaken {A B} (P Q : A -> B -> Prop) l k :
  (forall a b, P a b -> Q a b) -> Forall2 P l k -> Forall2 Q l k.
Proof. intros HPQ; induction 1; constructor; auto. Qed.

Lemma map_seq_shift {A} (f : nat -> A) i w :
  map f (seq i w) = map (fun k => f (i + k)) (seq 0 w).
Proof.
  revert f i; induction w as [|w IH]; intros f i; simpl; [reflexivity|].
  rewrite Nat.add_0_r. f_equal.
  rewrite (IH f (S i)), (IH (fun k => f (i + k)) 1).
  apply map_ext; intros k. f_equal; lia.
Qed.

(** The two facts in the form used after [destruct ... eqn]. *)
Lemma for_loop_inv {St : Type} (Inv : nat -> St -> Prop) cond step
    (body : nat -> St -> St) fuel i s i' s' :
  for_loop fuel cond step body i s = (i', s') ->
  Inv i s ->
  (forall j t, Inv j t -> cond j = true -> Inv (j + step) (body j t)) ->
  Inv i' s'.
Proof.
  intros E Hi Hstep.
  pose proof (for_loop_rule Inv cond step body Hstep fuel i s Hi) as HI.
  by rewrite E in HI.
Qed.

Lemma for_loop_stops {St : Type} cond step (body : nat -> St -> St) bound
    fuel i s i' s' :
  for_loop fuel cond step body i s = (i', s') ->
  (forall j, cond j = true -> j < bound) -> 0 < step -> bound - i <= fuel ->
  cond i' = false.
Proof.
  intros E Hb Hs Hf.
  pose proof (for_loop_exit cond step body bound Hb Hs fuel i s Hf) as HE.
  by rewrite E in HE.
Qed.

(** ** Pointers and the output buffer *)

Section MemoryFacts.
Context {F : Type} `{Scalar F}.

Lemma ld_ptr_add (p : fptr F) i j : ld (p +& i) j = ld p (i + j).
Proof. unfold ld, ptr_add; simpl. by rewrite Nat.add_assoc. Qed.

Lemma ptr_add_add (p : fptr F) a b : p +& a +& b = p +& (a + b).
Proof. unfold ptr_add; simpl. by rewrite Nat.add_assoc. Qed.

Lemma length_poke_list o (vals c : list F) :
  length (poke_list o vals c) = length c.
Proof.
  revert o c; induction vals as [|v vs IH]; intros o c; simpl; [done|].
  by rewrite IH, length_insert.
Qed.

Lemma poke_list_app o (a b c : list F) :
  poke_list o (a ++ b) c = poke_list (o + length a) b (poke_list o a c).
Proof.
  revert o c; induction a as [|v a IH]; intros o c; simpl.
  - by rewrite Nat.add_0_r.
  - rewrite IH. f_equal. lia.
Qed.

Lemma lookup_poke_list_out o (vals c : list F) j :
  j < o \/ o + length vals <= j -> poke_list o vals c !! j = c !! j.
Proof.
  revert o c; induction vals as [|v vs IH]; intros o c Hj; simpl; [done|].
  simpl in Hj. rewrite IH by lia. apply list_lookup_insert_ne. lia.
Qed.

Lemma lookup_poke_list_in o (vals c : list F) k :
  o + length vals <= length c -> k < length vals ->
  poke_list o vals c !! (o + k) = vals !! k.
Proof.
  revert o c k; induction vals as [|v vs IH]; intros o c k Hc Hk; simpl in *.
  - lia.
  - destruct k as [|k]; simpl.
    + rewrite Nat.add_0_r, lookup_poke_list_out by lia.
      apply list_lookup_insert_eq. lia.
    + replace (o + S k) with (S o + k) by lia.
      apply IH; [rewrite length_insert|]; lia.
Qed.

Lemma owns_spec (c : nat * nat) j :
  owns c j = true <-> fst c <= j < fst c + snd c.
Proof.
  unfold owns. rewrite andb_true_iff, Nat.leb_le, Nat.ltb_lt. tauto.
Qed.

Lemma write_count_app l l' j :
  write_count (l ++ l') j = write_count l j + write_count l' j.
Proof. induction l as [|c l IH]; simpl; [done|]. rewrite IH. lia. Qed.

Lemma writes_since_run_kernel (st st' : store F) dis vals j :
  write_count (calls st) j <= write_count (calls st') j ->
  writes_since st (run_kernel dis vals st') j =
    writes_since st st' j + (if owns (dis, length vals) j then 1 else 0).
Proof.
  unfold writes_since, run_kernel; simpl. rewrite write_count_app; simpl. lia.
Qed.

Lemma tiles_le log a b : tiles log a b -> a <= b.
Proof.
  revert a; induction log as [|c log IH]; simpl; intros a.
  - lia.
  - intros [_ Ht]. apply IH in Ht. lia.
Qed.

Lemma tiles_app log log' a b c :
  tiles log a b -> tiles log' b c -> tiles (log ++ log') a c.
Proof.
  revert a; induction log as [|e log IH]; simpl; intros a.
  - by intros ->.
  - intros [He Ht] Ht'. split; [done|]. by apply IH.
Qed.

Lemma tiles_snoc log a b w : tiles log a b -> tiles (log ++ [(b, w)]) a (b + w).
Proof. intros Ht. apply (tiles_app _ _ _ b); [done|]. simpl. auto. Qed.

(** A tiling owns every slot of its range once and no other slot. *)
Lemma tiles_write_count log a b j :
  tiles log a b ->
  write_count log j = if (a <=? j) && (j <? b) then 1 else 0.
Proof.
  revert a; induction log as [|c log IH]; simpl; intros a.
  - intros ->. destruct (b <=? j) eqn:E1, (j <? b) eqn:E2; simpl; try done.
    apply Nat.leb_le in E1. apply Nat.ltb_lt in E2. lia.
  - intros [He Ht]. pose proof (tiles_le _ _ _ Ht) as Hle.
    rewrite (IH _ Ht). unfold owns. rewrite He.
    destruct (a <=? j) eqn:E1, (j <? a + snd c) eqn:E2,
             (a + snd c <=? j) eqn:E3, (j <? b) eqn:E4; simpl; try done;
      repeat match goal with
             | E : (_ <=? _) = true |- _ => apply Nat.leb_le in E
             | E : (_ <=? _) = false |- _ => apply Nat.leb_gt in E
             | E : (_ <? _) = true |- _ => apply Nat.ltb_lt in E
             | E : (_ <? _) = false |- _ => apply Nat.ltb_ge in E
             end; lia.
Qed.

End MemoryFacts.

(** ** The kernels compute the reference sums

    From here on the scalar operations are those of a commutative ring:
    sums may be regrouped, which is what separates the vectorised
    accumulation from the scalar loop. *)

Section Exact.
Context {F : Type} `{Scalar F} (f1 : F) (fopp : F -> F).
Hypothesis Rth : ring_theory f0 f1 fadd fmul fsub fopp eq.

Add Ring Fring : Rth.

Local Abbreviation vec := (float32x4_t F).
Local Abbreviation ptr := (fptr F).

Lemma L2_ok : metric_ok L2.
Proof.
  split; simpl.
  - intros [a b c d] [a' b' c' d']; reflexivity.
  - intros [r0 r1 r2 r3] [a b c d] [a' b' c' d']; reflexivity.
  - reflexivity.
  - intros a b. unfold l2_sfirst. ring.
Qed.

Lemma IP_ok : metric_ok IP.
Proof.
  split; simpl.
  - intros [a b c d] [a' b' c' d']; reflexivity.
  - intros [r0 r1 r2 r3] [a b c d] [a' b' c' d']; reflexivity.
  - reflexivity.
  - intros a b. unfold ip_sfirst. ring.
Qed.

Lemma L2_ref_eq (x y : ptr) d : metric_ref L2 x y d = L2sqr_ref x y d.
Proof. reflexivity. Qed.

Lemma IP_ref_eq (x y : ptr) d : metric_ref IP x y d = ipdis_ref x y d.
Proof. reflexivity. Qed.

Lemma sum_terms_ext (t t' : nat -> F) n :
  (forall j, j < n -> t j = t' j) -> sum_terms t n = sum_terms t' n.
Proof.
  induction n as [|n IH]; intros Ht; simpl; [done|].
  rewrite IH, Ht by (intros; auto with lia). done.
Qed.

Lemma sum_terms_add4 (t : nat -> F) i :
  sum_terms t (i + 4) = fadd (sum_terms t i) (chunk4 t i).
Proof.
  replace (i + 4) with (S (S (S (S i)))) by lia. unfold chunk4. simpl.
  replace (i + 1) with (S i) by lia. replace (i + 2) with (S (S i)) by lia.
  replace (i + 3) with (S (S (S i))) by lia. ring.
Qed.

Lemma sum_terms_4 (t : nat -> F) : sum_terms t 4 = chunk4 t 0.
Proof. unfold chunk4. simpl. ring. Qed.

Lemma term_sym mt (x y : ptr) j : metric_ok mt -> term mt x y j = term mt y x j.
Proof. intros Hok. apply (sfirst_sym mt Hok). Qed.

Lemma chunk4_ext (t t' : nat -> F) i :
  (forall j, t j = t' j) -> chunk4 t i = chunk4 t' i.
Proof. intros Ht. unfold chunk4. by rewrite !Ht. Qed.

(** One register step: [vaddvq_f32] of the updated accumulator. *)
Lemma hsum_vnext mt (p q : ptr) r i :
  metric_ok mt ->
  vaddvq_f32 (vnext mt r (vld1q_f32 (p +& i)) (vld1q_f32 (q +& i))) =
    fadd (vaddvq_f32 r) (chunk4 (term mt p q) i).
Proof.
  intros Hok. rewrite (vnext_ok mt Hok). destruct r as [r0 r1 r2 r3].
  unfold vld1q_f32, chunk4, term. rewrite !ld_ptr_add, Nat.add_0_r. simpl.
  ring.
Qed.

Lemma hsum_vfirst mt (p q : ptr) i :
  metric_ok mt ->
  vaddvq_f32 (vfirst mt (vld1q_f32 (p +& i)) (vld1q_f32 (q +& i))) =
    chunk4 (term mt p q) i.
Proof.
  intros Hok. rewrite (vfirst_ok mt Hok).
  unfold vld1q_f32, chunk4, term. rewrite !ld_ptr_add, Nat.add_0_r. simpl.
  reflexivity.
Qed.

Lemma hsum_vfirst0 mt (p q : ptr) :
  metric_ok mt ->
  vaddvq_f32 (vfirst mt (vld1q_f32 p) (vld1q_f32 q)) = chunk4 (term mt p q) 0.
Proof. intros Hok. rewrite (vfirst_ok mt Hok). reflexivity. Qed.

Lemma hsum_vaddq (u v : vec) :
  vaddvq_f32 (vaddq_f32 u v) = fadd (vaddvq_f32 u) (vaddvq_f32 v).
Proof. destruct u, v; simpl. ring. Qed.

Lemma hsum_zero : vaddvq_f32 (vdupq_n_f32 (f0 : F)) = f0.
Proof. simpl. ring. Qed.

Lemma lane_sum_next mt (x : ptr) i r yk :
  metric_ok mt -> lane_sum mt x i r yk ->
  lane_sum mt x (i + 4)
    (vnext mt r (vld1q_f32 (yk +& i)) (vld1q_f32 (x +& i))) yk.
Proof.
  unfold lane_sum. intros Hok Hr.
  rewrite hsum_vnext, Hr, sum_terms_add4 by done. f_equal.
  apply chunk4_ext. intros j. by apply term_sym.
Qed.

Lemma lane_sum_first mt (x : ptr) yk :
  metric_ok mt ->
  lane_sum mt x 4 (vfirst mt (vld1q_f32 yk) (vld1q_f32 x)) yk.
Proof.
  unfold lane_sum. intros Hok. rewrite hsum_vfirst0, sum_terms_4 by done.
  apply chunk4_ext. intros j. by apply term_sym.
Qed.

(** The vector part of the kernels with one accumulator per row. *)
Lemma simd4_block_ok mt (x : ptr) (y : list ptr) d :
  metric_ok mt -> 4 <= d ->
  fst (simd4_block mt x y d) <= d /\
  Forall2 (lane_val mt x (fst (simd4_block mt x y d)))
    (snd (simd4_block mt x y d)) y.
Proof.
  intros Hok Hd. unfold simd4_block.
  destruct (for_loop _ _ _ _ _ _) as [i res] eqn:EL.
  apply for_loop_inv
    with (Inv := fun j t => j <= d /\ Forall2 (lane_sum mt x j) t y) in EL.
  - destruct EL as [Hi Hres]. simpl. split; [done|].
    apply Forall2_map_left. exact Hres.
  - split; [done|]. apply Forall2_map_self. intros yk.
    by apply lane_sum_first.
  - intros j t [Hj Ht] Hc. apply Nat.leb_le in Hc. split; [lia|].
    eapply Forall2_zip_with_left; [|exact Ht].
    intros r yk Hr. by apply lane_sum_next.
Qed.

Lemma zero_block_ok mt (x : ptr) (y : list ptr) :
  Forall2 (lane_val mt x 0) (snd (zero_block y)) y.
Proof. simpl. apply Forall2_map_self. intros yk. reflexivity. Qed.

(** The scalar part completes the sums. *)
Lemma scalar_tail_ok mt (x : ptr) (y : list ptr) d i dis :
  metric_ok mt -> i <= d -> Forall2 (lane_val mt x i) dis y ->
  scalar_tail mt x y d i dis = map (fun yk => metric_ref mt x yk d) y.
Proof.
  intros Hok Hi Hdis. unfold scalar_tail.
  destruct (i <? d) eqn:Hlt.
  - apply Nat.ltb_lt in Hlt.
    destruct (for_loop _ _ _ _ _ _) as [i' ds] eqn:EL.
    pose proof (for_loop_stops _ _ _ d _ _ _ _ _ EL) as Hstop.
    apply for_loop_inv
      with (Inv := fun j t => i < j <= d /\ Forall2 (lane_tail mt x i j) t y)
      in EL.
    + destruct EL as [Hi' Hds].
      assert (i' = d) as ->.
      { enough ((i' <? d) = false) as E%Nat.ltb_ge by lia.
        apply Hstop; [intros j Hj%Nat.ltb_lt; lia | lia | lia]. }
      apply Forall2_eq_map.
      eapply Forall2_zip_with_both; [|exact Hdis|exact Hds].
      intros a a' yk Ha Ha'. unfold lane_val, lane_tail, metric_ref in *.
      by rewrite <- Ha', Ha.
    + split; [lia|]. apply Forall2_map_self. intros yk.
      unfold lane_tail. replace (i + 1) with (S i) by lia. reflexivity.
    + intros j t [Hj Ht] Hc. apply Nat.ltb_lt in Hc. split; [lia|].
      eapply Forall2_zip_with_left; [|exact Ht].
      intros dk yk Hdk. unfold lane_tail in *.
      rewrite (snext_ok mt Hok). replace (j + 1) with (S j) by lia. simpl.
      rewrite <- Hdk. unfold term. ring.
  - apply Nat.ltb_ge in Hlt. assert (i = d) as -> by lia.
    apply Forall2_eq_map. exact Hdis.
Qed.

Theorem batch_kernel_ok mt (x : ptr) (y : list ptr) d :
  metric_ok mt ->
  batch_kernel mt x y d = map (fun yk => metric_ref mt x yk d) y.
Proof.
  intros Hok. unfold batch_kernel.
  destruct (4 <=? d) eqn:Hd.
  - apply Nat.leb_le in Hd.
    destruct (simd4_block_ok mt x y d Hok Hd) as [Hi Hv].
    destruct (simd4_block mt x y d) as [i dis]. by apply scalar_tail_ok.
  - pose proof (zero_block_ok mt x y) as Hv.
    destruct (zero_block y) as [i dis] eqn:E. injection E as <- <-.
    apply scalar_tail_ok; [done|lia|done].
Qed.

(** *** Loops over groups of four dimensions *)

Lemma lanes_next mt (x : ptr) (y : list ptr) j t :
  metric_ok mt -> Forall2 (lane_sum mt x j) t y ->
  Forall2 (lane_sum mt x (j + 4))
    (zip_with
       (fun r yk => vnext mt r (vld1q_f32 (yk +& j)) (vld1q_f32 (x +& j))) t y)
    y.
Proof.
  intros Hok Ht. eapply Forall2_zip_with_left; [|exact Ht].
  intros r yk Hr. by apply lane_sum_next.
Qed.

(** [for (j = a; j < a + 4 * n; j += 4)] with the loads at [o + j]. *)
Lemma lanes_loop mt (x : ptr) (y : list ptr) o a n fuel t j' t' :
  metric_ok mt ->
  for_loop fuel (fun j => j <? a + 4 * n) 4
    (fun j t =>
       let neon_query := vld1q_f32 (x +& (o + j)) in
       zip_with (fun r yk => vnext mt r (vld1q_f32 (yk +& (o + j))) neon_query)
         t y)
    a t = (j', t') ->
  4 * n <= fuel ->
  Forall2 (lane_sum mt x (o + a)) t y ->
  j' = a + 4 * n /\ Forall2 (lane_sum mt x (o + a + 4 * n)) t' y.
Proof.
  intros Hok EL Hfuel Ht.
  pose proof (for_loop_stops _ _ _ (a + 4 * n) _ _ _ _ _ EL) as Hstop.
  apply for_loop_inv
    with (Inv := fun j t =>
                   (exists k, j = a + 4 * k /\ k <= n) /\
                   Forall2 (lane_sum mt x (o + j)) t y) in EL.
  - destruct EL as [(k & -> & Hk) Ht'].
    assert ((a + 4 * k <? a + 4 * n) = false) as E%Nat.ltb_ge
      by (apply Hstop; [intros j Hj%Nat.ltb_lt; lia | lia | lia]).
    assert (k = n) as -> by lia. split; [done|].
    by rewrite <- Nat.add_assoc.
  - split; [exists 0; lia|]. done.
  - intros j s [(k & -> & Hk) Hs] Hc%Nat.ltb_lt. split.
    + exists (k + 1). lia.
    + replace (o + (a + 4 * k + 4)) with (o + (a + 4 * k) + 4) by lia.
      by apply lanes_next.
Qed.

(** [for (; i <= d - 4; i += 4)]. *)
Lemma lanes_single_loop mt (x : ptr) (y : list ptr) d fuel i t i' t' :
  metric_ok mt -> 4 <= d ->
  for_loop fuel (fun i => i <=? d - 4) 4
    (fun i t =>
       let neon_query := vld1q_f32 (x +& i) in
       zip_with (fun r yk => vnext mt r (vld1q_f32 (yk +& i)) neon_query) t y)
    i t = (i', t') ->
  i <= d -> Forall2 (lane_sum mt x i) t y ->
  i' <= d /\ Forall2 (lane_sum mt x i') t' y.
Proof.
  intros Hok Hd EL Hi Ht.
  apply for_loop_inv
    with (Inv := fun j t => j <= d /\ Forall2 (lane_sum mt x j) t y) in EL.
  - done.
  - done.
  - intros j s [Hj Hs] Hc%Nat.leb_le. split; [lia|]. by apply lanes_next.
Qed.

(** *** The gathering kernels with prefetch *)

Theorem L2sqr_idx_prefetch_kernel_ok (x : ptr) (y : list ptr) d :
  L2sqr_idx_prefetch_kernel x y d = map (fun yk => L2sqr_ref x yk d) y.
Proof.
  pose proof L2_ok as Hok. unfold L2sqr_idx_prefetch_kernel.
  destruct (16 <=? d) eqn:Hd16.
  - apply Nat.leb_le in Hd16.
    destruct (for_loop d _ 16 _ 0 _) as [i t] eqn:E1.
    destruct (for_loop d _ 4 _ i t) as [i2 t2] eqn:E2.
    apply for_loop_inv
      with (Inv := fun j t => j <= d /\ Forall2 (lane_sum L2 x j) t y) in E1.
    + destruct E1 as [Hi Ht].
      apply (lanes_single_loop L2) in E2; [|done|lia|done|done].
      destruct E2 as [Hi2 Ht2].
      apply (scalar_tail_ok L2); [done|done|].
      apply Forall2_map_left. exact Ht2.
    + split; [lia|]. apply Forall2_map_self. intros yk.
      unfold lane_sum. apply hsum_zero.
    + intros j s [Hj Hs] Hc%Nat.ltb_lt.
      destruct (for_loop 16 _ 4 _ 0 s) as [j' s'] eqn:E3.
      apply (lanes_loop L2 x y j 0 4) in E3; [|done|lia|].
      * destruct E3 as [_ Hs']. simpl. split; [lia|].
        replace (j + 16) with (j + 0 + 4 * 4) by lia. exact Hs'.
      * by rewrite Nat.add_0_r.
  - destruct (4 <=? d) eqn:Hd4.
    + apply Nat.leb_le in Hd4.
      destruct (simd4_block_ok L2 x y d Hok Hd4) as [Hi Hv].
      destruct (simd4_block L2 x y d) as [i dis]. by apply scalar_tail_ok.
    + pose proof (zero_block_ok L2 x y) as Hv.
      destruct (zero_block y) as [i dis] eqn:E. injection E as <- <-.
      apply scalar_tail_ok; [done|lia|done].
Qed.

Theorem krl_L2sqr_idx_prefetch_batch24_ok (x : ptr) (y : list ptr) d :
  krl_L2sqr_idx_prefetch_batch24 x y d = map (fun yk => L2sqr_ref x yk d) y.
Proof.
  pose proof L2_ok as Hok. unfold krl_L2sqr_idx_prefetch_batch24.
  destruct (16 <=? d) eqn:Hd16.
  - apply Nat.leb_le in Hd16.
    destruct (for_loop d _ 4 _ 4 _) as [i0 t0] eqn:E0.
    destruct (for_loop d _ 16 _ i0 t0) as [i t] eqn:E1.
    destruct (for_loop d _ 4 _ i t) as [i2 t2] eqn:E2.
    apply (lanes_loop L2 x y 0 4 3) in E0; [|done|lia|].
    + destruct E0 as [-> Ht0].
      apply for_loop_inv
        with (Inv := fun j t => j <= d /\ Forall2 (lane_sum L2 x j) t y) in E1.
      * destruct E1 as [Hi Ht].
        apply (lanes_single_loop L2) in E2; [|done|lia|done|done].
        destruct E2 as [Hi2 Ht2].
        apply (scalar_tail_ok L2); [done|done|].
        apply Forall2_map_left. exact Ht2.
      * split; [simpl; lia|]. exact Ht0.
      * intros j s [Hj Hs] Hc%Nat.ltb_lt.
        destruct (for_loop 16 _ 4 _ j s) as [j' s'] eqn:E3.
        apply (lanes_loop L2 x y 0 j 4) in E3; [|done|lia|done].
        destruct E3 as [_ Hs']. simpl. split; [lia|].
        replace (j + 16) with (0 + j + 4 * 4) by lia. exact Hs'.
    + apply Forall2_map_self. intros yk. exact (lane_sum_first L2 x yk Hok).
  - destruct (4 <=? d) eqn:Hd4.
    + apply Nat.leb_le in Hd4.
      destruct (simd4_block_ok L2 x y d Hok Hd4) as [Hi Hv].
      destruct (simd4_block L2 x y d) as [i dis]. by apply scalar_tail_ok.
    + pose proof (zero_block_ok L2 x y) as Hv.
      destruct (zero_block y) as [i dis] eqn:E. injection E as <- <-.
      apply scalar_tail_ok; [done|lia|done].
Qed.

Theorem krl_inner_product_idx_prefetch_batch16_ok (x : ptr) (y : list ptr) d :
  krl_inner_product_idx_prefetch_batch16 x y d =
    map (fun yk => ipdis_ref x yk d) y.
Proof.
  pose proof IP_ok as Hok. unfold krl_inner_product_idx_prefetch_batch16.
  destruct (32 <=? d) eqn:Hd32.
  - apply Nat.leb_le in Hd32.
    destruct (for_loop d _ 4 _ 4 _) as [i0 t0] eqn:E0.
    destruct (for_loop d _ 32 _ i0 t0) as [i t] eqn:E1.
    destruct (for_loop d _ 4 _ i t) as [i2 t2] eqn:E2.
    apply (lanes_loop IP x y 0 4 7) in E0; [|done|lia|].
    + destruct E0 as [-> Ht0].
      apply for_loop_inv
        with (Inv := fun j t => j <= d /\ Forall2 (lane_sum IP x j) t y) in E1.
      * destruct E1 as [Hi Ht].
        apply (lanes_single_loop IP) in E2; [|done|lia|done|done].
        destruct E2 as [Hi2 Ht2].
        apply (scalar_tail_ok IP); [done|done|].
        apply Forall2_map_left. exact Ht2.
      * split; [simpl; lia|]. exact Ht0.
      * intros j s [Hj Hs] Hc%Nat.ltb_lt.
        destruct (for_loop 32 _ 4 _ 0 s) as [j' s'] eqn:E3.
        apply (lanes_loop IP x y j 0 8) in E3; [|done|lia|].
        -- destruct E3 as [_ Hs']. simpl. split; [lia|].
           replace (j + 32) with (j + 0 + 4 * 8) by lia. exact Hs'.
        -- by rewrite Nat.add_0_r.
    + apply Forall2_map_self. intros yk. exact (lane_sum_first IP x yk Hok).
  - destruct (4 <=? d) eqn:Hd4.
    + apply Nat.leb_le in Hd4.
      destruct (simd4_block_ok IP x y d Hok Hd4) as [Hi Hv].
      destruct (simd4_block IP x y d) as [i dis]. by apply scalar_tail_ok.
    + pose proof (zero_block_ok IP x y) as Hv.
      destruct (zero_block y) as [i dis] eqn:E. injection E as <- <-.
      apply scalar_tail_ok; [done|lia|done].
Qed.

End Exact.

(** *** Kernels with several accumulators per vector *)

Section ExactPairs.
Context {F : Type} `{Scalar F} (f1 : F) (fopp : F -> F).
Hypothesis Rth : ring_theory f0 f1 fadd fmul fsub fopp eq.

Add Ring Fring2 : Rth.

Local Abbreviation vec := (float32x4_t F).
Local Abbreviation ptr := (fptr F).

Lemma sum_terms_add8 (t : nat -> F) i :
  sum_terms t (i + 8) =
    fadd (sum_terms t i) (fadd (chunk4 t i) (chunk4 t (i + 4))).
Proof.
  replace (i + 8) with (i + 4 + 4) by lia.
  rewrite !(sum_terms_add4 f1 fopp Rth). ring.
Qed.

Lemma sum_terms_add16 (t : nat -> F) i :
  sum_terms t (i + 16) =
    fadd (sum_terms t i)
      (fadd (fadd (chunk4 t i) (chunk4 t (i + 4)))
            (fadd (chunk4 t (i + 8)) (chunk4 t (i + 12)))).
Proof.
  replace (i + 16) with (i + 4 + 4 + 4 + 4) by lia.
  rewrite !(sum_terms_add4 f1 fopp Rth).
  replace (i + 4 + 4) with (i + 8) by lia.
  replace (i + 8 + 4) with (i + 12) by lia. ring.
Qed.

(** [for (; i < d; i++) res += term(i)]. *)
Lemma scalar_loop_ok mt (x y : ptr) d i r :
  metric_ok mt -> i <= d -> r = sum_terms (term mt x y) i ->
  snd (for_loop d (fun i => i <? d) 1
         (fun i res => snext mt res (ld x i) (ld y i)) i r) =
    metric_ref mt x y d.
Proof.
  intros Hok Hi Hr.
  destruct (for_loop _ _ _ _ _ _) as [i' r'] eqn:EL.
  pose proof (for_loop_stops _ _ _ d _ _ _ _ _ EL) as Hstop.
  apply for_loop_inv
    with (Inv := fun j t => j <= d /\ t = sum_terms (term mt x y) j) in EL.
  - destruct EL as [Hi' ->]. simpl.
    assert ((i' <? d) = false) as E%Nat.ltb_ge
      by (apply Hstop; [intros j Hj%Nat.ltb_lt; lia | lia | lia]).
    by assert (i' = d) as -> by lia.
  - done.
  - intros j t [Hj ->] Hc%Nat.ltb_lt. split; [lia|].
    rewrite (snext_ok mt Hok). replace (j + 1) with (S j) by lia. done.
Qed.

Lemma scalar_loop2_ok mt (x y0 y1 : ptr) d i r0 r1 :
  metric_ok mt -> i <= d ->
  r0 = sum_terms (term mt x y0) i -> r1 = sum_terms (term mt x y1) i ->
  snd (for_loop d (fun i => i <? d) 1
         (fun i '(dis0, dis1) =>
            (snext mt dis0 (ld x i) (ld y0 i),
             snext mt dis1 (ld x i) (ld y1 i)))
         i (r0, r1)) =
    (metric_ref mt x y0 d, metric_ref mt x y1 d).
Proof.
  intros Hok Hi Hr0 Hr1.
  destruct (for_loop _ _ _ _ _ _) as [i' r'] eqn:EL.
  pose proof (for_loop_stops _ _ _ d _ _ _ _ _ EL) as Hstop.
  apply for_loop_inv
    with (Inv := fun j t =>
                   j <= d /\
                   t = (sum_terms (term mt x y0) j,
                        sum_terms (term mt x y1) j)) in EL.
  - destruct EL as [Hi' ->]. simpl.
    assert ((i' <? d) = false) as E%Nat.ltb_ge
      by (apply Hstop; [intros j Hj%Nat.ltb_lt; lia | lia | lia]).
    by assert (i' = d) as -> by lia.
  - split; [done|]. by rewrite Hr0, Hr1.
  - intros j t [Hj ->] Hc%Nat.ltb_lt. split; [lia|].
    rewrite !(snext_ok mt Hok). replace (j + 1) with (S j) by lia. done.
Qed.

Theorem L2sqr_res_ok (x y : ptr) d : L2sqr_res x y d = L2sqr_ref x y d.
Proof.
  pose proof (L2_ok f1 fopp Rth) as Hok. unfold L2sqr_res.
  set (t := term L2 x y).
  assert (Hn : forall r i,
             vaddvq_f32 (l2_next r (vld1q_f32 (x +& i)) (vld1q_f32 (y +& i)))
             = fadd (vaddvq_f32 r) (chunk4 t i))
    by (intros; exact (hsum_vnext f1 fopp Rth L2 x y _ _ Hok)).
  assert (Hf0 : vaddvq_f32 (l2_first (vld1q_f32 x) (vld1q_f32 y)) = chunk4 t 0)
    by exact (hsum_vfirst0 L2 x y Hok).
  assert (Hf : forall i,
             vaddvq_f32 (l2_first (vld1q_f32 (x +& i)) (vld1q_f32 (y +& i)))
             = chunk4 t i)
    by (intros; exact (hsum_vfirst L2 x y _ Hok)).
  destruct (16 <=? d) eqn:Hd16; [|destruct (4 <=? d) eqn:Hd4].
  - apply Nat.leb_le in Hd16.
    destruct (for_loop d _ 16 _ 16 _) as [i acc] eqn:E1.
    destruct (for_loop d _ 4 _ i acc) as [i2 acc2] eqn:E2.
    apply for_loop_inv
      with (Inv := fun j s =>
                     j <= d /\
                     let '(a, b, c, e) := s in
                     fadd (fadd (vaddvq_f32 a) (vaddvq_f32 b))
                          (fadd (vaddvq_f32 c) (vaddvq_f32 e))
                     = sum_terms t j) in E1.
    + destruct E1 as [Hi Hacc].
      apply for_loop_inv
        with (Inv := fun j s =>
                       j <= d /\
                       let '(a, b, c, e) := s in
                       fadd (fadd (vaddvq_f32 a) (vaddvq_f32 b))
                            (fadd (vaddvq_f32 c) (vaddvq_f32 e))
                       = sum_terms t j) in E2.
      * destruct E2 as [Hi2 Hacc2]. destruct acc2 as [[[a b] c] e].
        apply (scalar_loop_ok L2); [done|done|].
        rewrite !(hsum_vaddq f1 fopp Rth). exact Hacc2.
      * done.
      * intros j [[[a b] c] e] [Hj Hs] Hc%Nat.leb_le. split; [lia|].
        rewrite Hn. rewrite (sum_terms_add4 f1 fopp Rth), <- Hs. ring.
    + split; [done|].
      rewrite Hf0, !Hf.
      change 16 with (0 + 16). rewrite sum_terms_add16. simpl. ring.
    + intros j [[[a b] c] e] [Hj Hs] Hc%Nat.leb_le. split; [lia|].
      rewrite !Hn. rewrite sum_terms_add16, <- Hs. ring.
  - apply Nat.leb_le in Hd4.
    destruct (for_loop d _ 4 _ 4 _) as [i acc] eqn:E1.
    apply for_loop_inv
      with (Inv := fun j s => j <= d /\ vaddvq_f32 s = sum_terms t j) in E1.
    + destruct E1 as [Hi Hacc]. by apply (scalar_loop_ok L2).
    + split; [done|].
      by rewrite Hf0, (sum_terms_4 f1 fopp Rth).
    + intros j s [Hj Hs] Hc%Nat.leb_le. split; [lia|].
      rewrite Hn. by rewrite (sum_terms_add4 f1 fopp Rth), Hs.
  - apply (scalar_loop_ok L2); [done|lia|done].
Qed.

Theorem ipdis_res_ok (x y : ptr) d : ipdis_res x y d = ipdis_ref x y d.
Proof.
  pose proof (IP_ok f1 fopp Rth) as Hok. unfold ipdis_res.
  set (t := term IP x y).
  assert (Hn : forall r i,
             vaddvq_f32 (ip_next r (vld1q_f32 (x +& i)) (vld1q_f32 (y +& i)))
             = fadd (vaddvq_f32 r) (chunk4 t i))
    by (intros; exact (hsum_vnext f1 fopp Rth IP x y _ _ Hok)).
  assert (Hf0 : vaddvq_f32 (ip_first (vld1q_f32 x) (vld1q_f32 y)) = chunk4 t 0)
    by exact (hsum_vfirst0 IP x y Hok).
  assert (Hf : forall i,
             vaddvq_f32 (ip_first (vld1q_f32 (x +& i)) (vld1q_f32 (y +& i)))
             = chunk4 t i)
    by (intros; exact (hsum_vfirst IP x y _ Hok)).
  destruct (16 <=? d) eqn:Hd16.
  - apply Nat.leb_le in Hd16.
    destruct (for_loop d _ 16 _ 16 _) as [i acc] eqn:E1.
    apply for_loop_inv
      with (Inv := fun j s =>
                     j <= d /\
                     let '(a, b, c, e) := s in
                     fadd (fadd (vaddvq_f32 a) (vaddvq_f32 b))
                          (fadd (vaddvq_f32 c) (vaddvq_f32 e))
                     = sum_terms t j) in E1.
    + destruct E1 as [Hi Hacc]. destruct acc as [[[a b] c] e].
      apply (scalar_loop_ok IP); [done|done|].
      rewrite !(hsum_vaddq f1 fopp Rth). exact Hacc.
    + split; [done|].
      rewrite Hf0, !Hf.
      change 16 with (0 + 16). rewrite sum_terms_add16. simpl. ring.
    + intros j [[[a b] c] e] [Hj Hs] Hc%Nat.leb_le. split; [lia|].
      rewrite !Hn. rewrite sum_terms_add16, <- Hs. ring.
  - apply (scalar_loop_ok IP); [done|lia|done].
Qed.

Theorem batch2_kernel_ok mt (x y0 y1 : ptr) d :
  metric_ok mt ->
  batch2_kernel mt x y0 y1 d = [metric_ref mt x y0 d; metric_ref mt x y1 d].
Proof.
  intros Hok. unfold batch2_kernel.
  assert (Hn : forall r (y : ptr) i,
             vaddvq_f32 (vnext mt r (vld1q_f32 (x +& i)) (vld1q_f32 (y +& i)))
             = fadd (vaddvq_f32 r) (chunk4 (term mt x y) i))
    by (intros; exact (hsum_vnext f1 fopp Rth mt x _ _ _ Hok)).
  assert (Hf0 : forall y : ptr,
             vaddvq_f32 (vfirst mt (vld1q_f32 x) (vld1q_f32 y))
             = chunk4 (term mt x y) 0)
    by (intros; exact (hsum_vfirst0 mt x _ Hok)).
  assert (Hf : forall (y : ptr) i,
             vaddvq_f32 (vfirst mt (vld1q_f32 (x +& i)) (vld1q_f32 (y +& i)))
             = chunk4 (term mt x y) i)
    by (intros; exact (hsum_vfirst mt x _ _ Hok)).
  destruct (8 <=? d) eqn:Hd8.
  - apply Nat.leb_le in Hd8.
    destruct (for_loop d _ 8 _ 8 _) as [i acc] eqn:E1.
    apply for_loop_inv
      with (Inv := fun j s =>
                     j <= d /\
                     let '(a, b, c, e) := s in
                     fadd (vaddvq_f32 a) (vaddvq_f32 b) = sum_terms (term mt x y0) j /\
                     fadd (vaddvq_f32 c) (vaddvq_f32 e) = sum_terms (term mt x y1) j)
      in E1.
    + destruct E1 as [Hi Hacc]. destruct acc as [[[a b] c] e].
      destruct Hacc as [Ha Hc].
      rewrite (scalar_loop2_ok mt x y0 y1 d i); [done|done|done| |].
      * by rewrite (hsum_vaddq f1 fopp Rth).
      * by rewrite (hsum_vaddq f1 fopp Rth).
    + split; [done|]. rewrite !Hf0, !Hf.
      change 8 with (0 + 8). rewrite !sum_terms_add8. simpl.
      split; ring.
    + intros j [[[a b] c] e] [Hj [Ha Hc]] Hcond%Nat.leb_le. split; [lia|].
      rewrite !Hn. rewrite !sum_terms_add8, <- Ha, <- Hc. split; ring.
  - rewrite (scalar_loop2_ok mt x y0 y1 d 0); [done|done|lia|done|done].
Qed.

Theorem krl_L2sqr_idx_batch2_ok (x y0 y1 : ptr) d :
  krl_L2sqr_idx_batch2 x y0 y1 d = [L2sqr_ref x y0 d; L2sqr_ref x y1 d].
Proof.
  pose proof (L2_ok f1 fopp Rth) as Hok. unfold krl_L2sqr_idx_batch2.
  assert (Hn : forall r (y : ptr) i,
             vaddvq_f32 (l2_next r (vld1q_f32 (x +& i)) (vld1q_f32 (y +& i)))
             = fadd (vaddvq_f32 r) (chunk4 (term L2 x y) i))
    by (intros; exact (hsum_vnext f1 fopp Rth L2 x _ _ _ Hok)).
  assert (Hf0 : forall y : ptr,
             vaddvq_f32 (l2_first (vld1q_f32 x) (vld1q_f32 y))
             = chunk4 (term L2 x y) 0)
    by (intros; exact (hsum_vfirst0 L2 x _ Hok)).
  assert (Hf : forall (y : ptr) i,
             vaddvq_f32 (l2_first (vld1q_f32 (x +& i)) (vld1q_f32 (y +& i)))
             = chunk4 (term L2 x y) i)
    by (intros; exact (hsum_vfirst L2 x _ _ Hok)).
  pose proof (scalar_loop2_ok L2 x y0 y1 d) as Hs2.
  change (snext L2) with (@l2_snext F _) in Hs2.
  destruct (8 <=? d) eqn:Hd8; [|destruct (4 <=? d) eqn:Hd4].
  - apply Nat.leb_le in Hd8.
    destruct (for_loop d _ 8 _ 8 _) as [i acc] eqn:E1.
    destruct (for_loop d _ 4 _ i acc) as [i2 acc2] eqn:E2.
    apply for_loop_inv
      with (Inv := fun j s =>
                     j <= d /\
                     let '(a, b, c, e) := s in
                     fadd (vaddvq_f32 a) (vaddvq_f32 b) = sum_terms (term L2 x y0) j /\
                     fadd (vaddvq_f32 c) (vaddvq_f32 e) = sum_terms (term L2 x y1) j)
      in E1.
    + destruct E1 as [Hi Hacc].
      apply for_loop_inv
        with (Inv := fun j s =>
                       j <= d /\
                       let '(a, b, c, e) := s in
                       fadd (vaddvq_f32 a) (vaddvq_f32 b) = sum_terms (term L2 x y0) j /\
                       fadd (vaddvq_f32 c) (vaddvq_f32 e) = sum_terms (term L2 x y1) j)
        in E2.
      * destruct E2 as [Hi2 Hacc2]. destruct acc2 as [[[a b] c] e].
        destruct Hacc2 as [Ha Hc].
        rewrite (Hs2 i2); [done|done|done| |].
        -- by rewrite (hsum_vaddq f1 fopp Rth).
        -- by rewrite (hsum_vaddq f1 fopp Rth).
      * done.
      * intros j [[[a b] c] e] [Hj [Ha Hc]] Hcond%Nat.leb_le. split; [lia|].
        rewrite !Hn. rewrite !(sum_terms_add4 f1 fopp Rth), <- Ha, <- Hc.
        split; ring.
    + split; [done|]. rewrite !Hf0, !Hf.
      change 8 with (0 + 8). rewrite !sum_terms_add8. simpl.
      split; ring.
    + intros j [[[a b] c] e] [Hj [Ha Hc]] Hcond%Nat.leb_le. split; [lia|].
      rewrite !Hn. rewrite !sum_terms_add8, <- Ha, <- Hc. split; ring.
  - apply Nat.leb_le in Hd4. apply Nat.leb_gt in Hd8.
    destruct (for_loop d _ 4 _ 4 _) as [i acc] eqn:E1.
    apply for_loop_inv
      with (Inv := fun j s =>
                     j = 4 /\
                     s = (l2_first (vld1q_f32 x) (vld1q_f32 y0),
                          l2_first (vld1q_f32 x) (vld1q_f32 y1))) in E1.
    + destruct E1 as [-> ->].
      rewrite (Hs2 4); [done|done|done| |].
      * by rewrite Hf0, (sum_terms_4 f1 fopp Rth).
      * by rewrite Hf0, (sum_terms_4 f1 fopp Rth).
    + done.
    + intros j s [-> ->] Hcond%Nat.leb_le. lia.
  - rewrite (Hs2 0); [done|done|lia|done|done].
Qed.

End ExactPairs.

(** *** Kernels over the block-transposed layout *)

Section ExactTransposed.
Context {F : Type} `{Scalar F} (f1 : F) (fopp : F -> F).
Hypothesis Rth : ring_theory f0 f1 fadd fmul fsub fopp eq.

Add Ring Fring3 : Rth.

Local Abbreviation vec := (float32x4_t F).
Local Abbreviation ptr := (fptr F).

Lemma zip_with_map_map {A B C D} (f : B -> C -> D) (g : A -> B) (h : A -> C)
    (l : list A) :
  zip_with f (map g l) (map h l) = map (fun a => f (g a) (h a)) l.
Proof. induction l as [|a l IH]; simpl; [done|]. by rewrite IH. Qed.

Lemma zip_with_map_self {A B C} (f : B -> A -> C) (g : A -> B) (l : list A) :
  zip_with f (map g l) l = map (fun a => f (g a) a) l.
Proof. induction l as [|a l IH]; simpl; [done|]. by rewrite IH. Qed.

Lemma tref_first mt B (x y : ptr) v :
  metric_ok mt ->
  transposed_ref mt B x y 1 v = sfirst mt (ld y v) (ld x 0).
Proof.
  intros Hok. unfold transposed_ref, transposed_term. simpl.
  rewrite Nat.mul_0_r, (sfirst_sym mt Hok (ld x 0)). simpl. ring.
Qed.

Lemma tref_step mt B (x y : ptr) i v :
  metric_ok mt ->
  transposed_ref mt B x y (S i) v =
    fadd (transposed_ref mt B x y i v) (sfirst mt (ld y (B * i + v)) (ld x i)).
Proof.
  intros Hok. unfold transposed_ref. simpl. unfold transposed_term at 2.
  by rewrite (sfirst_sym mt Hok (ld x i)).
Qed.

Lemma reg_first mt B (x y : ptr) g :
  metric_ok mt ->
  vfirst mt (vld1q_f32 (y +& 4 * g)) (vdupq_n_f32 (ld x 0)) =
    reg_ref mt B x y 1 g.
Proof.
  intros Hok. rewrite (vfirst_ok mt Hok).
  unfold reg_ref. rewrite !tref_first by done.
  unfold vld1q_f32, vdupq_n_f32, vlift2.
  by rewrite !ld_ptr_add, Nat.add_0_r.
Qed.

Lemma reg_next mt B (x y : ptr) i g :
  metric_ok mt ->
  vnext mt (reg_ref mt B x y i g) (vld1q_f32 (y +& (B * i + 4 * g)))
    (vdupq_n_f32 (ld x i)) =
    reg_ref mt B x y (i + 1) g.
Proof.
  intros Hok. rewrite (vnext_ok mt Hok).
  unfold reg_ref. replace (i + 1) with (S i) by lia.
  rewrite !tref_step by done.
  unfold vld1q_f32, vdupq_n_f32, vaddq_f32, vlift2.
  by rewrite !ld_ptr_add, Nat.add_0_r, <- !Nat.add_assoc.
Qed.

Lemma transpose_regs_ok mt B (x y : ptr) d i res :
  metric_ok mt -> 1 <= d ->
  for_loop d (fun i => i <? d) 1
    (fun i neon_res =>
       let single_query := vdupq_n_f32 (ld x i) in
       zip_with
         (fun r g => vnext mt r (vld1q_f32 (y +& (B * i + 4 * g))) single_query)
         neon_res (seq 0 (B / 4)))
    1
    (map (fun g => vfirst mt (vld1q_f32 (y +& 4 * g)) (vdupq_n_f32 (ld x 0)))
       (seq 0 (B / 4))) = (i, res) ->
  res = map (reg_ref mt B x y d) (seq 0 (B / 4)).
Proof.
  intros Hok Hd EL.
  pose proof (for_loop_stops _ _ _ d _ _ _ _ _ EL) as Hstop.
  apply for_loop_inv
    with (Inv := fun j t =>
                   1 <= j <= d /\ t = map (reg_ref mt B x y j) (seq 0 (B / 4)))
    in EL.
  - destruct EL as [Hi ->].
    assert ((i <? d) = false) as E%Nat.ltb_ge
      by (apply Hstop; [intros j Hj%Nat.ltb_lt; lia | lia | lia]).
    by assert (i = d) as -> by lia.
  - split; [lia|]. apply map_ext. intros g. by apply reg_first.
  - intros j t [Hj ->] Hc%Nat.ltb_lt. split; [lia|].
    rewrite zip_with_map_self. apply map_ext. intros g. by apply reg_next.
Qed.

Lemma transpose_kernel_regs mt B (x y : ptr) d :
  metric_ok mt -> 1 <= d ->
  transpose_kernel mt B x y d =
    concat (map vst1q_f32 (map (reg_ref mt B x y d) (seq 0 (B / 4)))).
Proof.
  intros Hok Hd. unfold transpose_kernel.
  destruct (for_loop _ _ _ _ _ _) as [i res] eqn:EL.
  by rewrite (transpose_regs_ok mt B x y d i res Hok Hd EL).
Qed.

Lemma L2sqr_transpose_pipelined_regs B (x y : ptr) d :
  1 <= d ->
  L2sqr_transpose_pipelined_kernel B x y d =
    concat (map vst1q_f32 (map (reg_ref L2 B x y d) (seq 0 (B / 4)))).
Proof.
  pose proof (L2_ok f1 fopp Rth) as Hok. intros Hd.
  unfold L2sqr_transpose_pipelined_kernel.
  assert (Hf : forall g,
             vmulq_f32
               (vsubq_f32 (vld1q_f32 (y +& 4 * g)) (vdupq_n_f32 (ld x 0)))
               (vsubq_f32 (vld1q_f32 (y +& 4 * g)) (vdupq_n_f32 (ld x 0)))
             = reg_ref L2 B x y 1 g)
    by (intros g; exact (reg_first L2 B x y g Hok)).
  assert (Hn : forall i g,
             vmlaq_f32 (reg_ref L2 B x y i g)
               (vsubq_f32 (vld1q_f32 (y +& (B * i + 4 * g)))
                  (vdupq_n_f32 (ld x i)))
               (vsubq_f32 (vld1q_f32 (y +& (B * i + 4 * g)))
                  (vdupq_n_f32 (ld x i)))
             = reg_ref L2 B x y (i + 1) g)
    by (intros i g; exact (reg_next L2 B x y i g Hok)).
  f_equal. f_equal.
  destruct (d =? 1) eqn:Hd1.
  - apply Nat.eqb_eq in Hd1. subst d.
    rewrite !map_map. apply map_ext. intros g. apply Hf.
  - apply Nat.eqb_neq in Hd1.
    destruct (for_loop _ _ _ _ _ _) as [i [[sq base] res]] eqn:EL.
    pose proof (for_loop_stops _ _ _ d _ _ _ _ _ EL) as Hstop.
    apply for_loop_inv
      with (Inv := fun j s =>
                     2 <= j <= d /\
                     let '(sq, base, res) := s in
                     sq = vdupq_n_f32 (ld x (j - 1)) /\
                     base = map (fun g => vld1q_f32 (y +& (B * (j - 1) + 4 * g)))
                              (seq 0 (B / 4)) /\
                     res = map (reg_ref L2 B x y (j - 1)) (seq 0 (B / 4)))
      in EL.
    + destruct EL as [Hi (-> & -> & ->)].
      assert ((i <? d) = false) as E%Nat.ltb_ge
        by (apply Hstop; [intros j Hj%Nat.ltb_lt; lia | lia | lia]).
      assert (i = d) as -> by lia.
      rewrite map_map, zip_with_map_map. apply map_ext. intros g.
      rewrite Hn. f_equal. lia.
    + split; [lia|]. simpl. split; [done|]. split.
      * apply map_ext. intros g. by rewrite Nat.mul_1_r.
      * rewrite !map_map. apply map_ext. intros g. apply Hf.
    + intros j [[sq' base'] res'] [Hj (-> & -> & ->)] Hc%Nat.ltb_lt.
      split; [lia|]. replace (j + 1 - 1) with j by lia.
      split; [done|]. split; [done|].
      rewrite map_map, zip_with_map_map. apply map_ext. intros g.
      rewrite Hn. f_equal. lia.
Qed.

(** The three size classes. *)
Theorem transpose_kernel_ok mt B (x y : ptr) d :
  metric_ok mt -> 1 <= d -> B = 16 \/ B = 32 \/ B = 64 ->
  transpose_kernel mt B x y d = map (transposed_ref mt B x y d) (seq 0 B).
Proof.
  intros Hok Hd HB. rewrite transpose_kernel_regs by done.
  destruct HB as [-> | [-> | ->]]; reflexivity.
Qed.

Theorem L2sqr_transpose_pipelined_kernel_ok B (x y : ptr) d :
  1 <= d -> B = 16 \/ B = 32 \/ B = 64 ->
  L2sqr_transpose_pipelined_kernel B x y d =
    map (transposed_ref L2 B x y d) (seq 0 B).
Proof.
  intros Hd HB. rewrite L2sqr_transpose_pipelined_regs by done.
  destruct HB as [-> | [-> | ->]]; reflexivity.
Qed.

End ExactTransposed.

(** ** Bit tests on the number of vectors *)

Lemma land_low m q r c :
  (0 <= m)%Z -> (0 <= r < 2 ^ m)%Z -> (0 <= c < 2 ^ m)%Z ->
  Z.land (2 ^ m * q + r) c = Z.land r c.
Proof.
  intros Hm Hr Hc.
  rewrite <- (Z.mod_small c (2 ^ m)) at 1 by lia.
  rewrite <- (Z.land_ones c m), (Z.land_comm c), Z.land_assoc by lia.
  rewrite Z.land_ones by lia.
  rewrite Z.add_comm, Z.mul_comm, Z.mod_add by lia.
  by rewrite Z.mod_small by lia.
Qed.

Lemma land_mod_pow2 a m :
  (0 <= m)%Z -> Z.land a (2 ^ m - 1) = (a mod 2 ^ m)%Z.
Proof.
  intros Hm. rewrite <- Z.land_ones by lia. f_equal.
  rewrite Z.ones_equiv. lia.
Qed.

(** ** The output buffer under the dispatchers *)

Section Filling.
Context {F : Type} `{Scalar F}.

Local Abbreviation ptr := (fptr F).

Lemma filled_start (row : nat -> F) dis (st0 : store F) :
  filled row dis st0 0 st0.
Proof.
  split; [done|]. exists []. rewrite app_nil_r, Nat.add_0_r. done.
Qed.

Lemma filled_run (row : nat -> F) dis (st0 st : store F) j w N o vals :
  filled row dis st0 j st ->
  vals = map row (seq j w) -> o = dis + j -> N = j + w ->
  filled row dis st0 N (run_kernel o vals st).
Proof.
  intros [Hc (log & Hl & Ht)] -> -> ->. split; simpl.
  - rewrite Hc, seq_app, map_app, poke_list_app.
    by rewrite length_map, length_seq.
  - exists (log ++ [(dis + j, length (map row (seq j w)))]).
    rewrite Hl, app_assoc. split; [done|].
    rewrite length_map, length_seq, Nat.add_assoc. by apply tiles_snoc.
Qed.

Lemma filled_eq (row : nat -> F) dis (st0 st : store F) j N :
  filled row dis st0 j st -> N = j -> filled row dis st0 N st.
Proof. by intros Hf ->. Qed.

(** What [filled] says about single slots. *)
Lemma filled_lookup (row : nat -> F) dis (st0 st : store F) n k :
  filled row dis st0 n st -> dis + n <= length (cells st0) -> k < n ->
  cells st !! (dis + k) = Some (row k).
Proof.
  intros [Hc _] Hlen Hk. rewrite Hc, lookup_poke_list_in.
  - rewrite list_lookup_fmap, lookup_seq_lt by done. done.
  - by rewrite length_map, length_seq.
  - by rewrite length_map, length_seq.
Qed.

Lemma filled_outside (row : nat -> F) dis (st0 st : store F) n j :
  filled row dis st0 n st -> j < dis \/ dis + n <= j ->
  cells st !! j = cells st0 !! j.
Proof.
  intros [Hc _] Hj. rewrite Hc. apply lookup_poke_list_out.
  by rewrite length_map, length_seq.
Qed.

Lemma filled_writes (row : nat -> F) dis (st0 st : store F) n j :
  filled row dis st0 n st ->
  writes_since st0 st j = if (dis <=? j) && (j <? dis + n) then 1 else 0.
Proof.
  intros [_ (log & Hl & Ht)]. unfold writes_since.
  rewrite Hl, write_count_app, <- (tiles_write_count log dis (dis + n) j Ht).
  lia.
Qed.

Lemma filled_length (row : nat -> F) dis (st0 st : store F) n :
  filled row dis st0 n st -> length (cells st) = length (cells st0).
Proof. intros [Hc _]. by rewrite Hc, length_poke_list. Qed.

End Filling.

(** ** The kernels as the dispatchers call them *)

Section KernelRows.
Context {F : Type} `{Scalar F} (f1 : F) (fopp : F -> F).
Hypothesis Rth : ring_theory f0 f1 fadd fmul fsub fopp eq.

Local Abbreviation ptr := (fptr F).

Lemma rows_dense (ref : ptr -> ptr -> nat -> F) (x y : ptr) d j w :
  map (fun yk => ref x yk d) (rows (y +& j * d) d w) =
    map (dense_row ref x y d) (seq j w).
Proof.
  unfold rows. rewrite map_map, (map_seq_shift _ j w).
  apply map_ext. intros k. unfold dense_row. rewrite ptr_add_add.
  do 2 f_equal. lia.
Qed.

Lemma rows_sparse (ref : ptr -> ptr -> nat -> F) (x y : ptr) ids d j w :
  map (fun yk => ref x yk d) (listy y ids d j w) =
    map (sparse_row ref x y ids d) (seq j w).
Proof. unfold listy. by rewrite map_map, (map_seq_shift _ j w). Qed.

Lemma dense_pair (ref : ptr -> ptr -> nat -> F) (x y : ptr) d j :
  [ref x (y +& j * d) d; ref x (y +& j * d +& d) d] =
    map (dense_row ref x y d) (seq j 2).
Proof.
  cbn [map seq]. unfold dense_row. rewrite ptr_add_add.
  by replace (S j * d) with (j * d + d) by lia.
Qed.

Lemma krl_L2sqr_batch24_row (x y : ptr) d j :
  krl_L2sqr_batch24 x (y +& j * d) d = map (dense_row L2sqr_ref x y d) (seq j 24).
Proof.
  unfold krl_L2sqr_batch24.
  rewrite (batch_kernel_ok f1 fopp Rth L2) by apply (L2_ok f1 fopp Rth).
  apply (rows_dense L2sqr_ref).
Qed.

Lemma krl_L2sqr_batch16_row (x y : ptr) d j :
  krl_L2sqr_batch16 x (y +& j * d) d = map (dense_row L2sqr_ref x y d) (seq j 16).
Proof.
  unfold krl_L2sqr_batch16.
  rewrite (batch_kernel_ok f1 fopp Rth L2) by apply (L2_ok f1 fopp Rth).
  apply (rows_dense L2sqr_ref).
Qed.

Lemma krl_L2sqr_batch8_row (x y : ptr) d j :
  krl_L2sqr_batch8 x (y +& j * d) d = map (dense_row L2sqr_ref x y d) (seq j 8).
Proof.
  unfold krl_L2sqr_batch8.
  rewrite (batch_kernel_ok f1 fopp Rth L2) by apply (L2_ok f1 fopp Rth).
  apply (rows_dense L2sqr_ref).
Qed.

Lemma krl_L2sqr_batch4_row (x y : ptr) d j :
  krl_L2sqr_batch4 x (y +& j * d) d = map (dense_row L2sqr_ref x y d) (seq j 4).
Proof.
  unfold krl_L2sqr_batch4.
  rewrite (batch_kernel_ok f1 fopp Rth L2) by apply (L2_ok f1 fopp Rth).
  apply (rows_dense L2sqr_ref).
Qed.

Lemma krl_L2sqr_batch2_row (x y : ptr) d j :
  krl_L2sqr_batch2 x (y +& j * d) d = map (dense_row L2sqr_ref x y d) (seq j 2).
Proof.
  unfold krl_L2sqr_batch2.
  rewrite (batch2_kernel_ok f1 fopp Rth L2) by apply (L2_ok f1 fopp Rth).
  apply (dense_pair L2sqr_ref).
Qed.

Lemma krl_inner_product_batch16_row (x y : ptr) d j :
  krl_inner_product_batch16 x (y +& j * d) d =
    map (dense_row ipdis_ref x y d) (seq j 16).
Proof.
  unfold krl_inner_product_batch16.
  rewrite (batch_kernel_ok f1 fopp Rth IP) by apply (IP_ok f1 fopp Rth).
  apply (rows_dense ipdis_ref).
Qed.

Lemma krl_inner_product_batch8_row (x y : ptr) d j :
  krl_inner_product_batch8 x (y +& j * d) d =
    map (dense_row ipdis_ref x y d) (seq j 8).
Proof.
  unfold krl_inner_product_batch8.
  rewrite (batch_kernel_ok f1 fopp Rth IP) by apply (IP_ok f1 fopp Rth).
  apply (rows_dense ipdis_ref).
Qed.

Lemma krl_inner_product_batch4_row (x y : ptr) d j :
  krl_inner_product_batch4 x (y +& j * d) d =
    map (dense_row ipdis_ref x y d) (seq j 4).
Proof.
  unfold krl_inner_product_batch4.
  rewrite (batch_kernel_ok f1 fopp Rth IP) by apply (IP_ok f1 fopp Rth).
  apply (rows_dense ipdis_ref).
Qed.

Lemma krl_inner_product_batch2_row (x y : ptr) d j :
  krl_inner_product_batch2 x (y +& j * d) d =
    map (dense_row ipdis_ref x y d) (seq j 2).
Proof.
  unfold krl_inner_product_batch2.
  rewrite (batch2_kernel_ok f1 fopp Rth IP) by apply (IP_ok f1 fopp Rth).
  apply (dense_pair ipdis_ref).
Qed.

Lemma krl_L2sqr_idx_prefetch_batch24_row (x y : ptr) ids d j :
  krl_L2sqr_idx_prefetch_batch24 x (listy y ids d j 24) d =
    map (sparse_row L2sqr_ref x y ids d) (seq j 24).
Proof.
  rewrite (krl_L2sqr_idx_prefetch_batch24_ok f1 fopp Rth).
  apply (rows_sparse L2sqr_ref).
Qed.

Lemma krl_L2sqr_idx_prefetch_batch16_row (x y : ptr) ids d j :
  krl_L2sqr_idx_prefetch_batch16 x (listy y ids d j 16) d =
    map (sparse_row L2sqr_ref x y ids d) (seq j 16).
Proof.
  unfold krl_L2sqr_idx_prefetch_batch16.
  rewrite (L2sqr_idx_prefetch_kernel_ok f1 fopp Rth).
  apply (rows_sparse L2sqr_ref).
Qed.

Lemma krl_L2sqr_idx_prefetch_batch8_row (x y : ptr) ids d j :
  krl_L2sqr_idx_prefetch_batch8 x (listy y ids d j 8) d =
    map (sparse_row L2sqr_ref x y ids d) (seq j 8).
Proof.
  unfold krl_L2sqr_idx_prefetch_batch8.
  rewrite (L2sqr_idx_prefetch_kernel_ok f1 fopp Rth).
  apply (rows_sparse L2sqr_ref).
Qed.

Lemma krl_L2sqr_idx_batch4_row (x y : ptr) ids d j :
  krl_L2sqr_idx_batch4 x (listy y ids d j 4) d =
    map (sparse_row L2sqr_ref x y ids d) (seq j 4).
Proof.
  unfold krl_L2sqr_idx_batch4.
  rewrite (batch_kernel_ok f1 fopp Rth L2) by apply (L2_ok f1 fopp Rth).
  apply (rows_sparse L2sqr_ref).
Qed.

Lemma krl_L2sqr_idx_batch2_row (x y : ptr) ids d j :
  krl_L2sqr_idx_batch2 x (row_ptr y ids d j) (row_ptr y ids d (j + 1)) d =
    map (sparse_row L2sqr_ref x y ids d) (seq j 2).
Proof.
  rewrite (krl_L2sqr_idx_batch2_ok f1 fopp Rth). simpl.
  by replace (S j) with (j + 1) by lia.
Qed.

Lemma krl_inner_product_idx_prefetch_batch16_row (x y : ptr) ids d j :
  krl_inner_product_idx_prefetch_batch16 x (listy y ids d j 16) d =
    map (sparse_row ipdis_ref x y ids d) (seq j 16).
Proof.
  rewrite (krl_inner_product_idx_prefetch_batch16_ok f1 fopp Rth).
  apply (rows_sparse ipdis_ref).
Qed.

Lemma krl_inner_product_idx_batch8_row (x y : ptr) ids d j :
  krl_inner_product_idx_batch8 x (listy y ids d j 8) d =
    map (sparse_row ipdis_ref x y ids d) (seq j 8).
Proof.
  unfold krl_inner_product_idx_batch8.
  rewrite (batch_kernel_ok f1 fopp Rth IP) by apply (IP_ok f1 fopp Rth).
  apply (rows_sparse ipdis_ref).
Qed.

Lemma krl_inner_product_idx_batch4_row (x y : ptr) ids d j :
  krl_inner_product_idx_batch4 x (listy y ids d j 4) d =
    map (sparse_row ipdis_ref x y ids d) (seq j 4).
Proof.
  unfold krl_inner_product_idx_batch4.
  rewrite (batch_kernel_ok f1 fopp Rth IP) by apply (IP_ok f1 fopp Rth).
  apply (rows_sparse ipdis_ref).
Qed.

Lemma krl_inner_product_idx_batch2_row (x y : ptr) ids d j :
  krl_inner_product_idx_batch2 x (row_ptr y ids d j) (row_ptr y ids d (j + 1)) d
  = map (sparse_row ipdis_ref x y ids d) (seq j 2).
Proof.
  unfold krl_inner_product_idx_batch2.
  rewrite (batch2_kernel_ok f1 fopp Rth IP) by apply (IP_ok f1 fopp Rth).
  simpl. by replace (S j) with (j + 1) by lia.
Qed.

(** The single-pair entry points as the dispatchers call them. *)
Lemma krl_L2sqr_run (x y : ptr) d o (st : store F) :
  (1 <= d <= 65535)%Z ->
  krl_L2sqr (Some x) (Some y) d (Some o) 1 st =
    (SUCCESS, run_kernel o [L2sqr_ref x y (Z.to_nat d)] st).
Proof.
  intros Hd. unfold krl_L2sqr.
  replace (d <? 1)%Z with false by lia. replace (d >? 65535)%Z with false by lia.
  simpl. by rewrite (L2sqr_res_ok f1 fopp Rth).
Qed.

Lemma krl_ipdis_run (x y : ptr) d o (st : store F) :
  (1 <= d <= 65535)%Z ->
  krl_ipdis (Some x) (Some y) d (Some o) 1 st =
    (SUCCESS, run_kernel o [ipdis_ref x y (Z.to_nat d)] st).
Proof.
  intros Hd. unfold krl_ipdis.
  replace (d <? 1)%Z with false by lia. replace (d >? 65535)%Z with false by lia.
  simpl. by rewrite (ipdis_res_ok f1 fopp Rth).
Qed.

End KernelRows.

(** ** The dense and sparse dispatchers fill the buffer *)

Lemma bit_test m q r c ny :
  (ny = 2 ^ m * q + r)%Z -> (0 <= m)%Z -> (0 <= r < 2 ^ m)%Z ->
  (0 <= c < 2 ^ m)%Z ->
  negb (Z.land ny c =? 0)%Z = negb (Z.land r c =? 0)%Z.
Proof. intros -> Hm Hr Hc. by rewrite land_low. Qed.

Section Dispatchers.
Context {F : Type} `{Scalar F} (f1 : F) (fopp : F -> F).
Hypothesis Rth : ring_theory f0 f1 fadd fmul fsub fopp eq.

Local Abbreviation ptr := (fptr F).

Lemma dense_single (ref : ptr -> ptr -> nat -> F) (x y : ptr) d j j' :
  j' = j -> [ref x (y +& j' * d) d] = map (dense_row ref x y d) (seq j 1).
Proof. by intros ->. Qed.

Lemma sparse_single (ref : ptr -> ptr -> nat -> F) (x y : ptr) ids d j j' :
  j' = j ->
  [ref x (row_ptr y ids d j') d] = map (sparse_row ref x y ids d) (seq j 1).
Proof. by intros ->. Qed.

(** The values an invocation stores are the rows of its slots. *)
Ltac fill_vals :=
  lazymatch goal with
  | |- krl_L2sqr_batch24 _ _ _ = _ => apply (krl_L2sqr_batch24_row f1 fopp Rth)
  | |- krl_L2sqr_batch16 _ _ _ = _ => apply (krl_L2sqr_batch16_row f1 fopp Rth)
  | |- krl_L2sqr_batch8 _ _ _ = _ => apply (krl_L2sqr_batch8_row f1 fopp Rth)
  | |- krl_L2sqr_batch4 _ _ _ = _ => apply (krl_L2sqr_batch4_row f1 fopp Rth)
  | |- krl_L2sqr_batch2 _ _ _ = _ => apply (krl_L2sqr_batch2_row f1 fopp Rth)
  | |- krl_inner_product_batch16 _ _ _ = _ => apply (krl_inner_product_batch16_row f1 fopp Rth)
  | |- krl_inner_product_batch8 _ _ _ = _ => apply (krl_inner_product_batch8_row f1 fopp Rth)
  | |- krl_inner_product_batch4 _ _ _ = _ => apply (krl_inner_product_batch4_row f1 fopp Rth)
  | |- krl_inner_product_batch2 _ _ _ = _ => apply (krl_inner_product_batch2_row f1 fopp Rth)
  | |- krl_L2sqr_idx_prefetch_batch24 _ _ _ = _ => apply (krl_L2sqr_idx_prefetch_batch24_row f1 fopp Rth)
  | |- krl_L2sqr_idx_prefetch_batch16 _ _ _ = _ => apply (krl_L2sqr_idx_prefetch_batch16_row f1 fopp Rth)
  | |- krl_L2sqr_idx_prefetch_batch8 _ _ _ = _ => apply (krl_L2sqr_idx_prefetch_batch8_row f1 fopp Rth)
  | |- krl_L2sqr_idx_batch4 _ _ _ = _ => apply (krl_L2sqr_idx_batch4_row f1 fopp Rth)
  | |- krl_inner_product_idx_prefetch_batch16 _ _ _ = _ => apply (krl_inner_product_idx_prefetch_batch16_row f1 fopp Rth)
  | |- krl_inner_product_idx_batch8 _ _ _ = _ => apply (krl_inner_product_idx_batch8_row f1 fopp Rth)
  | |- krl_inner_product_idx_batch4 _ _ _ = _ => apply (krl_inner_product_idx_batch4_row f1 fopp Rth)
  | |- krl_L2sqr_idx_batch2 _ _ _ _ = _ => apply (krl_L2sqr_idx_batch2_row f1 fopp Rth)
  | |- krl_inner_product_idx_batch2 _ _ _ _ = _ => apply (krl_inner_product_idx_batch2_row f1 fopp Rth)
  | |- [_ _ (row_ptr _ _ _ _) _] = _ => apply sparse_single; lia
  | |- [_] = _ => apply dense_single; lia
  end.

(** Follow the invocations back to a state known to be filled. *)
Ltac fill_chain Hf :=
  lazymatch goal with
  | |- filled _ _ _ _ (run_kernel _ _ _) =>
      eapply filled_run;
      [ fill_chain Hf | fill_vals | first [reflexivity | lia]
      | first [reflexivity | lia] ]
  | |- filled _ _ _ _ _ =>
      eapply filled_eq; [exact Hf | first [reflexivity | lia]]
  end.

(** Decide the test [ny & c] from the residue [r] of [ny] modulo [2 ^ m]. *)
Ltac set_bit ny m q r c :=
  let b := eval vm_compute in (negb (Z.land r c =? 0)%Z) in
  replace (negb (Z.land ny c =? 0)%Z) with b
    by (rewrite (bit_test m q r c ny) by lia; reflexivity).

Ltac finish_batch Hf :=
  cbv beta iota zeta;
  rewrite ?(krl_L2sqr_run f1 fopp Rth), ?(krl_ipdis_run f1 fopp Rth) by lia;
  cbn [snd];
  eexists; split; [reflexivity|]; fill_chain Hf.

(** The count left after the widest loop, by its residue modulo eight (two
    metrics) or sixteen (inner product). *)
Ltac cases8 ny q Hf :=
  let Hr := fresh "Hr" in
  assert (Hr : (ny = 2 ^ 3 * q + 0 \/ ny = 2 ^ 3 * q + 1 \/
                ny = 2 ^ 3 * q + 2 \/ ny = 2 ^ 3 * q + 3 \/
                ny = 2 ^ 3 * q + 4 \/ ny = 2 ^ 3 * q + 5 \/
                ny = 2 ^ 3 * q + 6 \/ ny = 2 ^ 3 * q + 7)%Z) by lia;
  destruct Hr as [Hr|[Hr|[Hr|[Hr|[Hr|[Hr|[Hr|Hr]]]]]]];
  match type of Hr with
  | (_ = _ * ?q' + ?r)%Z =>
      set_bit ny 3%Z q' r 4%Z; set_bit ny 3%Z q' r 2%Z; set_bit ny 3%Z q' r 1%Z
  end;
  finish_batch Hf.

Ltac cases16 ny q Hf :=
  let Hr := fresh "Hr" in
  assert (Hr : (ny = 2 ^ 4 * q + 0 \/ ny = 2 ^ 4 * q + 1 \/
                ny = 2 ^ 4 * q + 2 \/ ny = 2 ^ 4 * q + 3 \/
                ny = 2 ^ 4 * q + 4 \/ ny = 2 ^ 4 * q + 5 \/
                ny = 2 ^ 4 * q + 6 \/ ny = 2 ^ 4 * q + 7 \/
                ny = 2 ^ 4 * q + 8 \/ ny = 2 ^ 4 * q + 9 \/
                ny = 2 ^ 4 * q + 10 \/ ny = 2 ^ 4 * q + 11 \/
                ny = 2 ^ 4 * q + 12 \/ ny = 2 ^ 4 * q + 13 \/
                ny = 2 ^ 4 * q + 14 \/ ny = 2 ^ 4 * q + 15)%Z) by lia;
  destruct Hr as
    [Hr|[Hr|[Hr|[Hr|[Hr|[Hr|[Hr|[Hr|[Hr|[Hr|[Hr|[Hr|[Hr|[Hr|[Hr|Hr]]]]]]]]]]]]]]];
  match type of Hr with
  | (_ = _ * ?q' + ?r)%Z =>
      set_bit ny 4%Z q' r 8%Z; set_bit ny 4%Z q' r 4%Z;
      set_bit ny 4%Z q' r 2%Z; set_bit ny 4%Z q' r 1%Z
  end;
  finish_batch Hf.

Ltac enter_batch :=
  replace (_ <? 1)%Z with false by lia;
  replace (_ >? 65535)%Z with false by lia;
  replace (_ <? 1)%Z with false by lia;
  replace (_ >? 2 ^ 30)%Z with false by lia;
  match goal with
  | Hsz : (?ny <= ?dis_size)%Z |- _ =>
      replace (dis_size <? ny)%Z with false by lia
  end;
  cbv beta iota zeta delta [orb].

Theorem krl_L2sqr_ny_filled (x y : ptr)  d ny dis dis_size (st : store F) :
  (1 <= d <= 65535)%Z -> (1 <= ny <= 2 ^ 30)%Z -> (ny <= dis_size)%Z ->
  exists st',
    krl_L2sqr_ny (Some dis) (Some x) (Some y) ny d dis_size st = (SUCCESS, st')
    /\ filled (dense_row L2sqr_ref x y (Z.to_nat d)) dis st (Z.to_nat ny) st'.
Proof.
  intros Hd Hny Hsz. unfold krl_L2sqr_ny. enter_batch.
  set (n := Z.to_nat ny). set (dn := Z.to_nat d).
  assert (Hn : ny = Z.of_nat n) by lia.
  destruct (for_loop n _ 24 _ 0 st) as [i st1] eqn:E1.
  pose proof (for_loop_stops _ _ _ n _ _ _ _ _ E1) as Hstop.
  apply for_loop_inv
    with (Inv := fun j t =>
                   (exists k, j = 24 * k) /\ j <= n /\
                   filled (dense_row L2sqr_ref x y dn) dis st j t) in E1.
  - destruct E1 as [[k Hk] [Hi Hf]].
    assert ((i + 24 <=? n) = false) as Hlt%Nat.leb_gt
      by (apply Hstop; [intros j Hj%Nat.leb_le; lia | lia | lia]).
    destruct (i + 16 <=? n) eqn:H16; [|destruct (i + 8 <=? n) eqn:H8].
    + apply Nat.leb_le in H16. cases8 ny (Z.of_nat (3 * k + 2)) Hf.
    + apply Nat.leb_le in H8. apply Nat.leb_gt in H16.
      cases8 ny (Z.of_nat (3 * k + 1)) Hf.
    + apply Nat.leb_gt in H8. apply Nat.leb_gt in H16.
      cases8 ny (Z.of_nat (3 * k)) Hf.
  - split; [exists 0; lia|]. split; [lia|]. apply filled_start.
  - intros j t [[k Hk] [Hj Hf]] Hc%Nat.leb_le.
    split; [exists (k + 1); lia|]. split; [lia|].
    eapply filled_run; [exact Hf | fill_vals | reflexivity | reflexivity].
Qed.

Theorem krl_inner_product_ny_filled (x y : ptr)  d ny dis dis_size (st : store F) :
  (1 <= d <= 65535)%Z -> (1 <= ny <= 2 ^ 30)%Z -> (ny <= dis_size)%Z ->
  exists st',
    krl_inner_product_ny (Some dis) (Some x) (Some y) ny d dis_size st = (SUCCESS, st')
    /\ filled (dense_row ipdis_ref x y (Z.to_nat d)) dis st (Z.to_nat ny) st'.
Proof.
  intros Hd Hny Hsz. unfold krl_inner_product_ny. enter_batch.
  set (n := Z.to_nat ny). set (dn := Z.to_nat d).
  assert (Hn : ny = Z.of_nat n) by lia.
  destruct (for_loop n _ 16 _ 0 st) as [i st1] eqn:E1.
  pose proof (for_loop_stops _ _ _ n _ _ _ _ _ E1) as Hstop.
  apply for_loop_inv
    with (Inv := fun j t =>
                   (exists k, j = 16 * k) /\ j <= n /\
                   filled (dense_row ipdis_ref x y dn) dis st j t) in E1.
  - destruct E1 as [[k Hk] [Hi Hf]].
    assert ((i + 16 <=? n) = false) as Hlt%Nat.leb_gt
      by (apply Hstop; [intros j Hj%Nat.leb_le; lia | lia | lia]).
    cases16 ny (Z.of_nat k) Hf.
  - split; [exists 0; lia|]. split; [lia|]. apply filled_start.
  - intros j t [[k Hk] [Hj Hf]] Hc%Nat.leb_le.
    split; [exists (k + 1); lia|]. split; [lia|].
    eapply filled_run; [exact Hf | fill_vals | reflexivity | reflexivity].
Qed.

Theorem krl_L2sqr_by_idx_filled (x y : ptr) ids d ny dis dis_size (st : store F) :
  (1 <= d <= 65535)%Z -> (1 <= ny <= 2 ^ 30)%Z -> (ny <= dis_size)%Z ->
  exists st',
    krl_L2sqr_by_idx (Some dis) (Some x) (Some y) (Some ids) d ny dis_size st = (SUCCESS, st')
    /\ filled (sparse_row L2sqr_ref x y ids (Z.to_nat d)) dis st (Z.to_nat ny) st'.
Proof.
  intros Hd Hny Hsz. unfold krl_L2sqr_by_idx. enter_batch.
  set (n := Z.to_nat ny). set (dn := Z.to_nat d).
  assert (Hn : ny = Z.of_nat n) by lia.
  destruct (for_loop n _ 24 _ 0 st) as [i st1] eqn:E1.
  pose proof (for_loop_stops _ _ _ n _ _ _ _ _ E1) as Hstop.
  apply for_loop_inv
    with (Inv := fun j t =>
                   (exists k, j = 24 * k) /\ j <= n /\
                   filled (sparse_row L2sqr_ref x y ids dn) dis st j t) in E1.
  - destruct E1 as [[k Hk] [Hi Hf]].
    assert ((i + 24 <=? n) = false) as Hlt%Nat.leb_gt
      by (apply Hstop; [intros j Hj%Nat.leb_le; lia | lia | lia]).
    destruct (i + 16 <=? n) eqn:H16; [|destruct (i + 8 <=? n) eqn:H8].
    + apply Nat.leb_le in H16. cases8 ny (Z.of_nat (3 * k + 2)) Hf.
    + apply Nat.leb_le in H8. apply Nat.leb_gt in H16.
      cases8 ny (Z.of_nat (3 * k + 1)) Hf.
    + apply Nat.leb_gt in H8. apply Nat.leb_gt in H16.
      cases8 ny (Z.of_nat (3 * k)) Hf.
  - split; [exists 0; lia|]. split; [lia|]. apply filled_start.
  - intros j t [[k Hk] [Hj Hf]] Hc%Nat.leb_le.
    split; [exists (k + 1); lia|]. split; [lia|].
    eapply filled_run; [exact Hf | fill_vals | reflexivity | reflexivity].
Qed.

Theorem krl_inner_product_by_idx_filled (x y : ptr) ids d ny dis dis_size (st : store F) :
  (1 <= d <= 65535)%Z -> (1 <= ny <= 2 ^ 30)%Z -> (ny <= dis_size)%Z ->
  exists st',
    krl_inner_product_by_idx (Some dis) (Some x) (Some y) (Some ids) d ny dis_size st = (SUCCESS, st')
    /\ filled (sparse_row ipdis_ref x y ids (Z.to_nat d)) dis st (Z.to_nat ny) st'.
Proof.
  intros Hd Hny Hsz. unfold krl_inner_product_by_idx. enter_batch.
  set (n := Z.to_nat ny). set (dn := Z.to_nat d).
  assert (Hn : ny = Z.of_nat n) by lia.
  destruct (for_loop n _ 16 _ 0 st) as [i st1] eqn:E1.
  pose proof (for_loop_stops _ _ _ n _ _ _ _ _ E1) as Hstop.
  apply for_loop_inv
    with (Inv := fun j t =>
                   (exists k, j = 16 * k) /\ j <= n /\
                   filled (sparse_row ipdis_ref x y ids dn) dis st j t) in E1.
  - destruct E1 as [[k Hk] [Hi Hf]].
    assert ((i + 16 <=? n) = false) as Hlt%Nat.leb_gt
      by (apply Hstop; [intros j Hj%Nat.leb_le; lia | lia | lia]).
    cases16 ny (Z.of_nat k) Hf.
  - split; [exists 0; lia|]. split; [lia|]. apply filled_start.
  - intros j t [[k Hk] [Hj Hf]] Hc%Nat.leb_le.
    split; [exists (k + 1); lia|]. split; [lia|].
    eapply filled_run; [exact Hf | fill_vals | reflexivity | reflexivity].
Qed.

End Dispatchers.

(** ** The transposed-block engine *)

Lemma wrap64_small z : (0 <= z < size_max)%Z -> wrap64 z = z.
Proof. intros Hz. unfold wrap64. by apply Z.mod_small. Qed.

Lemma size_max_eq : size_max = 18446744073709551616%Z.
Proof. reflexivity. Qed.

Section HandleLoops.
Context {F : Type} `{Scalar F}.

Local Abbreviation ptr := (fptr F).

(** The loop over the full blocks of the branch [if (left)] stops at the
    last multiple of [B] that leaves a whole block before [n]. *)
Lemma block_loop_remainder {St : Type} (P : nat -> St -> Prop) B n
    (body : nat -> St -> St) st i st1 :
  0 < B ->
  for_loop n (fun i => i + B <=? n) B body 0 st = (i, st1) ->
  P 0 st ->
  (forall j t, (exists k, j = B * k) -> j + B <= n -> P j t ->
               P (j + B) (body j t)) ->
  (exists k, i = B * k) /\ i <= n /\ n < i + B /\ P i st1.
Proof.
  intros HB E H0 Hstep.
  pose proof (for_loop_stops _ _ _ n _ _ _ _ _ E) as Hstop.
  assert ((i + B <=? n) = false) as Hlt%Nat.leb_gt
    by (apply Hstop; [intros j Hj%Nat.leb_le; lia | lia | lia]).
  apply for_loop_inv
    with (Inv := fun j t => (exists k, j = B * k) /\ j <= n /\ P j t) in E.
  - destruct E as (Hk & Hle & HP). done.
  - split; [exists 0; lia|]. split; [lia|done].
  - intros j t (Hk & Hj & HP) Hc%Nat.leb_le.
    split; [destruct Hk as [k ->]; exists (k + 1); lia|].
    split; [lia|]. by apply Hstep.
Qed.

Lemma CheckAndMemcpy_copies dest destBufferSize (src : list F) srcBufferSize
    (st : store F) :
  (srcBufferSize <= destBufferSize)%Z ->
  CheckAndMemcpy (Some dest) destBufferSize (Some src) srcBufferSize st =
    (0%Z,
     run_kernel dest (take (Z.to_nat (srcBufferSize / sizeof_float)) src) st).
Proof.
  intros Hle. unfold CheckAndMemcpy.
  by replace (srcBufferSize >? destBufferSize)%Z with false by lia.
Qed.

(** The tail of a count and the number of full blocks before it. *)
Lemma left_of_blocks B ny i k :
  0 < B -> (0 <= ny)%Z -> i = B * k -> i <= Z.to_nat ny ->
  Z.to_nat ny < i + B ->
  (ny mod Z.of_nat B = ny - Z.of_nat i)%Z.
Proof.
  intros HB Hny -> Hle Hlt. symmetry.
  apply (Z.mod_unique_pos ny (Z.of_nat B) (Z.of_nat k)); lia.
Qed.

(** *** The loops over the queries

    [Q k st]: the state [st] of the output buffer after the first [k] slots
    of the call.  The hypotheses say that [Q] follows the full blocks and
    the bounded copy of the tail of each query. *)

Section Rounds.
Variables (B : nat) (kernel : ptr -> ptr -> nat -> list F).
Variables (ny dim ceil_ny dis_size : Z) (dis0 : nat) (x0 y0 : ptr).
Variable Q : nat -> store F -> Prop.

Local Abbreviation n := (Z.to_nat ny).
Local Abbreviation dn := (Z.to_nat dim).
Local Abbreviation cn := (Z.to_nat ceil_ny).

Variable rounds_total : nat.

Hypothesis B_pos : 0 < B.
Hypothesis ny_pos : (0 <= ny)%Z.

Hypothesis Q_block : forall m j t,
  m < rounds_total -> (exists k, j = B * k) -> j + B <= n ->
  Q (m * n + j) t ->
  Q (m * n + j + B)
    (run_kernel (dis0 + m * n + j)
       (kernel (x0 +& m * dn) (y0 +& m * (cn * dn) +& j * dn) dn) t).

Hypothesis Q_tail : forall m j t,
  m < rounds_total -> (exists k, j = B * k) -> j < n -> n < j + B ->
  Q (m * n + j) t ->
  Q (m * n + n)
    (run_kernel (dis0 + m * n + j)
       (take (n - j)
          (kernel (x0 +& m * dn) (y0 +& m * (cn * dn) +& j * dn) dn)) t).

Lemma remainder_rounds_spec rounds : forall m dis x y st,
  m + rounds = rounds_total ->
  dis = dis0 + m * n -> x = x0 +& m * dn -> y = y0 +& m * (cn * dn) ->
  (ny mod Z.of_nat B <> 0)%Z ->
  (Z.of_nat rounds_total * ny <= dis_size)%Z -> (dis_size < 2 ^ 62)%Z ->
  Q (m * n) st ->
  exists st',
    remainder_rounds B kernel ny dim ceil_ny (ny mod Z.of_nat B) dis_size
      rounds m dis x y st = (SUCCESS, st')
    /\ Q (rounds_total * n) st'.
Proof.
  induction rounds as [|r IH]; intros m dis x y st Hm Hdis Hx Hy Hl Hsz Hmax HQ.
  { exists st. split; [done|]. by replace rounds_total with m by lia. }
  cbn [remainder_rounds].
  destruct (for_loop _ _ _ _ _ _) as [i st1] eqn:E.
  apply block_loop_remainder
    with (P := fun j t => Q (m * n + j) t) in E
    as ([k Hk] & Hle & Hlt & HQ1); [|done|by rewrite Nat.add_0_r|].
  2:{ intros j t Hj Hjn HP. rewrite Nat.add_assoc, Hdis, Hx, Hy.
      apply Q_block; [lia|done..]. }
  pose proof (left_of_blocks B ny i k B_pos ny_pos Hk Hle Hlt) as Hleft.
  assert (Hmn : (Z.of_nat m * ny + ny <= Z.of_nat rounds_total * ny)%Z) by nia.
  pose proof size_max_eq as Hmaxv.
  rewrite (wrap64_small (Z.of_nat m * ny + Z.of_nat i)) by nia.
  rewrite (wrap64_small (dis_size - _)) by nia.
  rewrite (wrap64_small (_ * sizeof_float)) by (unfold sizeof_float; nia).
  replace (_ <? _)%Z with false by lia.
  rewrite CheckAndMemcpy_copies by (unfold sizeof_float; lia).
  cbn [negb Z.eqb].
  replace (ny mod Z.of_nat B * sizeof_float / sizeof_float)%Z
    with (ny mod Z.of_nat B)%Z
    by (unfold sizeof_float; by rewrite Z.div_mul).
  apply IH; try done; try lia.
  - rewrite Hx, ptr_add_add. f_equal. lia.
  - rewrite Hy, ptr_add_add. f_equal. lia.
  - replace ((m + 1) * n) with (m * n + n) by lia.
    replace (Z.to_nat (ny mod Z.of_nat B)) with (n - i) by lia.
    rewrite Hdis, Hx, Hy. apply Q_tail; [lia | by exists k | lia | lia | done].
Qed.

End Rounds.

End HandleLoops.

(** *** Values read from the block-transposed layout *)

Section HandleValues.
Context {F : Type} `{Scalar F}.
Variables (f1 : F) (fopp : F -> F).
Hypothesis Rth : ring_theory f0 f1 fadd fmul fsub fopp eq.

Local Abbreviation ptr := (fptr F).

Lemma block_transposed_spec eqb B d ny cn M (src codes : ptr) :
  (forall a b : F, eqb a b = true -> a = b) ->
  block_transposed eqb B d ny cn M src codes = true ->
  forall m v j, m < M -> v < ny -> j < d ->
    ld codes (transposed_index B d cn m v j) = ld src ((m * ny + v) * d + j).
Proof.
  intros Heq Hb m v j Hm Hv Hj. unfold block_transposed in Hb.
  pose proof (proj1 (forallb_forall _ _) Hb m) as Hb1.
  pose proof (proj1 (forallb_forall _ _) (Hb1 ltac:(apply in_seq; lia)) v)
    as Hb2.
  pose proof (proj1 (forallb_forall _ _) (Hb2 ltac:(apply in_seq; lia)) j)
    as Hb3.
  apply Heq, Hb3, in_seq. lia.
Qed.

Lemma lanes_rows (lane grow : nat -> F) base w B :
  w <= B -> (forall v, v < w -> lane v = grow (base + v)) ->
  take w (map lane (seq 0 B)) = map grow (seq base w).
Proof.
  intros Hw Hl. rewrite (map_seq_shift grow base w).
  change (take w (lane <$> seq 0 B) = (fun k => grow (base + k)) <$> seq 0 w).
  rewrite <- fmap_take, take_seq, Nat.min_l by done.
  apply list_fmap_ext. intros i v Hv%lookup_seq. apply Hl. lia.
Qed.

Section Layout.
Variables (mt : metric (F:=F)) (B d n cn M : nat) (x0 src codes : ptr).
Hypothesis B_pos : 0 < B.
Hypothesis layout : forall m v j, m < M -> v < n -> j < d ->
  ld codes (transposed_index B d cn m v j) = ld src ((m * n + v) * d + j).

(** Lane [v] of the block at vector [j] of query [m] is row
    [m * n + j + v] of the untransposed set. *)
Lemma transposed_lane_row m j v :
  m < M -> (exists k, j = B * k) -> v < B -> j + v < n ->
  transposed_ref mt B (x0 +& m * d) (codes +& m * (cn * d) +& j * d) d v =
    handle_row (metric_ref mt) x0 src d n (m * n + j + v).
Proof.
  intros Hm [k ->] Hv Hjv. unfold handle_row, transposed_ref, metric_ref.
  replace ((m * n + B * k + v) / n) with m
    by (apply (Nat.div_unique _ n m (B * k + v)); lia).
  apply sum_terms_ext. intros j Hj. unfold transposed_term, term.
  rewrite !ld_ptr_add. f_equal.
  replace (m * (cn * d) + (B * k * d + (B * j + v)))
    with (transposed_index B d cn m (B * k + v) j).
  - rewrite layout by done. f_equal. lia.
  - unfold transposed_index.
    replace ((B * k + v) / B) with k
      by (apply (Nat.div_unique _ B k v); lia).
    replace ((B * k + v) mod B) with v
      by (apply (Nat.mod_unique _ B k v); lia).
    lia.
Qed.

End Layout.

Lemma ptr_add_0 (p : ptr) : p +& 0 = p.
Proof. destruct p as [b o]. unfold ptr_add; simpl. by rewrite Nat.add_0_r. Qed.

(** One [case] of the [switch] with a tail: every slot of every query
    receives the value of its row. *)
Lemma transposed_case_filled (mt : metric (F:=F)) B kernel ny dim ceil_ny M
    dis_size dis (x src codes : ptr) (st : store F) :
  (forall x y : ptr,
     kernel x y (Z.to_nat dim) =
       map (transposed_ref mt B x y (Z.to_nat dim)) (seq 0 B)) ->
  0 < B -> (0 <= ny)%Z -> (0 <= M)%Z -> (ny mod Z.of_nat B <> 0)%Z ->
  (M * ny <= dis_size)%Z -> (dis_size < 2 ^ 62)%Z ->
  (forall m v j, m < Z.to_nat M -> v < Z.to_nat ny -> j < Z.to_nat dim ->
     ld codes
       (transposed_index B (Z.to_nat dim) (Z.to_nat ceil_ny) m v j) =
     ld src ((m * Z.to_nat ny + v) * Z.to_nat dim + j)) ->
  exists st',
    transposed_case B kernel ny dim ceil_ny M (ny mod Z.of_nat B) dis_size
      dis x codes st = (SUCCESS, st')
    /\ filled (handle_row (metric_ref mt) x src (Z.to_nat dim) (Z.to_nat ny))
         dis st (Z.to_nat M * Z.to_nat ny) st'.
Proof.
  intros Hker HB Hny HM Hl Hsz Hmax Hlay. unfold transposed_case.
  replace (negb (ny mod Z.of_nat B =? 0)%Z) with true
    by (symmetry; apply negb_true_iff, Z.eqb_neq; done).
  apply remainder_rounds_spec
    with (Q := filled
                 (handle_row (metric_ref mt) x src (Z.to_nat dim) (Z.to_nat ny))
                 dis st)
         (dis0 := dis) (x0 := x) (y0 := codes) (rounds_total := Z.to_nat M);
    try done; try lia.
  - intros m j t Hm Hj Hjn Hf.
    eapply filled_run; [exact Hf | | lia | reflexivity].
    rewrite Hker, <- (take_ge (map _ (seq 0 B)) B)
      by (by rewrite length_map, length_seq).
    apply lanes_rows; [done|]. intros v Hv.
    apply (transposed_lane_row mt B _ _ _ (Z.to_nat M)); try done; lia.
  - intros m j t Hm Hj Hjn Hnj Hf.
    eapply filled_run; [exact Hf | | lia | ].
    + rewrite Hker. apply lanes_rows; [lia|]. intros v Hv.
      apply (transposed_lane_row mt B _ _ _ (Z.to_nat M)); try done; lia.
    + lia.
  - by rewrite ptr_add_0.
  - by rewrite ptr_add_0.
  - apply filled_start.
Qed.

End HandleValues.

(** ** The handle entry points *)

Lemma left_16 ny : Z.land ny (wrap64 (16 - 1)) = (ny mod Z.of_nat 16)%Z.
Proof. exact (land_mod_pow2 ny 4 ltac:(lia)). Qed.
Lemma left_32 ny : Z.land ny (wrap64 (32 - 1)) = (ny mod Z.of_nat 32)%Z.
Proof. exact (land_mod_pow2 ny 5 ltac:(lia)). Qed.
Lemma left_64 ny : Z.land ny (wrap64 (64 - 1)) = (ny mod Z.of_nat 64)%Z.
Proof. exact (land_mod_pow2 ny 6 ltac:(lia)). Qed.

(** Pass the two size tests and select the [case] of the block size. *)
Ltac enter_handle Hbits HB :=
  rewrite wrap64_small by (pose proof size_max_eq; nia);
  replace (_ <? _)%Z with false by lia;
  replace (_ <? _)%Z with false by lia;
  rewrite Hbits, HB;
  cbv beta iota zeta delta [orb];
  change (32 =? 32)%Z with true; cbv iota;
  first [ change (16 =? 16)%Z with true; cbv iota; rewrite left_16
        | change (32 =? 16)%Z with false; change (32 =? 32)%Z with true;
          cbv iota; rewrite left_32
        | change (64 =? 16)%Z with false; change (64 =? 32)%Z with false;
          change (64 =? 64)%Z with true; cbv iota; rewrite left_64 ].

Section HandleCalls.
Context {F : Type} `{Scalar F}.

Local Abbreviation ptr := (fptr F).

(** With a tail or without, a [case] of the [switch] succeeds when the
    declared capacity covers the [M * ny] slots and its size in bytes
    fits [size_t]. *)
Lemma transposed_case_status B kernel ny dim ceil_ny M dis_size dis
    (x y : ptr) (st : store F) :
  0 < B -> (0 <= ny)%Z -> (0 <= M)%Z ->
  (M * ny <= dis_size)%Z -> (dis_size < 2 ^ 62)%Z ->
  (transposed_case B kernel ny dim ceil_ny M (ny mod Z.of_nat B) dis_size
     dis x y st).1 = SUCCESS.
Proof.
  intros HB Hny HM Hsz Hmax. unfold transposed_case.
  destruct (negb (ny mod Z.of_nat B =? 0)%Z) eqn:El; [|done].
  apply negb_true_iff, Z.eqb_neq in El.
  destruct (remainder_rounds_spec B kernel ny dim ceil_ny dis_size dis x y
              (fun _ _ => True) (Z.to_nat M) HB Hny
              ltac:(done) ltac:(done) (Z.to_nat M) 0 dis x y st)
    as (st' & -> & _); try done; try lia.
  - by rewrite ptr_add_0.
  - by rewrite ptr_add_0.
Qed.

Lemma krl_L2sqr_ny_with_handle_status (kdh : Handle.t F) dis (x : ptr)
    dis_size x_size (st : store F) :
  Handle.data_bits kdh = 32%Z ->
  Handle.blocksize kdh = 16%Z \/ Handle.blocksize kdh = 32%Z \/
    Handle.blocksize kdh = 64%Z ->
  (0 <= Handle.ny kdh)%Z -> (0 <= Handle.M kdh)%Z ->
  (Handle.M kdh * Handle.ny kdh <= dis_size)%Z -> (dis_size < 2 ^ 62)%Z ->
  (wrap64 (Handle.d kdh * Handle.M kdh) <= x_size)%Z ->
  (krl_L2sqr_ny_with_handle (Some kdh) (Some dis) (Some x) dis_size x_size
     st).1 = SUCCESS.
Proof.
  intros Hbits HB Hny HM Hsz Hmax Hx. unfold krl_L2sqr_ny_with_handle.
  destruct HB as [HB | [HB | HB]]; enter_handle Hbits HB;
    apply transposed_case_status; first [done | lia].
Qed.

Lemma krl_inner_product_ny_with_handle_status (kdh : Handle.t F) dis (x : ptr)
    dis_size x_size (st : store F) :
  Handle.data_bits kdh = 32%Z ->
  Handle.blocksize kdh = 16%Z \/ Handle.blocksize kdh = 32%Z \/
    Handle.blocksize kdh = 64%Z ->
  (0 <= Handle.ny kdh)%Z -> (0 <= Handle.M kdh)%Z ->
  (Handle.M kdh * Handle.ny kdh <= dis_size)%Z -> (dis_size < 2 ^ 62)%Z ->
  (wrap64 (Handle.d kdh * Handle.M kdh) <= x_size)%Z ->
  (krl_inner_product_ny_with_handle (Some kdh) (Some dis) (Some x) dis_size
     x_size st).1 = SUCCESS.
Proof.
  intros Hbits HB Hny HM Hsz Hmax Hx. unfold krl_inner_product_ny_with_handle.
  destruct HB as [HB | [HB | HB]]; enter_handle Hbits HB;
    apply transposed_case_status; first [done | lia].
Qed.

End HandleCalls.

Section HandleFilled.
Context {F : Type} `{Scalar F}.
Variables (f1 : F) (fopp : F -> F).
Hypothesis Rth : ring_theory f0 f1 fadd fmul fsub fopp eq.

Local Abbreviation ptr := (fptr F).

Lemma krl_L2sqr_ny_with_handle_filled eqb (kdh : Handle.t F) dis
    (x src codes : ptr) dis_size x_size (st : store F) :
  (forall a b : F, eqb a b = true -> a = b) ->
  handle_ready eqb kdh src codes dis_size x_size ->
  exists st',
    krl_L2sqr_ny_with_handle (Some kdh) (Some dis) (Some x) dis_size x_size st
      = (SUCCESS, st')
    /\ filled
         (handle_row L2sqr_ref x src (Z.to_nat (Handle.d kdh))
            (Z.to_nat (Handle.ny kdh)))
         dis st (Z.to_nat (Handle.M kdh) * Z.to_nat (Handle.ny kdh)) st'.
Proof.
  intros Heq (Hbits & HB & Hd & Hny & HM & Hl & Hsz & Hmax & Hx & Hc & Hlay).
  pose proof (block_transposed_spec eqb _ _ _ _ _ _ _ Heq Hlay) as Hlay'.
  clear Hlay; rename Hlay' into Hlay.
  unfold krl_L2sqr_ny_with_handle, codes_ptr. rewrite Hc. cbn [default].
  destruct HB as [HB | [HB | HB]]; rewrite HB in Hl, Hlay;
    enter_handle Hbits HB;
    apply (transposed_case_filled L2 _ _ _ _ _ _ _ _ _ src);
    first [done | lia | intros x' y'].
  - apply (L2sqr_transpose_pipelined_kernel_ok f1 fopp Rth); [lia | auto].
  - apply (L2sqr_transpose_pipelined_kernel_ok f1 fopp Rth); [lia | auto].
  - apply (transpose_kernel_ok f1 fopp Rth);
      [apply (L2_ok f1 fopp Rth) | lia | auto].
Qed.

Lemma krl_inner_product_ny_with_handle_filled eqb (kdh : Handle.t F) dis
    (x src codes : ptr) dis_size x_size (st : store F) :
  (forall a b : F, eqb a b = true -> a = b) ->
  handle_ready eqb kdh src codes dis_size x_size ->
  exists st',
    krl_inner_product_ny_with_handle (Some kdh) (Some dis) (Some x) dis_size
      x_size st = (SUCCESS, st')
    /\ filled
         (handle_row ipdis_ref x src (Z.to_nat (Handle.d kdh))
            (Z.to_nat (Handle.ny kdh)))
         dis st (Z.to_nat (Handle.M kdh) * Z.to_nat (Handle.ny kdh)) st'.
Proof.
  intros Heq (Hbits & HB & Hd & Hny & HM & Hl & Hsz & Hmax & Hx & Hc & Hlay).
  pose proof (block_transposed_spec eqb _ _ _ _ _ _ _ Heq Hlay) as Hlay'.
  clear Hlay; rename Hlay' into Hlay.
  unfold krl_inner_product_ny_with_handle, codes_ptr. rewrite Hc.
  cbn [default].
  destruct HB as [HB | [HB | HB]]; rewrite HB in Hl, Hlay;
    enter_handle Hbits HB;
    apply (transposed_case_filled IP _ _ _ _ _ _ _ _ _ src);
    first [done | lia | intros x' y'];
    (apply (transpose_kernel_ok f1 fopp Rth);
       [apply (IP_ok f1 fopp Rth) | lia | auto]).
Qed.

End HandleFilled.

(** * Part III: the properties of the specification *)

Section BatchClaims.
Context {F : Type} `{Scalar F} (f1 : F) (fopp : F -> F).
Hypothesis Rth : ring_theory f0 f1 fadd fmul fsub fopp eq.

Local Abbreviation ptr := (fptr F).

Lemma filled_slots_written_once (row : nat -> F) dis n (st st' : store F) :
  filled row dis st n st' -> dis + n <= length (cells st) ->
  slots_written_once row dis n st (SUCCESS, st').
Proof.
  intros Hf Hlen. exists st'. split; [done|]. split; [|split].
  - intros j. by apply (filled_writes row).
  - intros k Hk. by apply (filled_lookup row dis st st' n).
  - intros j Hj. by apply (filled_outside row dis st st' n).
Qed.




End BatchClaims.

Section HandleClaims.
Context {F : Type} `{Scalar F} (f1 : F) (fopp : F -> F).
Hypothesis Rth : ring_theory f0 f1 fadd fmul fsub fopp eq.

Local Abbreviation ptr := (fptr F).

Lemma handle_row_dense (ref : ptr -> ptr -> nat -> F) (x src : ptr) d n m v :
  v < n ->
  handle_row ref x src d n (m * n + v) =
    dense_row ref (x +& m * d) (src +& m * n * d) d v.
Proof.
  intros Hv. unfold handle_row, dense_row.
  replace ((m * n + v) / n) with m
    by (apply (Nat.div_unique _ n m v); lia).
  rewrite ptr_add_add. do 2 f_equal. lia.
Qed.

(** What one query of a handle call and the dense call on the rows of the
    same query leave in the slots of that query. *)
Lemma handle_query_dense (ref : ptr -> ptr -> nat -> F) (x src : ptr) d n M
    dis (st st' stm : store F) m v :
  filled (handle_row ref x src d n) dis st (M * n) st' ->
  filled (dense_row ref (x +& m * d) (src +& m * n * d) d) (dis + m * n) st n
    stm ->
  dis + M * n <= length (cells st) -> m < M -> v < n ->
  cells st' !! (dis + m * n + v) = cells stm !! (dis + m * n + v)
  /\ cells st' !! (dis + m * n + v) =
       Some (ref (x +& m * d) (src +& (m * n + v) * d) d).
Proof.
  intros Hf Hfm Hlen Hm Hv.
  assert (m * n + n <= M * n) by nia.
  rewrite <- (Nat.add_assoc dis), (filled_lookup _ _ _ _ _ (m * n + v) Hf)
    by lia.
  rewrite Nat.add_assoc, (filled_lookup _ _ _ _ _ v Hfm) by lia.
  rewrite handle_row_dense by done. split; [done|].
  unfold dense_row. rewrite ptr_add_add. do 3 f_equal. lia.
Qed.


End HandleClaims.

Section ValidationClaims.
Context {F : Type} `{Scalar F}.

Local Abbreviation ptr := (fptr F).

(** Decide the tests of the validation from the hypotheses at hand. *)
Ltac decide_tests :=
  repeat match goal with
    | |- context [(?a <? ?b)%Z] =>
        first [ replace (a <? b)%Z with true by lia
              | replace (a <? b)%Z with false by lia ]
    | |- context [(?a >? ?b)%Z] =>
        first [ replace (a >? b)%Z with true by lia
              | replace (a >? b)%Z with false by lia ]
    end;
  rewrite ?orb_true_r, ?orb_true_l; cbn [orb].

(** C5, for the entry points that take the numbers as arguments: every
    entry point with a dimension argument returns [INVALPARAM] for [d = 0]
    and for [d = 65536] (for every [d] outside [1, 65535]), and every one
    with an [ny] argument returns it for [ny = 0] (for every [ny] outside
    [1, 2^30]), whatever the pointers; with valid numbers, every entry
    point, the handle-based ones included, returns [INVALPOINTER] when a
    required pointer is null; the buffer is left as it was in all these
    calls.  The handle-based entry points read [d] and [ny] from the handle
    and test neither. *)
Theorem validation_short_circuit (x y : option ptr) (ids : option (list Z))
    (dis : option nat) (kdh : option (Handle.t F)) d ny dis_size x_size
    (st : store F) :
  ((d < 1 \/ 65535 < d)%Z ->
     rejected INVALPARAM st (krl_L2sqr x y d dis dis_size st)
     /\ rejected INVALPARAM st (krl_ipdis x y d dis dis_size st))
  /\ ((d < 1 \/ 65535 < d \/ ny < 1 \/ 2 ^ 30 < ny)%Z ->
        rejected INVALPARAM st (krl_L2sqr_ny dis x y ny d dis_size st)
        /\ rejected INVALPARAM st
             (krl_inner_product_ny dis x y ny d dis_size st)
        /\ rejected INVALPARAM st
             (krl_L2sqr_by_idx dis x y ids d ny dis_size st)
        /\ rejected INVALPARAM st
             (krl_inner_product_by_idx dis x y ids d ny dis_size st))
  /\ ((1 <= d <= 65535)%Z -> x = None \/ y = None \/ dis = None ->
        rejected INVALPOINTER st (krl_L2sqr x y d dis dis_size st)
        /\ rejected INVALPOINTER st (krl_ipdis x y d dis dis_size st))
  /\ ((1 <= d <= 65535)%Z -> (1 <= ny <= 2 ^ 30)%Z ->
      x = None \/ y = None \/ dis = None ->
        rejected INVALPOINTER st (krl_L2sqr_ny dis x y ny d dis_size st)
        /\ rejected INVALPOINTER st
             (krl_inner_product_ny dis x y ny d dis_size st))
  /\ ((1 <= d <= 65535)%Z -> (1 <= ny <= 2 ^ 30)%Z ->
      x = None \/ y = None \/ ids = None \/ dis = None ->
        rejected INVALPOINTER st
          (krl_L2sqr_by_idx dis x y ids d ny dis_size st)
        /\ rejected INVALPOINTER st
             (krl_inner_product_by_idx dis x y ids d ny dis_size st))
  /\ (kdh = None \/ dis = None \/ x = None ->
        rejected INVALPOINTER st
          (krl_L2sqr_ny_with_handle kdh dis x dis_size x_size st)
        /\ rejected INVALPOINTER st
             (krl_inner_product_ny_with_handle kdh dis x dis_size x_size st)).
Proof.
  unfold rejected, krl_L2sqr, krl_ipdis, krl_L2sqr_ny, krl_inner_product_ny,
    krl_L2sqr_by_idx, krl_inner_product_by_idx, krl_L2sqr_ny_with_handle,
    krl_inner_product_ny_with_handle.
  repeat apply conj.
  - intros [Hbad | Hbad]; split; decide_tests; done.
  - intros Hbad.
    assert (((d <? 1) || (d >? 65535) || (ny <? 1) || (ny >? 2 ^ 30))%Z = true)
      as -> by (rewrite !orb_true_iff; lia).
    done.
  - by intros Hd [-> | [-> | ->]]; split; decide_tests; repeat case_match.
  - by intros Hd Hny [-> | [-> | ->]]; split; decide_tests;
      repeat case_match.
  - by intros Hd Hny [-> | [-> | [-> | ->]]]; split; decide_tests;
      repeat case_match.
  - by intros [-> | [-> | ->]]; split; repeat case_match.
Qed.


(** C7: a handle whose [data_bits] is not 32, 16 and 8 included, makes
    both handle entry points return [INVALPARAM] with no kernel invoked and
    the buffer left as it was. *)
Theorem unsupported_data_bits_rejected (kdh : Handle.t F) dis (x : ptr)
    dis_size x_size (st : store F) :
  Handle.data_bits kdh <> 32%Z ->
  rejected INVALPARAM st
    (krl_L2sqr_ny_with_handle (Some kdh) (Some dis) (Some x) dis_size x_size
       st)
  /\ rejected INVALPARAM st
       (krl_inner_product_ny_with_handle (Some kdh) (Some dis) (Some x)
          dis_size x_size st).
Proof.
  intros Hbits%Z.eqb_neq.
  unfold rejected, krl_L2sqr_ny_with_handle, krl_inner_product_ny_with_handle.
  rewrite Hbits. split; repeat case_match; done.
Qed.

(** C10: with [data_bits = 32], non-null pointers and both size tests
    passed, a block size other than 16, 32 and 64 selects no [case] of the
    [switch]: both entry points return [SUCCESS] and the buffer is left as
    it was. *)
Theorem unknown_blocksize_succeeds_silently (kdh : Handle.t F) dis (x : ptr)
    dis_size x_size (st : store F) :
  Handle.data_bits kdh = 32%Z ->
  Handle.blocksize kdh <> 16%Z -> Handle.blocksize kdh <> 32%Z ->
  Handle.blocksize kdh <> 64%Z ->
  (wrap64 (Handle.M kdh * Handle.ny kdh) <= dis_size)%Z ->
  (wrap64 (Handle.d kdh * Handle.M kdh) <= x_size)%Z ->
  krl_L2sqr_ny_with_handle (Some kdh) (Some dis) (Some x) dis_size x_size st
    = (SUCCESS, st)
  /\ krl_inner_product_ny_with_handle (Some kdh) (Some dis) (Some x) dis_size
       x_size st = (SUCCESS, st).
Proof.
  intros Hbits H16%Z.eqb_neq H32%Z.eqb_neq H64%Z.eqb_neq Hsz Hx.
  unfold krl_L2sqr_ny_with_handle, krl_inner_product_ny_with_handle.
  replace (dis_size <? _)%Z with false by lia.
  replace (x_size <? _)%Z with false by lia.
  rewrite Hbits, H16, H32, H64. done.
Qed.

End ValidationClaims.

Section RemainderClaims.
Context {F : Type} `{Scalar F} (f1 : F) (fopp : F -> F).
Hypothesis Rth : ring_theory f0 f1 fadd fmul fsub fopp eq.

Local Abbreviation ptr := (fptr F).

(** Each kernel of a size class produces the [B] values of its block. *)
Lemma transposed_kernels_length B kernel d (x y : ptr) :
  In (B, kernel) transposed_kernels -> 1 <= d -> length (kernel x y d) = B.
Proof.
  intros Hin Hd. unfold transposed_kernels in Hin. cbn [In] in Hin.
  destruct Hin as [E|[E|[E|[E|[E|[E|[]]]]]]]; injection E as <- <-.
  1-2: unfold krl_L2sqr_continuous_transpose_mini_kernel,
         krl_L2sqr_continuous_transpose_medium_kernel;
       rewrite (L2sqr_transpose_pipelined_kernel_ok f1 fopp Rth) by auto;
       by rewrite length_map, length_seq.
  1: unfold krl_L2sqr_continuous_transpose_large_kernel;
     rewrite (transpose_kernel_ok f1 fopp Rth)
       by first [apply (L2_ok f1 fopp Rth) | auto];
     by rewrite length_map, length_seq.
  all: unfold krl_inner_product_continuous_transpose_mini_kernel,
         krl_inner_product_continuous_transpose_medium_kernel,
         krl_inner_product_continuous_transpose_large_kernel;
       rewrite (transpose_kernel_ok f1 fopp Rth)
         by first [apply (IP_ok f1 fopp Rth) | auto];
       by rewrite length_map, length_seq.
Qed.


End RemainderClaims.

Section SuccessClaims.
Context {F : Type} `{Scalar F}.

Local Abbreviation ptr := (fptr F).

(** C9, for declared capacities below [2^62]: for a handle with
    [data_bits = 32] and block size 16, 32 or 64, a call whose declared
    capacity covers the [M * ny] slots and whose size in bytes fits
    [size_t] passes the validation and returns [SUCCESS]: at every query
    [m] the capacity that remains after the full blocks,
    [dis_size - (m * ny + i)], is at least [left = ny mod B], and neither
    [UNSAFEMEM] branch is taken. *)
Theorem handle_call_succeeds (kdh : Handle.t F) dis (x : ptr) dis_size x_size
    (st : store F) :
  Handle.data_bits kdh = 32%Z ->
  Handle.blocksize kdh = 16%Z \/ Handle.blocksize kdh = 32%Z \/
    Handle.blocksize kdh = 64%Z ->
  (0 <= Handle.ny kdh)%Z -> (0 <= Handle.M kdh)%Z ->
  (Handle.M kdh * Handle.ny kdh <= dis_size)%Z -> (dis_size < 2 ^ 62)%Z ->
  (wrap64 (Handle.d kdh * Handle.M kdh) <= x_size)%Z ->
  (krl_L2sqr_ny_with_handle (Some kdh) (Some dis) (Some x) dis_size x_size
     st).1 = SUCCESS
  /\ (krl_inner_product_ny_with_handle (Some kdh) (Some dis) (Some x)
        dis_size x_size st).1 = SUCCESS
  /\ forall m,
       (0 <= m < Handle.M kdh)%Z ->
       let ny := Handle.ny kdh in
       let B := Handle.blocksize kdh in
       (ny mod B <= dis_size - (m * ny + B * (ny / B)))%Z.
Proof.
  intros Hbits HB Hny HM Hsz Hmax Hx. split; [|split].
  - by apply krl_L2sqr_ny_with_handle_status.
  - by apply krl_inner_product_ny_with_handle_status.
  - intros m Hm ny B.
    assert (0 < B)%Z by (unfold B; lia).
    pose proof (Z.div_mod ny B ltac:(lia)).
    assert (m * ny + ny <= Handle.M kdh * ny)%Z by (unfold ny in *; nia).
    unfold ny in *. lia.
Qed.

End SuccessClaims.

(** * Part IV: the scenarios of the specification and concrete calls *)

(** The batch scenario in binary32: [d = 1], [ny = 3], [x = [5]],
    [y = [0, 5, 10]] gives [[25, 0, 25]]. *)
Example krl_L2sqr_ny_binary32 :
  krl_L2sqr_ny (Some 0) (Some (floats32 [5%Z]))
    (Some (floats32 [0; 5; 10]%Z)) 3 1 3 (Store (map f32_of_Z [7; 7; 7]%Z) [])
  = (SUCCESS, Store (map f32_of_Z [25; 0; 25]%Z) [(0, 2); (2, 1)]).
Proof. vm_compute. reflexivity. Qed.

(** The single-pair scenario in binary32: [d = 4], [x = [1, 2, 3, 4]],
    [y = [4, 3, 2, 1]] gives 20 for both metrics. *)
Example krl_L2sqr_binary32 :
  krl_L2sqr (Some (floats32 [1; 2; 3; 4]%Z)) (Some (floats32 [4; 3; 2; 1]%Z))
    4 (Some 0) 1 (Store [f32_of_Z 7] [])
  = (SUCCESS, Store [f32_of_Z 20] [(0, 1)]).
Proof. vm_compute. reflexivity. Qed.

Example krl_ipdis_binary32 :
  krl_ipdis (Some (floats32 [1; 2; 3; 4]%Z)) (Some (floats32 [4; 3; 2; 1]%Z))
    4 (Some 0) 1 (Store [f32_of_Z 7] [])
  = (SUCCESS, Store [f32_of_Z 20] [(0, 1)]).
Proof. vm_compute. reflexivity. Qed.





(** C5: a handle whose [ny] is 0, and one whose [d] is 0, are accepted by
    the handle entry point, which returns [SUCCESS]; with [d = 0] the slot
    is written. *)
Lemma handle_entry_accepts_zero_sizes :
  krl_L2sqr_ny_with_handle (Some (handle_of 32 16 4 0 1 []))
    (Some 0) (Some (floats [1; 2; 3; 4]%Z)) 0 4 (fresh_buffer 1)
  = (SUCCESS, fresh_buffer 1)
  /\ krl_L2sqr_ny_with_handle (Some (handle_of 32 16 0 1 1 (replicate 32 3%Z)))
       (Some 0) (Some (floats [1; 2]%Z)) 1 0 (fresh_buffer 1)
     = (SUCCESS, Store [5%Z] [(0, 1)])
  /\ krl_inner_product_ny_with_handle
       (Some (handle_of 32 16 0 1 1 (replicate 32 3%Z)))
       (Some 0) (Some (floats [1; 2]%Z)) 1 0 (fresh_buffer 1)
     = (SUCCESS, Store [3%Z] [(0, 1)])
  /\ SUCCESS <> INVALPARAM.
Proof. repeat split; vm_compute; congruence. Qed.

Lemma validation_short_circuit_witness :
  rejected INVALPARAM (fresh_buffer 3)
    (krl_L2sqr_ny (Some 0) (Some (floats [5%Z])) (Some (floats [0; 5; 10]%Z))
       3 0 3 (fresh_buffer 3))
  /\ rejected INVALPARAM (fresh_buffer 3)
       (krl_L2sqr_ny (Some 0) (Some (floats [5%Z]))
          (Some (floats [0; 5; 10]%Z)) 0 1 3 (fresh_buffer 3))
  /\ rejected INVALPOINTER (fresh_buffer 3)
       (krl_L2sqr_ny (Some 0) (Some (floats [5%Z])) None 3 1 3
          (fresh_buffer 3))
  /\ rejected INVALPOINTER (fresh_buffer 3)
       (krl_L2sqr_ny_with_handle None (Some 0) (Some (floats [5%Z])) 3 1
          (fresh_buffer 3)).
Proof.
  pose proof (validation_short_circuit (Some (floats [5%Z]))
                (Some (floats [0; 5; 10]%Z)) None (Some 0) None 0 3 3 0
                (fresh_buffer 3)) as (_ & Hd & _).
  pose proof (validation_short_circuit (Some (floats [5%Z]))
                (Some (floats [0; 5; 10]%Z)) None (Some 0) None 1 0 3 0
                (fresh_buffer 3)) as (_ & Hny & _).
  pose proof (validation_short_circuit (Some (floats [5%Z])) None None
                (Some 0) None 1 3 3 1 (fresh_buffer 3))
    as (_ & _ & _ & Hp & _ & Hh).
  split; [apply Hd; lia|]. split; [apply Hny; lia|].
  split.
  - apply Hp; [lia | lia |]. right. left. reflexivity.
  - apply Hh. left. reflexivity.
Defined.


Lemma unsupported_data_bits_rejected_witness :
  rejected INVALPARAM (fresh_buffer 3)
    (krl_L2sqr_ny_with_handle
       (Some (handle_of 16 16 1 3 1 (replicate 16 0%Z))) (Some 0)
       (Some (floats [5%Z])) 3 1 (fresh_buffer 3))
  /\ rejected INVALPARAM (fresh_buffer 3)
       (krl_inner_product_ny_with_handle
          (Some (handle_of 16 16 1 3 1 (replicate 16 0%Z))) (Some 0)
          (Some (floats [5%Z])) 3 1 (fresh_buffer 3)).
Proof.
  apply (unsupported_data_bits_rejected
           (handle_of 16 16 1 3 1 (replicate 16 0%Z)) 0 (floats [5%Z]) 3 1
           (fresh_buffer 3)).
  simpl. lia.
Defined.

Lemma unknown_blocksize_succeeds_silently_witness :
  krl_L2sqr_ny_with_handle (Some (handle_of 32 8 1 3 1 (replicate 8 0%Z)))
    (Some 0) (Some (floats [5%Z])) 3 1 (fresh_buffer 3)
  = (SUCCESS, fresh_buffer 3)
  /\ krl_inner_product_ny_with_handle
       (Some (handle_of 32 8 1 3 1 (replicate 8 0%Z)))
       (Some 0) (Some (floats [5%Z])) 3 1 (fresh_buffer 3)
     = (SUCCESS, fresh_buffer 3).
Proof.
  apply (unknown_blocksize_succeeds_silently
           (handle_of 32 8 1 3 1 (replicate 8 0%Z)) 0 (floats [5%Z]) 3 1
           (fresh_buffer 3));
    first [reflexivity | (simpl; lia) | (vm_compute; congruence)].
Defined.


(** C9: a declared capacity of [2^62] slots passes the validation, but its
    size in bytes, [2^62 * sizeof(float)], wraps to 0 in [size_t]: the
    bounded copy of the one-slot tail is refused and both entry points
    return [UNSAFEMEM]. *)
Lemma handle_call_unsafemem_reachable :
  let kdh := handle_of 32 16 1 1 1 (replicate 16 0%Z) in
  let st := fresh_buffer 1 in
  (Handle.M kdh * Handle.ny kdh <= 2 ^ 62)%Z
  /\ (Handle.d kdh * Handle.M kdh <= 1)%Z
  /\ krl_L2sqr_ny_with_handle (Some kdh) (Some 0) (Some (floats [1%Z]))
       (2 ^ 62) 1 st = (UNSAFEMEM, st)
  /\ krl_inner_product_ny_with_handle (Some kdh) (Some 0)
       (Some (floats [1%Z])) (2 ^ 62) 1 st = (UNSAFEMEM, st)
  /\ UNSAFEMEM <> SUCCESS.
Proof. repeat split; vm_compute; congruence. Qed.

Lemma handle_call_succeeds_witness :
  let kdh := handle_of 32 16 1 3 2 (replicate 32 0%Z) in
  (krl_L2sqr_ny_with_handle (Some kdh) (Some 0) (Some (floats [1; 2]%Z)) 6 2
     (fresh_buffer 6)).1 = SUCCESS
  /\ (krl_inner_product_ny_with_handle (Some kdh) (Some 0)
        (Some (floats [1; 2]%Z)) 6 2 (fresh_buffer 6)).1 = SUCCESS.
Proof.
  intros kdh.
  pose proof (handle_call_succeeds kdh 0 (floats [1; 2]%Z) 6 2
                (fresh_buffer 6) ltac:(reflexivity)
                ltac:(left; reflexivity) ltac:(simpl; lia) ltac:(simpl; lia)
                ltac:(simpl; lia) ltac:(simpl; lia)
                ltac:(vm_compute; discriminate)) as (H2 & HI & _).
  split; [exact H2 | exact HI].
Defined.

(** * Part V: further properties of the code *)

(** ** The branch without a tail *)

Section FullRounds.
Context {F : Type} `{Scalar F}.

Local Abbreviation ptr := (fptr F).

(** The loop over the blocks of the branch [else] covers [n] when [B]
    divides it. *)
Lemma block_loop_full {St : Type} (P : nat -> St -> Prop) B n
    (body : nat -> St -> St) st i st1 :
  0 < B -> (exists q, n = B * q) ->
  for_loop n (fun i => i <? n) B body 0 st = (i, st1) ->
  P 0 st ->
  (forall j t, (exists k, j = B * k) -> j + B <= n -> P j t ->
               P (j + B) (body j t)) ->
  i = n /\ P i st1.
Proof.
  intros HB [q Hq] E H0 Hstep.
  pose proof (for_loop_stops _ _ _ n _ _ _ _ _ E) as Hstop.
  assert ((i <? n) = false) as Hge%Nat.ltb_ge
    by (apply Hstop; [intros j Hj%Nat.ltb_lt; lia | lia | lia]).
  apply for_loop_inv
    with (Inv := fun j t => (exists k, j = B * k) /\ j <= n /\ P j t) in E.
  - destruct E as (Hk & Hle & HP). split; [lia|done].
  - split; [exists 0; lia|]. split; [lia|done].
  - intros j t ([k ->] & Hj & HP) Hc%Nat.ltb_lt.
    assert (k < q) by (apply (Nat.mul_lt_mono_pos_l B); lia).
    assert (B * k + B <= n) by nia.
    split; [exists (k + 1); lia|]. split; [lia|].
    apply Hstep; [by exists k | lia | done].
Qed.

Section Rounds.
Variables (B : nat) (kernel : ptr -> ptr -> nat -> list F).
Variables (ny dim ceil_ny M : Z) (dis0 : nat) (x0 y0 : ptr).
Variable Q : nat -> store F -> Prop.

Local Abbreviation n := (Z.to_nat ny).
Local Abbreviation dn := (Z.to_nat dim).
Local Abbreviation cn := (Z.to_nat ceil_ny).

Hypothesis B_pos : 0 < B.
Hypothesis ny_blocks : exists q, n = B * q.

Hypothesis Q_block : forall m j t,
  m < Z.to_nat M -> (exists k, j = B * k) -> j + B <= n ->
  Q (m * n + j) t ->
  Q (m * n + j + B)
    (run_kernel (dis0 + m * n + j)
       (kernel (x0 +& m * dn) (y0 +& m * (cn * dn) +& j * dn) dn) t).

Lemma full_rounds_spec (st : store F) :
  Q 0 st ->
  Q (Z.to_nat M * n) (full_rounds B kernel ny dim ceil_ny M dis0 x0 y0 st).
Proof.
  intros HQ. unfold full_rounds.
  destruct (for_loop (Z.to_nat M) _ 1 _ 0 (dis0, x0, y0, st))
    as [m' [[[dis' x'] y'] st']] eqn:E.
  pose proof (for_loop_stops _ _ _ (Z.to_nat M) _ _ _ _ _ E) as Hstop.
  assert ((Z.of_nat m' <? M)%Z = false) as Hge%Z.ltb_ge
    by (apply Hstop; [intros j Hj%Z.ltb_lt; lia | lia | lia]).
  apply for_loop_inv
    with (Inv := fun m '(dis, x, y, t) =>
                   m <= Z.to_nat M /\ dis = dis0 + m * n /\
                   x = x0 +& m * dn /\ y = y0 +& m * (cn * dn) /\
                   Q (m * n) t) in E.
  - destruct E as (Hm & _ & _ & _ & HQ').
    by replace (Z.to_nat M) with m' by lia.
  - split; [lia|]. split; [lia|]. rewrite !ptr_add_0. done.
  - intros m [[[dis x] y] t] (Hm & -> & -> & -> & HQm) Hc%Z.ltb_lt.
    destruct (for_loop n _ B _ 0 t) as [i t1] eqn:Ei.
    apply block_loop_full
      with (P := fun j t => Q (m * n + j) t) in Ei as [-> HQn];
      [|done|done|by rewrite Nat.add_0_r|].
    2:{ intros j u Hj Hjn HP. rewrite Nat.add_assoc.
        apply Q_block; [lia|done..]. }
    split; [lia|]. split; [lia|]. rewrite !ptr_add_add.
    split; [f_equal; lia|]. split; [f_equal; lia|].
    by replace ((m + 1) * n) with (m * n + n) by lia.
Qed.

End Rounds.

End FullRounds.

Section HandleAny.
Context {F : Type} `{Scalar F}.
Variables (f1 : F) (fopp : F -> F).
Hypothesis Rth : ring_theory f0 f1 fadd fmul fsub fopp eq.

Local Abbreviation ptr := (fptr F).

(** One [case] of the [switch], with a tail or without. *)
Lemma transposed_case_filled_any (mt : metric (F:=F)) B kernel ny dim ceil_ny
    M dis_size dis (x src codes : ptr) (st : store F) :
  (forall x y : ptr,
     kernel x y (Z.to_nat dim) =
       map (transposed_ref mt B x y (Z.to_nat dim)) (seq 0 B)) ->
  0 < B -> (0 <= ny)%Z -> (0 <= M)%Z ->
  (M * ny <= dis_size)%Z -> (dis_size < 2 ^ 62)%Z ->
  (forall m v j, m < Z.to_nat M -> v < Z.to_nat ny -> j < Z.to_nat dim ->
     ld codes
       (transposed_index B (Z.to_nat dim) (Z.to_nat ceil_ny) m v j) =
     ld src ((m * Z.to_nat ny + v) * Z.to_nat dim + j)) ->
  exists st',
    transposed_case B kernel ny dim ceil_ny M (ny mod Z.of_nat B) dis_size
      dis x codes st = (SUCCESS, st')
    /\ filled (handle_row (metric_ref mt) x src (Z.to_nat dim) (Z.to_nat ny))
         dis st (Z.to_nat M * Z.to_nat ny) st'.
Proof.
  intros Hker HB Hny HM Hsz Hmax Hlay.
  destruct (Z.eq_dec (ny mod Z.of_nat B)%Z 0%Z) as [El | El];
    [|by apply transposed_case_filled].
  unfold transposed_case. rewrite El. cbn [Z.eqb negb].
  eexists. split; [reflexivity|].
  apply full_rounds_spec
    with (Q := filled
                 (handle_row (metric_ref mt) x src (Z.to_nat dim) (Z.to_nat ny))
                 dis st); [done| | |apply filled_start].
  - exists (Z.to_nat (ny / Z.of_nat B)).
    pose proof (Z.div_mod ny (Z.of_nat B) ltac:(lia)) as Hdm.
    assert (0 <= ny / Z.of_nat B)%Z by (apply Z.div_pos; lia). nia.
  - intros m j t Hm Hj Hjn Hf.
    eapply filled_run; [exact Hf | | lia | reflexivity].
    rewrite Hker, <- (take_ge (map _ (seq 0 B)) B)
      by (by rewrite length_map, length_seq).
    apply lanes_rows; [done|]. intros v Hv.
    apply (transposed_lane_row mt B _ _ _ (Z.to_nat M)); try done; lia.
Qed.

Ltac open_handle Hr :=
  destruct Hr as (Hbits & HB & Hd & Hny & HM & Hsz & Hmax & Hx & Hc & Hlay);
  match goal with
  | Heq : forall a b, _ a b = true -> a = b |- _ =>
      pose proof (block_transposed_spec _ _ _ _ _ _ _ _ Heq Hlay) as Hlay'
  end;
  clear Hlay; rename Hlay' into Hlay.

Lemma krl_L2sqr_ny_with_handle_filled_any eqb (kdh : Handle.t F) dis
    (x src codes : ptr) dis_size x_size (st : store F) :
  (forall a b : F, eqb a b = true -> a = b) ->
  handle_fits eqb kdh src codes dis_size x_size ->
  exists st',
    krl_L2sqr_ny_with_handle (Some kdh) (Some dis) (Some x) dis_size x_size st
      = (SUCCESS, st')
    /\ filled
         (handle_row L2sqr_ref x src (Z.to_nat (Handle.d kdh))
            (Z.to_nat (Handle.ny kdh)))
         dis st (Z.to_nat (Handle.M kdh) * Z.to_nat (Handle.ny kdh)) st'.
Proof.
  intros Heq Hr. open_handle Hr.
  unfold krl_L2sqr_ny_with_handle, codes_ptr. rewrite Hc. cbn [default].
  destruct HB as [HB | [HB | HB]]; rewrite HB in Hlay;
    enter_handle Hbits HB;
    apply (transposed_case_filled_any L2 _ _ _ _ _ _ _ _ _ src);
    first [done | lia | intros x' y'].
  - apply (L2sqr_transpose_pipelined_kernel_ok f1 fopp Rth); [lia | auto].
  - apply (L2sqr_transpose_pipelined_kernel_ok f1 fopp Rth); [lia | auto].
  - apply (transpose_kernel_ok f1 fopp Rth);
      [apply (L2_ok f1 fopp Rth) | lia | auto].
Qed.

Lemma krl_inner_product_ny_with_handle_filled_any eqb (kdh : Handle.t F) dis
    (x src codes : ptr) dis_size x_size (st : store F) :
  (forall a b : F, eqb a b = true -> a = b) ->
  handle_fits eqb kdh src codes dis_size x_size ->
  exists st',
    krl_inner_product_ny_with_handle (Some kdh) (Some dis) (Some x) dis_size
      x_size st = (SUCCESS, st')
    /\ filled
         (handle_row ipdis_ref x src (Z.to_nat (Handle.d kdh))
            (Z.to_nat (Handle.ny kdh)))
         dis st (Z.to_nat (Handle.M kdh) * Z.to_nat (Handle.ny kdh)) st'.
Proof.
  intros Heq Hr. open_handle Hr.
  unfold krl_inner_product_ny_with_handle, codes_ptr. rewrite Hc.
  cbn [default].
  destruct HB as [HB | [HB | HB]]; rewrite HB in Hlay;
    enter_handle Hbits HB;
    apply (transposed_case_filled_any IP _ _ _ _ _ _ _ _ _ src);
    first [done | lia | intros x' y'];
    (apply (transpose_kernel_ok f1 fopp Rth);
       [apply (IP_ok f1 fopp Rth) | lia | auto]).
Qed.

End HandleAny.

(** ** The kernels, one by one *)

Section KernelProperties.
Context {F : Type} `{Scalar F} (f1 : F) (fopp : F -> F).
Hypothesis Rth : ring_theory f0 f1 fadd fmul fsub fopp eq.

Local Abbreviation ptr := (fptr F).

Lemma rows_from_start (ref : ptr -> ptr -> nat -> F) (x y : ptr) d w :
  map (fun yk => ref x yk d) (rows y d w) =
    map (fun k => ref x (y +& k * d) d) (seq 0 w).
Proof. unfold rows. by rewrite map_map. Qed.

(** X1: for every dimension [d], multiple of the vector width or not, each
    dense L2 kernel of width 2, 4, 8, 16 and 24 returns, for the
    consecutive rows [y + k * d], the sums of the squared differences of
    the [d] components: the values of the plain scalar loop. *)
Theorem dense_L2sqr_kernels_compute_rows (x y : ptr) d :
  krl_L2sqr_batch2 x y d = [L2sqr_ref x y d; L2sqr_ref x (y +& d) d]
  /\ krl_L2sqr_batch4 x y d =
       map (fun k => L2sqr_ref x (y +& k * d) d) (seq 0 4)
  /\ krl_L2sqr_batch8 x y d =
       map (fun k => L2sqr_ref x (y +& k * d) d) (seq 0 8)
  /\ krl_L2sqr_batch16 x y d =
       map (fun k => L2sqr_ref x (y +& k * d) d) (seq 0 16)
  /\ krl_L2sqr_batch24 x y d =
       map (fun k => L2sqr_ref x (y +& k * d) d) (seq 0 24).
Proof.
  pose proof (L2_ok f1 fopp Rth) as Hok.
  unfold krl_L2sqr_batch2, krl_L2sqr_batch4, krl_L2sqr_batch8,
    krl_L2sqr_batch16, krl_L2sqr_batch24.
  rewrite (batch2_kernel_ok f1 fopp Rth L2), !(batch_kernel_ok f1 fopp Rth L2)
    by done.
  repeat split; apply (rows_from_start L2sqr_ref).
Qed.

(** X2: the same for the dense inner-product kernels of width 2, 4, 8 and
    16: the sums of the products of the [d] components. *)
Theorem dense_inner_product_kernels_compute_rows (x y : ptr) d :
  krl_inner_product_batch2 x y d = [ipdis_ref x y d; ipdis_ref x (y +& d) d]
  /\ krl_inner_product_batch4 x y d =
       map (fun k => ipdis_ref x (y +& k * d) d) (seq 0 4)
  /\ krl_inner_product_batch8 x y d =
       map (fun k => ipdis_ref x (y +& k * d) d) (seq 0 8)
  /\ krl_inner_product_batch16 x y d =
       map (fun k => ipdis_ref x (y +& k * d) d) (seq 0 16).
Proof.
  pose proof (IP_ok f1 fopp Rth) as Hok.
  unfold krl_inner_product_batch2, krl_inner_product_batch4,
    krl_inner_product_batch8, krl_inner_product_batch16.
  rewrite (batch2_kernel_ok f1 fopp Rth IP), !(batch_kernel_ok f1 fopp Rth IP)
    by done.
  repeat split; apply (rows_from_start ipdis_ref).
Qed.

(** X3: for every dimension [d], each gather L2 kernel, with prefetch or
    without, returns the L2 distance of the query to each of the rows its
    pointer array names, in the order of the array. *)
Theorem gather_L2sqr_kernels_compute_rows (x y0 y1 : ptr)
    (y4 y8 y16 y24 : list ptr) d :
  length y4 = 4 -> length y8 = 8 -> length y16 = 16 -> length y24 = 24 ->
  krl_L2sqr_idx_batch2 x y0 y1 d = [L2sqr_ref x y0 d; L2sqr_ref x y1 d]
  /\ krl_L2sqr_idx_batch4 x y4 d = map (fun yk => L2sqr_ref x yk d) y4
  /\ krl_L2sqr_idx_prefetch_batch8 x y8 d =
       map (fun yk => L2sqr_ref x yk d) y8
  /\ krl_L2sqr_idx_prefetch_batch16 x y16 d =
       map (fun yk => L2sqr_ref x yk d) y16
  /\ krl_L2sqr_idx_prefetch_batch24 x y24 d =
       map (fun yk => L2sqr_ref x yk d) y24.
Proof.
  intros _ _ _ _.
  pose proof (L2_ok f1 fopp Rth) as Hok.
  unfold krl_L2sqr_idx_batch4, krl_L2sqr_idx_prefetch_batch8,
    krl_L2sqr_idx_prefetch_batch16.
  rewrite (krl_L2sqr_idx_batch2_ok f1 fopp Rth),
    (batch_kernel_ok f1 fopp Rth L2) by done.
  rewrite !(L2sqr_idx_prefetch_kernel_ok f1 fopp Rth),
    (krl_L2sqr_idx_prefetch_batch24_ok f1 fopp Rth).
  done.
Qed.

(** X4: the same for the gather inner-product kernels of width 2, 4, 8 and
    the prefetching one of width 16. *)
Theorem gather_inner_product_kernels_compute_rows (x y0 y1 : ptr)
    (y4 y8 y16 : list ptr) d :
  length y4 = 4 -> length y8 = 8 -> length y16 = 16 ->
  krl_inner_product_idx_batch2 x y0 y1 d = [ipdis_ref x y0 d; ipdis_ref x y1 d]
  /\ krl_inner_product_idx_batch4 x y4 d = map (fun yk => ipdis_ref x yk d) y4
  /\ krl_inner_product_idx_batch8 x y8 d = map (fun yk => ipdis_ref x yk d) y8
  /\ krl_inner_product_idx_prefetch_batch16 x y16 d =
       map (fun yk => ipdis_ref x yk d) y16.
Proof.
  intros _ _ _.
  pose proof (IP_ok f1 fopp Rth) as Hok.
  unfold krl_inner_product_idx_batch2, krl_inner_product_idx_batch4,
    krl_inner_product_idx_batch8.
  rewrite (batch2_kernel_ok f1 fopp Rth IP), !(batch_kernel_ok f1 fopp Rth IP)
    by done.
  rewrite (krl_inner_product_idx_prefetch_batch16_ok f1 fopp Rth).
  done.
Qed.

(** X5: for [d >= 1], each of the six kernels over the block-transposed
    layout returns the [B] distances of its block: lane [v] is the sum over
    the [d] components [j] of the term of [x[j]] and [y[B * j + v]]. *)
Theorem transposed_kernels_compute_lanes (x y : ptr) d :
  1 <= d ->
  krl_L2sqr_continuous_transpose_mini_kernel x y d =
    map (transposed_ref L2 16 x y d) (seq 0 16)
  /\ krl_L2sqr_continuous_transpose_medium_kernel x y d =
       map (transposed_ref L2 32 x y d) (seq 0 32)
  /\ krl_L2sqr_continuous_transpose_large_kernel x y d =
       map (transposed_ref L2 64 x y d) (seq 0 64)
  /\ krl_inner_product_continuous_transpose_mini_kernel x y d =
       map (transposed_ref IP 16 x y d) (seq 0 16)
  /\ krl_inner_product_continuous_transpose_medium_kernel x y d =
       map (transposed_ref IP 32 x y d) (seq 0 32)
  /\ krl_inner_product_continuous_transpose_large_kernel x y d =
       map (transposed_ref IP 64 x y d) (seq 0 64).
Proof.
  intros Hd.
  pose proof (L2_ok f1 fopp Rth) as Hl2. pose proof (IP_ok f1 fopp Rth) as Hip.
  repeat split;
    first [ apply (L2sqr_transpose_pipelined_kernel_ok f1 fopp Rth); auto
          | apply (transpose_kernel_ok f1 fopp Rth); auto ].
Qed.


End KernelProperties.

(** ** The single-pair and batch entry points *)

Section EntryProperties.
Context {F : Type} `{Scalar F} (f1 : F) (fopp : F -> F).
Hypothesis Rth : ring_theory f0 f1 fadd fmul fsub fopp eq.

Add Ring FringX : Rth.

Local Abbreviation ptr := (fptr F).

Lemma L2sqr_ref_sym (x y : ptr) d : L2sqr_ref x y d = L2sqr_ref y x d.
Proof. unfold L2sqr_ref. apply sum_terms_ext. intros j _. ring. Qed.

Lemma ipdis_ref_sym (x y : ptr) d : ipdis_ref x y d = ipdis_ref y x d.
Proof. unfold ipdis_ref. apply sum_terms_ext. intros j _. ring. Qed.

Lemma L2sqr_ref_self (x : ptr) d : L2sqr_ref x x d = f0.
Proof.
  unfold L2sqr_ref. induction d as [|d IH]; simpl; [done|].
  rewrite IH. ring.
Qed.

Lemma lookup_run_kernel_single o (v : F) (st : store F) :
  o < length (cells st) -> cells (run_kernel o [v] st) !! o = Some v.
Proof.
  intros Ho. cbn [run_kernel cells poke_list].
  by apply list_lookup_insert_eq.
Qed.

(** X7: the two single-pair entry points are symmetric in their vectors,
    and the L2 distance of a vector to itself is zero: for valid [d] and
    capacity, exchanging [x] and [y] gives the same result, and
    [krl_L2sqr] on [(x, x)] stores zero. *)
Theorem single_pair_symmetric_and_zero_on_self (x y : ptr) d dis dis_size
    (st : store F) :
  (1 <= d <= 65535)%Z -> (1 <= dis_size)%Z ->
  krl_L2sqr (Some x) (Some y) d (Some dis) dis_size st =
    krl_L2sqr (Some y) (Some x) d (Some dis) dis_size st
  /\ krl_ipdis (Some x) (Some y) d (Some dis) dis_size st =
       krl_ipdis (Some y) (Some x) d (Some dis) dis_size st
  /\ krl_L2sqr (Some x) (Some x) d (Some dis) dis_size st =
       (SUCCESS, run_kernel dis [f0] st).
Proof.
  intros Hd Hsz. unfold krl_L2sqr, krl_ipdis.
  replace (d <? 1)%Z with false by lia.
  replace (d >? 65535)%Z with false by lia.
  replace (dis_size <? 1)%Z with false by lia. cbn [orb].
  rewrite !(L2sqr_res_ok f1 fopp Rth), !(ipdis_res_ok f1 fopp Rth).
  rewrite (L2sqr_ref_sym y x), (ipdis_ref_sym y x), L2sqr_ref_self. done.
Qed.




Lemma sum_terms_split (t : nat -> F) a b :
  sum_terms t (a + b) = fadd (sum_terms t a) (sum_terms (fun j => t (a + j)) b).
Proof.
  induction b as [|b IH].
  - rewrite Nat.add_0_r. simpl. ring.
  - replace (a + S b) with (S (a + b)) by lia. simpl. rewrite IH. ring.
Qed.

(** X20: a distance over [d1 + d2] components is the sum of the distance
    over the first [d1] components and the distance over the [d2]
    components that follow: the value [krl_L2sqr] (resp. [krl_ipdis])
    stores for dimension [d1 + d2] is the sum of the values it stores for
    [(x, y, d1)] and for [(x + d1, y + d1, d2)]. *)
Theorem distance_splits_over_dimensions (x y : ptr) d1 d2 :
  L2sqr_res x y (d1 + d2) =
    fadd (L2sqr_res x y d1) (L2sqr_res (x +& d1) (y +& d1) d2)
  /\ ipdis_res x y (d1 + d2) =
       fadd (ipdis_res x y d1) (ipdis_res (x +& d1) (y +& d1) d2).
Proof.
  rewrite !(L2sqr_res_ok f1 fopp Rth), !(ipdis_res_ok f1 fopp Rth).
  unfold L2sqr_ref, ipdis_ref. rewrite !sum_terms_split.
  split; f_equal; apply sum_terms_ext; intros j _; by rewrite !ld_ptr_add.
Qed.

End EntryProperties.

(** ** Status codes *)

Section StatusProperties.
Context {F : Type} `{Scalar F}.

Local Abbreviation ptr := (fptr F).

Lemma codes_distinct :
  SUCCESS <> INVALPARAM /\ SUCCESS <> INVALPOINTER /\ SUCCESS <> UNSAFEMEM
  /\ INVALPARAM <> INVALPOINTER /\ INVALPARAM <> UNSAFEMEM
  /\ INVALPOINTER <> UNSAFEMEM.
Proof. repeat split; discriminate. Qed.

(** Split the tests of a validation and the pairs of the loops. *)
Ltac split_call :=
  repeat match goal with
    | |- context [(?a <? ?b)%Z] => destruct (Z.ltb_spec a b)
    | |- context [(?a >? ?b)%Z] =>
        rewrite (Z.gtb_ltb a b); destruct (Z.ltb_spec b a)
    | |- context [match ?o with Some _ => _ | None => _ end] =>
        is_var o; destruct o
    | |- context [let '(_, _) := ?p in _] => destruct p
    end;
  cbn [orb fst snd].

(** X11: a single-pair or batch entry point returns [SUCCESS] exactly when
    its numbers are in range, its pointers are non-null and the declared
    capacity covers the slots it writes: [d] in [1, 65535], [ny] in
    [1, 2^30], [dis_size >= ny] ([>= 1] for a single pair). *)
Theorem success_iff_valid (x y : option ptr) (ids : option (list Z))
    (dis : option nat) d ny dis_size (st : store F) :
  let valid_pair :=
    (1 <= d <= 65535)%Z /\ (1 <= dis_size)%Z /\
    x <> None /\ y <> None /\ dis <> None in
  let valid_batch :=
    (1 <= d <= 65535)%Z /\ (1 <= ny <= 2 ^ 30)%Z /\ (ny <= dis_size)%Z /\
    x <> None /\ y <> None /\ dis <> None in
  ((krl_L2sqr x y d dis dis_size st).1 = SUCCESS <-> valid_pair)
  /\ ((krl_ipdis x y d dis dis_size st).1 = SUCCESS <-> valid_pair)
  /\ ((krl_L2sqr_ny dis x y ny d dis_size st).1 = SUCCESS <-> valid_batch)
  /\ ((krl_inner_product_ny dis x y ny d dis_size st).1 = SUCCESS
      <-> valid_batch)
  /\ ((krl_L2sqr_by_idx dis x y ids d ny dis_size st).1 = SUCCESS
      <-> valid_batch /\ ids <> None)
  /\ ((krl_inner_product_by_idx dis x y ids d ny dis_size st).1 = SUCCESS
      <-> valid_batch /\ ids <> None).
Proof.
  intros valid_pair valid_batch. unfold valid_pair, valid_batch.
  pose proof codes_distinct as (Hc1 & Hc2 & _).
  unfold krl_L2sqr, krl_ipdis, krl_L2sqr_ny, krl_inner_product_ny,
    krl_L2sqr_by_idx, krl_inner_product_by_idx.
  split; [|split; [|split; [|split; [|split]]]]; split_call;
    (split; [intros E; first [by symmetry in E | repeat split; lia || done]
            | intros E; first [done | exfalso; intuition (lia || congruence)]]).
Qed.

(** X12: a single-pair or batch entry point returns one of [SUCCESS],
    [INVALPARAM] and [INVALPOINTER], never [UNSAFEMEM], and whenever the
    status is not [SUCCESS] the output buffer is the one it was given:
    no call fails after a write. *)
Theorem failure_leaves_buffer_untouched (x y : option ptr)
    (ids : option (list Z)) (dis : option nat) d ny dis_size (st : store F) :
  let clean (res : Z * store F) :=
    In res.1 batch_codes /\ (res.1 <> SUCCESS -> res.2 = st) in
  clean (krl_L2sqr x y d dis dis_size st)
  /\ clean (krl_ipdis x y d dis dis_size st)
  /\ clean (krl_L2sqr_ny dis x y ny d dis_size st)
  /\ clean (krl_inner_product_ny dis x y ny d dis_size st)
  /\ clean (krl_L2sqr_by_idx dis x y ids d ny dis_size st)
  /\ clean (krl_inner_product_by_idx dis x y ids d ny dis_size st).
Proof.
  intros clean. unfold clean, batch_codes.
  unfold krl_L2sqr, krl_ipdis, krl_L2sqr_ny, krl_inner_product_ny,
    krl_L2sqr_by_idx, krl_inner_product_by_idx.
  split; [|split; [|split; [|split; [|split]]]]; split_call;
    (split; [cbn [In]; tauto | intros E; first [done | by exfalso]]).
Qed.

(** The loop over the queries of the branch [if (left)] ends with
    [SUCCESS] or [UNSAFEMEM]. *)
Lemma remainder_rounds_codes B kernel ny dim ceil_ny left dis_size rounds :
  forall m dis (x y : ptr) (st : store F),
    let res :=
      remainder_rounds B kernel ny dim ceil_ny left dis_size rounds m dis x y
        st in
    res.1 = SUCCESS \/ res.1 = UNSAFEMEM.
Proof.
  induction rounds as [|r IH]; intros m dis x y st; cbn zeta; [by left|].
  cbn [remainder_rounds].
  destruct (for_loop _ _ _ _ _ _) as [i st1].
  destruct (_ <? left)%Z; [by right|].
  destruct (CheckAndMemcpy _ _ _ _ _) as [ret st2].
  destruct (negb (ret =? 0)%Z); [by right|]. apply IH.
Qed.

Lemma transposed_case_codes B kernel ny dim ceil_ny M left dis_size dis
    (x y : ptr) (st : store F) :
  let res :=
    transposed_case B kernel ny dim ceil_ny M left dis_size dis x y st in
  res.1 = SUCCESS \/ res.1 = UNSAFEMEM.
Proof.
  cbn zeta. unfold transposed_case.
  destruct (negb (left =? 0)%Z); [apply remainder_rounds_codes | by left].
Qed.

(** The computing part of a handle entry point, entered once the pointers
    and the sizes have passed: [SUCCESS] or [UNSAFEMEM]. *)
Ltac computing_codes :=
  repeat match goal with
    | |- context [if ?b then _ else _] =>
        lazymatch b with
        | (_ =? _)%Z => destruct b eqn:?
        end
    end;
  first [ apply transposed_case_codes | by left ].

Lemma classic_null (kdh : option (Handle.t F)) (dis : option nat)
    (x : option ptr) :
  (kdh = None \/ dis = None \/ x = None)
  \/ exists h, kdh = Some h /\ dis <> None /\ x <> None.
Proof.
  destruct kdh as [h|], dis as [o|], x as [p|]; auto.
  right. exists h. repeat split; done.
Qed.

(** The shape shared by the two handle entry points: null pointers first,
    then the sizes and the bit width, then the computing part. *)
Lemma handle_discipline_cases (kdh : option (Handle.t F)) (dis : option nat)
    (x : option ptr) dis_size x_size (st : store F) (res : Z * store F) :
  (kdh = None \/ dis = None \/ x = None -> res = (INVALPOINTER, st)) ->
  (forall h, kdh = Some h -> dis <> None -> x <> None ->
     ((dis_size < wrap64 (Handle.M h * Handle.ny h))%Z \/
      (x_size < wrap64 (Handle.d h * Handle.M h))%Z \/
      Handle.data_bits h <> 32%Z -> res = (INVALPARAM, st))
     /\ ((wrap64 (Handle.M h * Handle.ny h) <= dis_size)%Z ->
         (wrap64 (Handle.d h * Handle.M h) <= x_size)%Z ->
         Handle.data_bits h = 32%Z ->
         res.1 = SUCCESS \/ res.1 = UNSAFEMEM)) ->
  In res.1 handle_codes
  /\ (res.1 = INVALPOINTER <-> kdh = None \/ dis = None \/ x = None)
  /\ (res.1 = INVALPARAM <->
      exists h, kdh = Some h /\ dis <> None /\ x <> None /\
        ((dis_size < wrap64 (Handle.M h * Handle.ny h))%Z \/
         (x_size < wrap64 (Handle.d h * Handle.M h))%Z \/
         Handle.data_bits h <> 32%Z))
  /\ (res.1 = INVALPOINTER \/ res.1 = INVALPARAM -> res.2 = st).
Proof.
  intros Hnull Hsome. unfold handle_codes.
  pose proof codes_distinct as (Hc1 & Hc2 & Hc3 & Hc4 & Hc5 & Hc6).
  destruct (classic_null kdh dis x) as [Hn | (h & -> & Hd & Hx)].
  - rewrite (Hnull Hn). cbn [fst snd In].
    split; [auto|]. split; [tauto|]. split; [|done].
    split; [intros E; by symmetry in E|].
    intros (h & -> & Hd & Hx & _).
    destruct Hn as [E | [E | E]]; congruence.
  - destruct (Hsome h eq_refl Hd Hx) as [Hbad Hgood].
    assert (Hnn : ~ (Some h = None \/ dis = None \/ x = None))
      by (intros [E | [E | E]]; congruence).
    destruct (Z.ltb_spec dis_size (wrap64 (Handle.M h * Handle.ny h)))
      as [Hs1 | Hs1];
      [|destruct (Z.ltb_spec x_size (wrap64 (Handle.d h * Handle.M h)))
          as [Hs2 | Hs2];
        [|destruct (Z.eq_dec (Handle.data_bits h) 32%Z) as [Hb | Hb]]].
    1,2,4: rewrite Hbad by auto; cbn [fst snd In];
      (split; [auto|]); (split; [split; [intros E; by symmetry in E|tauto]|]);
      (split; [|done]); (split; [|done]); intros _; exists h; auto 10.
    destruct (Hgood Hs1 Hs2 Hb) as [E | E]; rewrite E; cbn [In].
    + split; [auto|]. split; [split; [done|tauto]|].
      split; [|intros [? | ?]; done].
      split; [done|]. intros (h' & [= <-] & _ & _ & [? | [? | ?]]);
        [lia | lia | done].
    + split; [auto 6|].
      split; [split; [intros E'; by symmetry in E'|tauto]|].
      split; [|intros [E' | E']; by symmetry in E'].
      split; [intros E'; by symmetry in E'|].
      intros (h' & [= <-] & _ & _ & [? | [? | ?]]); [lia | lia | done].
Qed.

(** X13: a handle entry point returns one of the four status codes;
    [INVALPOINTER] exactly when the handle, [dis] or [x] is null;
    [INVALPARAM] exactly when they are not and [dis_size] is below the
    product [M * ny] the code computes, or [x_size] below [d * M], or
    [data_bits] is not 32; and with either of the two the output buffer is
    the one it was given. *)
Theorem handle_status_discipline (kdh : option (Handle.t F))
    (dis : option nat) (x : option ptr) dis_size x_size (st : store F) :
  let disciplined (res : Z * store F) :=
    In res.1 handle_codes
    /\ (res.1 = INVALPOINTER <-> kdh = None \/ dis = None \/ x = None)
    /\ (res.1 = INVALPARAM <->
        exists h, kdh = Some h /\ dis <> None /\ x <> None /\
          ((dis_size < wrap64 (Handle.M h * Handle.ny h))%Z \/
           (x_size < wrap64 (Handle.d h * Handle.M h))%Z \/
           Handle.data_bits h <> 32%Z))
    /\ (res.1 = INVALPOINTER \/ res.1 = INVALPARAM -> res.2 = st) in
  disciplined (krl_L2sqr_ny_with_handle kdh dis x dis_size x_size st)
  /\ disciplined
       (krl_inner_product_ny_with_handle kdh dis x dis_size x_size st).
Proof.
  intros disciplined. unfold disciplined.
  split; apply handle_discipline_cases;
    unfold krl_L2sqr_ny_with_handle, krl_inner_product_ny_with_handle.
  1,3: by intros [-> | [-> | ->]]; repeat case_match.
  all: intros h -> Hd Hx; destruct dis as [o|]; [|done];
    destruct x as [p|]; [|done]; split.
  1,3: intros [Hs | [Hs | Hb]];
    [ by replace (dis_size <? _)%Z with true by lia
    | replace (x_size <? _)%Z with true by lia; by rewrite orb_true_r
    | apply Z.eqb_neq in Hb; rewrite Hb; by repeat case_match ].
  all: intros Hs1 Hs2 Hb;
    replace (dis_size <? _)%Z with false by lia;
    replace (x_size <? _)%Z with false by lia;
    rewrite Hb; cbn [orb]; change (32 =? 32)%Z with true; cbv iota;
    computing_codes.
Qed.

End StatusProperties.

(** ** The handle entry points, with a tail or without *)

Section HandleProperties.
Context {F : Type} `{Scalar F} (f1 : F) (fopp : F -> F).
Hypothesis Rth : ring_theory f0 f1 fadd fmul fsub fopp eq.

Local Abbreviation ptr := (fptr F).




End HandleProperties.

Section HandleEdges.
Context {F : Type} `{Scalar F}.

Local Abbreviation ptr := (fptr F).

Lemma transposed_case_empty B kernel ny dim ceil_ny M dis_size dis (x y : ptr)
    (st : store F) :
  0 < B -> (0 <= ny)%Z -> M = 0%Z \/ ny = 0%Z ->
  transposed_case B kernel ny dim ceil_ny M (ny mod Z.of_nat B) dis_size dis
    x y st = (SUCCESS, st).
Proof.
  intros HB Hny Hempty. unfold transposed_case.
  destruct (negb (ny mod Z.of_nat B =? 0)%Z) eqn:El.
  - destruct Hempty as [-> | ->]; [done|].
    rewrite Zmod_0_l in El. done.
  - apply negb_false_iff, Z.eqb_eq in El. f_equal.
    apply (full_rounds_spec B kernel ny dim ceil_ny M dis x y
             (fun _ t => t = st)); [done| | |done].
    + exists (Z.to_nat (ny / Z.of_nat B)).
      pose proof (Z.div_mod ny (Z.of_nat B) ltac:(lia)) as Hdm.
      assert (0 <= ny / Z.of_nat B)%Z by (apply Z.div_pos; lia). nia.
    + intros m j t Hm _ Hj _. exfalso.
      destruct Hempty as [-> | ->]; simpl in *; lia.
Qed.

(** X17: a handle with no query ([M = 0]) or no vector ([ny = 0]) is not
    rejected: with [data_bits = 32], a block size of 16, 32 or 64 and
    [x_size >= d * M], both entry points return [SUCCESS] and leave the
    buffer as it was. *)
Theorem handle_without_work_succeeds (kdh : Handle.t F) dis (x : ptr)
    dis_size x_size (st : store F) :
  Handle.data_bits kdh = 32%Z ->
  Handle.blocksize kdh = 16%Z \/ Handle.blocksize kdh = 32%Z \/
    Handle.blocksize kdh = 64%Z ->
  (0 <= Handle.ny kdh)%Z -> (0 <= dis_size)%Z ->
  (wrap64 (Handle.d kdh * Handle.M kdh) <= x_size)%Z ->
  Handle.M kdh = 0%Z \/ Handle.ny kdh = 0%Z ->
  krl_L2sqr_ny_with_handle (Some kdh) (Some dis) (Some x) dis_size x_size st
    = (SUCCESS, st)
  /\ krl_inner_product_ny_with_handle (Some kdh) (Some dis) (Some x) dis_size
       x_size st = (SUCCESS, st).
Proof.
  intros Hbits HB Hny Hsz Hx Hempty.
  assert (Handle.M kdh * Handle.ny kdh = 0)%Z as Hprod
    by (destruct Hempty as [-> | ->]; lia).
  unfold krl_L2sqr_ny_with_handle, krl_inner_product_ny_with_handle.
  rewrite Hprod. change (wrap64 0) with 0%Z.
  replace (dis_size <? 0)%Z with false by lia.
  replace (x_size <? _)%Z with false by lia.
  rewrite Hbits. cbn [orb]. change (32 =? 32)%Z with true. cbv iota.
  destruct HB as [HB | [HB | HB]]; rewrite HB.
  - change (16 =? 16)%Z with true. cbv iota. rewrite left_16.
    split; apply transposed_case_empty; first [done | lia].
  - change (32 =? 16)%Z with false. change (32 =? 32)%Z with true. cbv iota.
    rewrite left_32. split; apply transposed_case_empty; first [done | lia].
  - change (64 =? 16)%Z with false. change (64 =? 32)%Z with false.
    change (64 =? 64)%Z with true. cbv iota. rewrite left_64.
    split; apply transposed_case_empty; first [done | lia].
Qed.

End HandleEdges.

(** ** safe_memory.h *)

Section SafeMemoryProperties.
Context {F : Type} `{Scalar F}.


End SafeMemoryProperties.

(** X19: [CheckAndMemset] returns 0 exactly when the size to set does not
    exceed the destination size and the pointer is non-null, and -1
    otherwise, with the memory untouched.  When it returns 0 the [setSize]
    bytes from [dest] hold the value reduced to a byte, every other byte is
    as before, none at or after [dest + destBufferSize] is written, and the
    memory keeps its length. *)
Theorem CheckAndMemset_is_bounded (dest : option nat) destBufferSize
    memsetValue setSize (mem : list Z) :
  let res := CheckAndMemset dest destBufferSize memsetValue setSize mem in
  (res.1 = 0%Z <-> (setSize <= destBufferSize)%Z /\ dest <> None)
  /\ (res.1 <> 0%Z -> res = ((-1)%Z, mem))
  /\ length res.2 = length mem
  /\ forall o, dest = Some o -> res.1 = 0%Z ->
       let w := Z.to_nat setSize in
       (o + w <= length mem ->
        forall k, k < w ->
          res.2 !! (o + k) = Some (memsetValue mod 256)%Z)
       /\ (forall j, j < o \/ o + w <= j -> res.2 !! j = mem !! j)
       /\ w <= Z.to_nat destBufferSize
       /\ (0 <= memsetValue mod 256 < 256)%Z.
Proof.
  cbn zeta. unfold CheckAndMemset.
  destruct (Z.gtb_spec setSize destBufferSize) as [Hgt | Hle].
  { cbn [fst snd]. split; [split; [done | lia]|]. split; [done|].
    split; [done|]. intros o _ [=]. }
  destruct dest as [o|]; cbn [fst snd].
  2:{ split; [split; [done | intros [_ ?]; done]|]. split; [done|].
      split; [done|]. intros o' [=]. }
  split; [split; [done | intros _; by split]|]. split; [done|].
  split; [apply length_poke_list|]. intros o' [= <-] _.
  split; [|split; [|split]].
  - intros Hc k Hk.
    rewrite lookup_poke_list_in by (rewrite length_replicate; lia).
    by apply lookup_replicate_2.
  - intros j Hj. apply lookup_poke_list_out. rewrite length_replicate. lia.
  - lia.
  - apply Z.mod_pos_bound. lia.
Qed.

(** ** The further properties on concrete calls *)

Lemma dense_L2sqr_kernels_compute_rows_witness :
  krl_L2sqr_batch2 (floats [1; 2; 3]%Z) (floats [1; 2; 3; 4; 5; 6]%Z) 3
  = [0; 27]%Z
  /\ krl_L2sqr_batch4 (floats [1; 2; 3; 4; 5]%Z)
       (floats (map Z.of_nat (seq 0 20))) 5
     = [5; 80; 405; 980]%Z.
Proof.
  destruct (dense_L2sqr_kernels_compute_rows (H := Z_scalar) 1%Z Z.opp
              InitialRing.Zth (floats [1; 2; 3]%Z)
              (floats [1; 2; 3; 4; 5; 6]%Z) 3) as (E2 & _).
  destruct (dense_L2sqr_kernels_compute_rows (H := Z_scalar) 1%Z Z.opp
              InitialRing.Zth (floats [1; 2; 3; 4; 5]%Z)
              (floats (map Z.of_nat (seq 0 20))) 5) as (_ & E4 & _).
  split; [exact E2 | exact E4].
Defined.

Lemma dense_inner_product_kernels_compute_rows_witness :
  krl_inner_product_batch2 (floats [1; 2; 3]%Z) (floats [1; 2; 3; 4; 5; 6]%Z)
    3 = [14; 32]%Z.
Proof.
  destruct (dense_inner_product_kernels_compute_rows (H := Z_scalar) 1%Z
              Z.opp InitialRing.Zth (floats [1; 2; 3]%Z)
              (floats [1; 2; 3; 4; 5; 6]%Z) 3) as (E2 & _).
  exact E2.
Defined.

Lemma gather_L2sqr_kernels_compute_rows_witness :
  let y := floats (map Z.of_nat (seq 0 48)) in
  krl_L2sqr_idx_batch4 (floats [1; 2]%Z) (rows y 2 4) 2 = [2; 2; 18; 50]%Z.
Proof.
  intros y.
  destruct (gather_L2sqr_kernels_compute_rows (H := Z_scalar) 1%Z Z.opp
              InitialRing.Zth (floats [1; 2]%Z) y y (rows y 2 4) (rows y 2 8)
              (rows y 2 16) (rows y 2 24) 2)
    as (_ & E4 & _); [reflexivity | reflexivity | reflexivity | reflexivity |].
  exact E4.
Defined.

Lemma gather_inner_product_kernels_compute_rows_witness :
  let y := floats (map Z.of_nat (seq 0 48)) in
  krl_inner_product_idx_batch4 (floats [1; 2]%Z) (rows y 2 4) 2
  = [2; 8; 14; 20]%Z.
Proof.
  intros y.
  destruct (gather_inner_product_kernels_compute_rows (H := Z_scalar) 1%Z
              Z.opp InitialRing.Zth (floats [1; 2]%Z) y y (rows y 2 4)
              (rows y 2 8) (rows y 2 16) 2)
    as (_ & E4 & _); [reflexivity | reflexivity | reflexivity |].
  exact E4.
Defined.

Lemma transposed_kernels_compute_lanes_witness :
  krl_inner_product_continuous_transpose_mini_kernel (floats [2; 3]%Z)
    (floats (map Z.of_nat (seq 0 32))) 2
  = map (fun v => 2 * v + 3 * (16 + v))%Z (map Z.of_nat (seq 0 16)).
Proof.
  destruct (transposed_kernels_compute_lanes (H := Z_scalar) 1%Z Z.opp
              InitialRing.Zth (floats [2; 3]%Z)
              (floats (map Z.of_nat (seq 0 32))) 2 ltac:(lia))
    as (_ & _ & _ & E & _).
  exact E.
Defined.


Lemma single_pair_symmetric_and_zero_on_self_witness :
  krl_L2sqr (Some (floats [1; 2; 3]%Z)) (Some (floats [1; 2; 3]%Z)) 3 (Some 0)
    1 (fresh_buffer 1) = (SUCCESS, run_kernel 0 [0%Z] (fresh_buffer 1)).
Proof.
  destruct (single_pair_symmetric_and_zero_on_self (H := Z_scalar) 1%Z Z.opp
              InitialRing.Zth (floats [1; 2; 3]%Z) (floats [4; 5; 6]%Z) 3 0 1
              (fresh_buffer 1) ltac:(lia) ltac:(lia)) as (_ & _ & E).
  exact E.
Defined.




Lemma distance_splits_over_dimensions_witness :
  L2sqr_res (floats [1; 2; 3; 4; 5]%Z) (floats [5; 4; 3; 2; 1]%Z) (2 + 3)
  = (L2sqr_res (floats [1; 2; 3; 4; 5]%Z) (floats [5; 4; 3; 2; 1]%Z) 2
     + L2sqr_res (floats [1; 2; 3; 4; 5]%Z +& 2)
         (floats [5; 4; 3; 2; 1]%Z +& 2) 3)%Z.
Proof.
  destruct (distance_splits_over_dimensions (H := Z_scalar) 1%Z Z.opp
              InitialRing.Zth (floats [1; 2; 3; 4; 5]%Z)
              (floats [5; 4; 3; 2; 1]%Z) 2 3) as (E & _).
  exact E.
Defined.

Lemma success_iff_valid_witness :
  (krl_L2sqr_ny (Some 0) (Some (floats [5%Z])) (Some (floats [0; 5; 10]%Z)) 3
     1 3 (fresh_buffer 3)).1 = SUCCESS
  /\ (krl_L2sqr_ny (Some 0) (Some (floats [5%Z])) (Some (floats [0; 5; 10]%Z))
        3 1 2 (fresh_buffer 3)).1 <> SUCCESS.
Proof.
  pose proof (success_iff_valid (Some (floats [5%Z]))
                (Some (floats [0; 5; 10]%Z)) None (Some 0) 1 3 3
                (fresh_buffer 3)) as (_ & _ & Hok & _).
  pose proof (success_iff_valid (Some (floats [5%Z]))
                (Some (floats [0; 5; 10]%Z)) None (Some 0) 1 3 2
                (fresh_buffer 3)) as (_ & _ & Hbad & _).
  split.
  - apply Hok. repeat split; first [lia | discriminate].
  - intros E. apply Hbad in E. lia.
Defined.

Lemma failure_leaves_buffer_untouched_witness :
  (krl_L2sqr_by_idx (Some 0) (Some (floats [5%Z]))
     (Some (floats [0; 5; 10]%Z)) None 1 3 3 (fresh_buffer 3)).2
  = fresh_buffer 3.
Proof.
  pose proof (failure_leaves_buffer_untouched (Some (floats [5%Z]))
                (Some (floats [0; 5; 10]%Z)) None (Some 0) 1 3 3
                (fresh_buffer 3)) as (_ & _ & _ & _ & [_ Hclean] & _).
  apply Hclean. vm_compute. discriminate.
Defined.

Lemma handle_status_discipline_witness :
  (krl_L2sqr_ny_with_handle None (Some 0) (Some (floats [5%Z])) 3 1
     (fresh_buffer 3)).1 = INVALPOINTER
  /\ (krl_L2sqr_ny_with_handle
        (Some (handle_of 8 16 1 3 1 (replicate 16 0%Z))) (Some 0)
        (Some (floats [5%Z])) 3 1 (fresh_buffer 3)).1 = INVALPARAM.
Proof.
  pose proof (handle_status_discipline None (Some 0) (Some (floats [5%Z])) 3 1
                (fresh_buffer 3)) as [(_ & Hp & _) _].
  pose proof (handle_status_discipline
                (Some (handle_of 8 16 1 3 1 (replicate 16 0%Z))) (Some 0)
                (Some (floats [5%Z])) 3 1 (fresh_buffer 3))
    as [(_ & _ & Hb & _) _].
  split.
  - apply Hp. left. reflexivity.
  - apply Hb. exists (handle_of 8 16 1 3 1 (replicate 16 0%Z)).
    split; [reflexivity|]. split; [discriminate|]. split; [discriminate|].
    right. right. simpl. lia.
Defined.




Lemma handle_without_work_succeeds_witness :
  krl_L2sqr_ny_with_handle (Some (handle_of 32 16 4 0 3 [])) (Some 0)
    (Some (floats (replicate 12 1%Z))) 0 12 (fresh_buffer 1)
  = (SUCCESS, fresh_buffer 1).
Proof.
  destruct (handle_without_work_succeeds (handle_of 32 16 4 0 3 []) 0
              (floats (replicate 12 1%Z)) 0 12 (fresh_buffer 1)
              ltac:(reflexivity) ltac:(left; reflexivity) ltac:(simpl; lia)
              ltac:(lia) ltac:(vm_compute; discriminate)
              ltac:(right; reflexivity)) as [E _].
  exact E.
Defined.


Lemma CheckAndMemset_is_bounded_witness :
  (CheckAndMemset (Some 1) 2 (-1) 2 [5; 5; 5; 5]%Z).2 !! (1 + 1) = Some 255%Z
  /\ (CheckAndMemset (Some 1) 2 (-1) 3 [5; 5; 5; 5]%Z) = ((-1)%Z, [5; 5; 5; 5]%Z).
Proof.
  pose proof (CheckAndMemset_is_bounded (Some 1) 2 (-1) 2 [5; 5; 5; 5]%Z)
    as (_ & _ & _ & Hok).
  pose proof (CheckAndMemset_is_bounded (Some 1) 2 (-1) 3 [5; 5; 5; 5]%Z)
    as (_ & Hfail & _).
  split.
  - destruct (Hok 1 eq_refl eq_refl) as (Hin & _).
    apply Hin; simpl; lia.
  - apply Hfail. vm_compute. discriminate.
Defined.
